(** * SHEATH-PIC: a 1D-1V electrostatic particle-in-cell sheath code

    Shallow embedding of [sheath_steady.cpp] and verification of its
    particle/grid coupling, field solvers and particle pusher.

    Conventions of the embedding.
    - A C++ [double] is a rational number ([Q]): arithmetic is exact, rounding
      is not modelled.  Equality of computed values is stated with [==]
      ([Qeq]) unless both sides are produced by the same computation.
    - A C++ [int] is an integer ([Z]); the indices of the program are far
      from the limits of the machine type.
    - A [double*] array is a [list Q]; reading or writing outside the
      allocated extent is a fault ([OutOfBounds]), so every function that
      touches an array lives in the error monad [res].
    - The global [domain] is passed explicitly to the functions reading it.
    - The random number generator and [sqrt] come from the C++ standard
      library; they are parameters of the sections that use them. *)

From Stdlib Require Import String.
From Stdlib Require Import ZArith QArith Qround Qminmax List Lia Lqa Bool.
From Stdlib Require Import Permutation.
Import ListNotations.

Local Open Scope Z_scope.
Local Open Scope Q_scope.

(** ** Error monad *)

Inductive fault : Type :=
| OutOfBounds   (* an array access outside the allocated extent *)
| OutOfFuel.    (* a loop exceeded the bound given to its model *)

Inductive res (A : Type) : Type :=
| Ok (a : A)
| Fail (f : fault).

Arguments Ok {A} a.
Arguments Fail {A} f.

Definition bind {A B : Type} (m : res A) (k : A -> res B) : res B :=
  match m with
  | Ok a => k a
  | Fail f => Fail f
  end.

Notation "x <- m ;; k" := (bind m (fun x => k))
  (at level 61, m at next level, right associativity).
Notation "' pat <- m ;; k" := (bind m (fun x => match x with pat => k end))
  (at level 61, pat pattern, m at next level, right associativity).

(** ** Arrays of doubles *)

(** The list [l] with the element at index [it] replaced by [p]. *)
Fixpoint set_at {A : Type} (l : list A) (it : nat) (p : A) : list A :=
  match l, it with
  | [], _ => []
  | _ :: t, O => p :: t
  | h :: t, S n => h :: set_at t n p
  end.

Definition len (a : list Q) : Z := Z.of_nat (length a).

(** [a[i]] as an r-value. *)
Definition rd (a : list Q) (i : Z) : res Q :=
  if (i <? 0)%Z then Fail OutOfBounds
  else match nth_error a (Z.to_nat i) with
       | Some v => Ok v
       | None => Fail OutOfBounds
       end.

(** [a[i] = v]. *)
Definition wr (a : list Q) (i : Z) (v : Q) : res (list Q) :=
  if ((0 <=? i) && (i <? len a))%Z then Ok (set_at a (Z.to_nat i) v)
  else Fail OutOfBounds.

(** [memset(a, 0, sizeof(double)*n)]. *)
Definition memset0 (a : list Q) (n : Z) : res (list Q) :=
  if ((0 <=? n) && (n <=? len a))%Z
  then Ok (repeat 0 (Z.to_nat n) ++ skipn (Z.to_nat n) a)
  else Fail OutOfBounds.

(** [new double[n]]: the content is indeterminate, [init] stands for it. *)
Definition new_array (init : Z -> Q) (n : Z) : list Q :=
  map (fun k => init (Z.of_nat k)) (seq 0 (Z.to_nat n)).

(** ** Counted loops *)

(** [n] iterations of [body], the index starting at [i] and going up. *)
Fixpoint for_up {S : Type} (n : nat) (i : Z) (body : Z -> S -> res S) (s : S)
  : res S :=
  match n with
  | O => Ok s
  | S n' => s' <- body i s ;; for_up n' (i + 1)%Z body s'
  end.

(** [for (int i = lo; i < hi; i++) body]. *)
Definition for_range {S : Type} (lo hi : Z) (body : Z -> S -> res S) (s : S)
  : res S :=
  for_up (Z.to_nat (hi - lo)) lo body s.

(** [n] iterations of [body], the index starting at [i] and going down. *)
Fixpoint for_down {S : Type} (n : nat) (i : Z) (body : Z -> S -> res S) (s : S)
  : res S :=
  match n with
  | O => Ok s
  | S n' => s' <- body i s ;; for_down n' (i - 1)%Z body s'
  end.

(** [for (int i = hi; i >= lo; i--) body]. *)
Definition for_range_down {S : Type} (hi lo : Z) (body : Z -> S -> res S)
  (s : S) : res S :=
  for_down (Z.to_nat (hi - lo + 1)) hi body s.

(** ** Constants of the program *)

Definition EPS : Q := 8.85418782e-12.
Definition K : Q := 1.38065e-23.
Definition ME : Q := 9.10938215e-31.
Definition QE : Q := 1.602176565e-19.
Definition AMU : Q := 1.660538921e-27.
Definition EV_TO_K : Q := 11604.52.

Definition PLASMA_DEN : Q := 1e16.
Definition DX : Q := 1e-4.
Definition DT : Q := 5e-11.
Definition ELECTRON_TEMP : Q := 2.
Definition ION_TEMP : Q := 0.1.

Definition NUM_IONS : Z := 30000.
Definition NUM_ELECTRONS : Z := 80000.
Definition NC : Z := 400.

(** ** Data model *)

Record Domain : Type := mkDomain {
  ni : Z;        (* number of nodes *)
  x0 : Q;        (* initial position *)
  dx : Q;        (* cell spacing *)
  xl : Q;        (* domain length *)
  xmax : Q;      (* domain maximum position *)
  phi : list Q;  (* electric potential *)
  ef : list Q;   (* electric field *)
  rho : list Q;  (* charge density *)
  nde : list Q;  (* electron number density *)
  ndi : list Q;  (* ion number density *)
  veli : list Q; (* ion velocity *)
  vele : list Q  (* electron velocity *)
}.

Record Particle : Type := mkParticle {
  pos : Q;
  vel : Q;
  id : Z
}.

Record Species : Type := mkSpecies {
  part_list : list Particle;
  mass : Q;
  charge : Q;
  spwt : Q;
  name : string;
  NUM : Z;
  Temp : Q;
  part_id : Z
}.

(** The constructor [Species(name, mass, charge, spwt, NUM, Temp)]: an empty
    particle list and the identity counter at 0. *)
Definition new_Species (name : string) (mass charge spwt : Q) (NUM : Z)
  (Temp : Q) : Species :=
  mkSpecies [] mass charge spwt name NUM Temp 0.

Definition set_part_list (s : Species) (l : list Particle) : Species :=
  mkSpecies l (mass s) (charge s) (spwt s) (name s) (NUM s) (Temp s)
    (part_id s).

(** [Species::add]: the particle takes the next identity and goes to the
    tail of the list. *)
Definition add (s : Species) (x v : Q) : Species :=
  mkSpecies (part_list s ++ [mkParticle x v (part_id s)])
    (mass s) (charge s) (spwt s) (name s) (NUM s) (Temp s) (part_id s + 1)%Z.

(** ** Deposition and interpolation *)

(** [(int)q]: conversion of a double to int truncates toward zero. *)
Definition Qtrunc (q : Q) : Z := Z.quot (Qnum q) (Zpos (Qden q)).

Definition XtoL (d : Domain) (pos : Q) : Q :=
  let li := (pos - x0 d) / dx d in
  li.

Definition scatter (lc value : Q) (field : list Q) : res (list Q) :=
  let i := Qtrunc lc in
  let di := lc - inject_Z i in
  f_i <- rd field i ;;
  field <- wr field i (f_i + value * (1 - di)) ;;
  f_i1 <- rd field (i + 1)%Z ;;
  wr field (i + 1)%Z (f_i1 + value * di).

Definition gather (lc : Q) (field : list Q) : res Q :=
  let i := Qtrunc lc in
  let di := lc - inject_Z i in
  f_i <- rd field i ;;
  f_i1 <- rd field (i + 1)%Z ;;
  let val := f_i * (1 - di) + f_i1 * di in
  Ok val.

(** Comparisons of doubles. *)
Definition Qltb (x y : Q) : bool := negb (Qle_bool y x).
Definition Qgeb (x y : Q) : bool := Qle_bool y x.
Definition Qgtb (x y : Q) : bool := negb (Qle_bool x y).

(** Range-based [for (auto &p : l) body]. *)
Fixpoint foreach {A S : Type} (l : list A) (body : A -> S -> res S) (s : S)
  : res S :=
  match l with
  | [] => Ok s
  | p :: l' => s' <- body p s ;; foreach l' body s'
  end.

(** Range-based [for] whose body assigns through the reference [p]. *)
Fixpoint foreach_mut {A : Type} (l : list A) (body : A -> res A)
  : res (list A) :=
  match l with
  | [] => Ok []
  | p :: l' => p' <- body p ;; l'' <- foreach_mut l' body ;; Ok (p' :: l'')
  end.

(** The tail of both scatter routines: divide by the cell volume, then
    double the two boundary nodes. *)
Definition divide_by_cell_volume (d : Domain) (field : list Q)
  : res (list Q) :=
  field <- for_range 0 (ni d)
             (fun i f => f_i <- rd f i ;; wr f i (f_i / dx d)) field ;;
  f_0 <- rd field 0 ;;
  field <- wr field 0 (f_0 * 2.0) ;;
  f_n <- rd field (ni d - 1)%Z ;;
  wr field (ni d - 1)%Z (f_n * 2.0).

Definition ScatterSpecies (d : Domain) (species : Species) (field : list Q)
  : res (list Q) :=
  field <- memset0 field (ni d) ;;
  field <- foreach (part_list species)
             (fun p f =>
                let lc := XtoL d (pos p) in
                scatter lc (spwt species) f) field ;;
  divide_by_cell_volume d field.

Definition ScatterSpeciesVel (d : Domain) (species : Species)
  (field : list Q) : res (list Q) :=
  field <- memset0 field (ni d) ;;
  field <- foreach (part_list species)
             (fun p f =>
                let lc := XtoL d (pos p) in
                scatter lc (spwt species * vel p) f) field ;;
  divide_by_cell_volume d field.

(** ** Particle integrator *)

(** [list::erase(it)]: the element at [it] is unlinked; the iterator that
    is returned designates the element that followed it, which now sits at
    the same index. *)
Fixpoint erase {A : Type} (l : list A) (it : nat) : list A :=
  match l, it with
  | [], _ => []
  | _ :: t, O => t
  | h :: t, S n => h :: erase t n
  end.

(** The body of the loop of [PushSpecies] up to the boundary test: the
    particle after the velocity and position updates. *)
Definition advance (d : Domain) (qm : Q) (ef : list Q) (part : Particle)
  : res Particle :=
  let lc := XtoL d (pos part) in
  part_ef <- gather lc ef ;;
  let vel' := vel part + DT * qm * part_ef in
  let pos' := pos part + DT * vel' in
  Ok (mkParticle pos' vel' (id part)).

(** The boundary test [part.pos < domain.x0 || part.pos >= domain.xmax]. *)
Definition leaves (d : Domain) (part : Particle) : bool :=
  Qltb (pos part) (x0 d) || Qgeb (pos part) (xmax d).

(** The [while (it != part_list.end())] loop; [it] is the iterator, as an
    index into the list.  [fuel] bounds the number of iterations. *)
Fixpoint push_loop (fuel : nat) (d : Domain) (qm : Q) (ef : list Q)
  (parts : list Particle) (it : nat) : res (list Particle) :=
  match nth_error parts it with
  | None => Ok parts
  | Some part =>
      match fuel with
      | O => Fail OutOfFuel
      | S fuel' =>
          part' <- advance d qm ef part ;;
          let parts := set_at parts it part' in   (* [part] is [*it] *)
          if leaves d part'
          then push_loop fuel' d qm ef (erase parts it) it
          else push_loop fuel' d qm ef parts (S it)
      end
  end.

Definition PushSpecies (d : Domain) (species : Species) (ef : list Q)
  : res Species :=
  let qm := charge species / mass species in
  parts <- push_loop (length (part_list species)) d qm ef
             (part_list species) 0%nat ;;
  Ok (set_part_list species parts).

Definition RewindSpecies (d : Domain) (species : Species) (ef : list Q)
  : res Species :=
  let qm := charge species / mass species in
  parts <- foreach_mut (part_list species)
             (fun p =>
                let lc := XtoL d (pos p) in
                part_ef <- gather lc ef ;;
                Ok (mkParticle (pos p) (vel p - 0.5 * DT * qm * part_ef)
                      (id p))) ;;
  Ok (set_part_list species parts).

(** ** Field solver *)

Definition set_rho (d : Domain) (a : list Q) : Domain :=
  mkDomain (ni d) (x0 d) (dx d) (xl d) (xmax d) (phi d) (ef d) a (nde d)
    (ndi d) (veli d) (vele d).

(** The noise filter that follows the loop in the source is guarded by
    [if(false)] and never runs. *)
Definition ComputeRho (d : Domain) (ions electrons : Species) : res Domain :=
  rho <- memset0 (rho d) (ni d) ;;
  rho <- for_range 0 (ni d)
           (fun i rho =>
              ndi_i <- rd (ndi d) i ;;
              nde_i <- rd (nde d) i ;;
              wr rho i (charge ions * ndi_i + charge electrons * nde_i))
           rho ;;
  Ok (set_rho d rho).

(** One sweep of the relaxation solver over the interior nodes. *)
Definition sor_sweep (d : Domain) (dx2 : Q) (rho phi : list Q)
  : res (list Q) :=
  for_range 1 (ni d - 1)
    (fun i phi =>
       phi_l <- rd phi (i - 1)%Z ;;
       phi_r <- rd phi (i + 1)%Z ;;
       rho_i <- rd rho i ;;
       let g := 0.5 * (phi_l + phi_r + dx2 * rho_i / EPS) in
       phi_i <- rd phi i ;;
       wr phi i (phi_i + 1.4 * (g - phi_i)))
    phi.

(** The sum of the squared residuals accumulated by the convergence check. *)
Definition residual_sum (d : Domain) (dx2 : Q) (rho phi : list Q) : res Q :=
  for_range 1 (ni d - 1)
    (fun i sum =>
       rho_i <- rd rho i ;;
       phi_l <- rd phi (i - 1)%Z ;;
       phi_i <- rd phi i ;;
       phi_r <- rd phi (i + 1)%Z ;;
       let R := - rho_i / EPS - (phi_l - 2 * phi_i + phi_r) / dx2 in
       Ok (sum + R * R))
    0.

Section Relaxation.

(** [sqrt] of [<cmath>]. *)
Variable sqrt : Q -> Q.

Definition L2_norm (d : Domain) (dx2 : Q) (rho phi : list Q) : res Q :=
  sum <- residual_sum d dx2 rho phi ;;
  Ok (sqrt sum / inject_Z (ni d)).

(** [n] further iterations of the main loop of [SolvePotential], the
    counter being at [it]. *)
Fixpoint sor_loop (n : nat) (it : Z) (d : Domain) (dx2 : Q)
  (rho phi : list Q) : res (bool * list Q) :=
  match n with
  | O => Ok (false, phi)
  | S n' =>
      phi <- sor_sweep d dx2 rho phi ;;
      if (Z.rem it 25 =? 0)%Z
      then
        L2 <- L2_norm d dx2 rho phi ;;
        if Qltb L2 1e-4 then Ok (true, phi)
        else sor_loop n' (it + 1)%Z d dx2 rho phi
      else sor_loop n' (it + 1)%Z d dx2 rho phi
  end.

Definition SolvePotential (d : Domain) (phi rho : list Q)
  : res (bool * list Q) :=
  let dx2 := dx d * dx d in
  phi <- wr phi (ni d - 1)%Z 0 ;;
  phi <- wr phi 0 0 ;;
  sor_loop (Z.to_nat 200000) 0 d dx2 rho phi.

End Relaxation.

Section Direct.

(** The content of the three arrays obtained from [new double[ni]]. *)
Variables uninit_a uninit_b uninit_c : Z -> Q.

(** The first block of [SolvePotentialDirect]: the three diagonals are
    allocated and filled, [1, -2, 1] on the internal nodes and [0, 1, 0] on
    the two boundary nodes. *)
Definition set_coefficients (ni : Z) : res (list Q * list Q * list Q) :=
  let a := new_array uninit_a ni in
  let b := new_array uninit_b ni in
  let c := new_array uninit_c ni in
  (* central difference on internal nodes *)
  '(a, b, c) <- for_range 1 (ni - 1)
                  (fun i '(a, b, c) =>
                     a <- wr a i 1 ;;
                     b <- wr b i (-2) ;;
                     c <- wr c i 1 ;;
                     Ok (a, b, c))
                  (a, b, c) ;;
  (* Dirichlet boundary conditions *)
  a <- wr a 0 0 ;; b <- wr b 0 1 ;; c <- wr c 0 0 ;;
  a <- wr a (ni - 1)%Z 0 ;;
  b <- wr b (ni - 1)%Z 1 ;;
  c <- wr c (ni - 1)%Z 0 ;;
  Ok (a, b, c).

(** The forward pass of the elimination. *)
Definition forward_pass (ni : Z) (a b c x : list Q)
  : res (list Q * list Q) :=
  c_0 <- rd c 0 ;;
  b_0 <- rd b 0 ;;
  c <- wr c 0 (c_0 / b_0) ;;
  x_0 <- rd x 0 ;;
  x <- wr x 0 (x_0 / b_0) ;;
  for_range 1 ni
    (fun i '(c, x) =>
       b_i <- rd b i ;;
       c_p <- rd c (i - 1)%Z ;;
       a_i <- rd a i ;;
       let id := b_i - c_p * a_i in
       c_i <- rd c i ;;
       c <- wr c i (c_i / id) ;;
       x_i <- rd x i ;;
       x_p <- rd x (i - 1)%Z ;;
       x <- wr x i ((x_i - x_p * a_i) / id) ;;
       Ok (c, x))
    (c, x).

(** The back substitution. *)
Definition back_substitute (ni : Z) (c x : list Q) : res (list Q) :=
  for_range_down (ni - 2) 0
    (fun i x =>
       x_i <- rd x i ;;
       c_i <- rd c i ;;
       x_n <- rd x (i + 1)%Z ;;
       wr x i (x_i - c_i * x_n))
    x.

Definition SolvePotentialDirect (d : Domain) (x rho : list Q)
  : res (bool * list Q) :=
  let ni := ni d in
  let dx2 := dx d * dx d in
  '(a, b, c) <- set_coefficients ni ;;
  (* right-hand side *)
  x <- for_range 1 (ni - 1)
         (fun i x => rho_i <- rd rho i ;; wr x i (- rho_i * dx2 / EPS)) x ;;
  x <- wr x 0 0 ;;
  x <- wr x (ni - 1)%Z 0 ;;
  '(c, x) <- forward_pass ni a b c x ;;
  x <- back_substitute ni c x ;;
  Ok (true, x).

End Direct.

Definition ComputeEF (d : Domain) (phi ef : list Q) : res (list Q) :=
  (* central difference on the inner nodes *)
  ef <- for_range 1 (ni d - 1)
          (fun i ef =>
             phi_r <- rd phi (i + 1)%Z ;;
             phi_l <- rd phi (i - 1)%Z ;;
             wr ef i (- (phi_r - phi_l) / (2 * dx d)))
          ef ;;
  (* one sided difference at the boundary nodes *)
  phi_1 <- rd phi 1 ;;
  phi_0 <- rd phi 0 ;;
  ef <- wr ef 0 (- (phi_1 - phi_0) / dx d) ;;
  phi_n <- rd phi (ni d - 1)%Z ;;
  phi_m <- rd phi (ni d - 2)%Z ;;
  wr ef (ni d - 1)%Z (- (phi_n - phi_m) / dx d).

(** ** Energy diagnostic *)

Definition ComputeKE (species : Species) : Q :=
  let ke := fold_left (fun ke p => ke + vel p * vel p) (part_list species) 0 in
  let ke := ke + 0.5 * (spwt species * mass species) in
  ke / QE.

(** ** Sampler and driver *)

(** [n] iterations of a body that cannot fault. *)
Fixpoint iter_up {S : Type} (n : nat) (i : Z) (body : Z -> S -> S) (s : S)
  : S :=
  match n with
  | O => s
  | S n' => iter_up n' (i + 1)%Z body (body i s)
  end.

(** [for (int p = lo; p < hi; p++) body]. *)
Definition iter_range {S : Type} (lo hi : Z) (body : Z -> S -> S) (s : S)
  : S :=
  iter_up (Z.to_nat (hi - lo)) lo body s.

(** What the program writes at a diagnostic step: the line printed on the
    terminal, the line of [ke.dat] and the block of [results.dat]. *)
Record Diag : Type := mkDiag {
  diag_ts : Z;
  diag_delta_phi : Q;
  diag_time : Q;
  diag_ke_ions : Q;
  diag_ke_electrons : Q;
  diag_rows : list (list Q)
}.

(** The variables of [main] that are live across the main loop. *)
Record Sim : Type := mkSim {
  domain : Domain;
  ions : Species;
  electrons : Species;
  Time : Q;
  output : list Diag
}.

Definition set_fields (d : Domain) (phi ef nde ndi veli vele : list Q)
  : Domain :=
  mkDomain (ni d) (x0 d) (dx d) (xl d) (xmax d) phi ef (rho d) nde ndi veli
    vele.

(** The block of [results.dat] written by [Write_ts]. *)
Definition Write_ts (d : Domain) : res (list (list Q)) :=
  for_range 0 (ni d)
    (fun i rows =>
       ndi_i <- rd (ndi d) i ;;
       nde_i <- rd (nde d) i ;;
       rho_i <- rd (rho d) i ;;
       veli_i <- rd (veli d) i ;;
       vele_i <- rd (vele d) i ;;
       phi_i <- rd (phi d) i ;;
       ef_i <- rd (ef d) i ;;
       Ok (rows ++ [[inject_Z i * dx d; ndi_i; nde_i; rho_i; veli_i; vele_i;
                     phi_i; ef_i]]))
    [].

(** The domain as [main] constructs it: the seven arrays are allocated with
    [ni] cells and cleared. *)
Definition make_domain (ni : Z) (dx x0 : Q) : Domain :=
  let xl := inject_Z (ni - 1) * dx in
  let xmax := x0 + xl in
  let zeros := repeat 0 (Z.to_nat ni) in
  mkDomain ni x0 dx xl xmax zeros zeros zeros zeros zeros zeros zeros.

Section Driver.

(** The state of [std::mt19937], its constructor from a seed, and one
    draw of [rnd_dist(mt_gen)], which returns the deviate and advances
    the state. *)
Variable rng : Type.
Variable mt19937 : Z -> rng.
Variable rnd_dist : rng -> Q * rng.

Variable sqrt : Q -> Q.
Variables uninit_a uninit_b uninit_c : Z -> Q.

Definition mt_gen : rng := mt19937 0.

Definition rnd (g : rng) : Q * rng := rnd_dist g.

(** The three deviates are added up, so the order in which the operands of
    [rnd()+rnd()+rnd()] are evaluated does not show over exact arithmetic;
    they are drawn from left to right here. *)
Definition SampleVel (T mass : Q) (g : rng) : Q * rng :=
  let v_th := sqrt (2 * K * T / mass) in
  let '(r1, g) := rnd g in
  let '(r2, g) := rnd g in
  let '(r3, g) := rnd g in
  (v_th * sqrt 2 * (r1 + r2 + r3 - 1.5), g).

(** The body of the loop of [Init]: one particle is sampled and added. *)
Definition Init_body (d : Domain) (st : Species * rng) : Species * rng :=
  let '(species, g) := st in
  let '(r, g) := rnd g in
  let x := x0 d + r * inject_Z (ni d - 1) * dx d in
  let '(v, g) := SampleVel (Temp species * EV_TO_K) (mass species) g in
  (add species x v, g).

Definition Init (d : Domain) (species : Species) (g : rng)
  : Species * rng :=
  iter_range 0 NUM_IONS (fun _ => Init_body d) (species, g).

(** [main] up to the main loop. *)
Definition main_setup : res Sim :=
  let d := make_domain (NC + 1) DX 0 in
  let ion_spwt := PLASMA_DEN * xl d / inject_Z NUM_IONS in
  let electron_spwt := PLASMA_DEN * xl d / inject_Z NUM_ELECTRONS in
  let sp_i := new_Species "Ar+ Ions" (40 * AMU) QE ion_spwt NUM_IONS
                ION_TEMP in
  let sp_e := new_Species "Electrons" ME (- QE) electron_spwt
                NUM_ELECTRONS ELECTRON_TEMP in
  let '(sp_i, g) := Init d sp_i mt_gen in
  let '(sp_e, g) := Init d sp_e g in
  a_ndi <- ScatterSpecies d sp_i (ndi d) ;;
  a_nde <- ScatterSpecies d sp_e (nde d) ;;
  let d := set_fields d (phi d) (ef d) a_nde a_ndi (veli d) (vele d) in
  d <- ComputeRho d sp_i sp_e ;;
  '(_, a_phi) <- SolvePotential sqrt d (phi d) (rho d) ;;
  a_ef <- ComputeEF d a_phi (ef d) ;;
  let d := set_fields d a_phi a_ef (nde d) (ndi d) (veli d) (vele d) in
  sp_i <- RewindSpecies d sp_i a_ef ;;
  sp_e <- RewindSpecies d sp_e a_ef ;;
  Ok (mkSim d sp_i sp_e 0 []).

(** The largest potential, as searched by the diagnostic block. *)
Definition max_phi (d : Domain) : res Q :=
  phi_0 <- rd (phi d) 0 ;;
  for_range 0 (ni d)
    (fun i m => phi_i <- rd (phi d) i ;;
                Ok (if Qgtb phi_i m then phi_i else m))
    phi_0.

(** One iteration of the main loop, for the time step [ts]. *)
Definition main_step (ts : Z) (s : Sim) : res Sim :=
  let d := domain s in
  a_ndi <- ScatterSpecies d (ions s) (ndi d) ;;
  a_nde <- ScatterSpecies d (electrons s) (nde d) ;;
  a_veli <- ScatterSpeciesVel d (ions s) (veli d) ;;
  a_vele <- ScatterSpeciesVel d (electrons s) (vele d) ;;
  let d := set_fields d (phi d) (ef d) a_nde a_ndi a_veli a_vele in
  d <- ComputeRho d (ions s) (electrons s) ;;
  '(_, a_phi) <- SolvePotentialDirect uninit_a uninit_b uninit_c d (phi d)
                   (rho d) ;;
  a_ef <- ComputeEF d a_phi (ef d) ;;
  let d := set_fields d a_phi a_ef (nde d) (ndi d) (veli d) (vele d) in
  sp_i <- PushSpecies d (ions s) a_ef ;;
  sp_e <- PushSpecies d (electrons s) a_ef ;;
  out <- (if (Z.rem ts 200 =? 0)%Z
          then
            m <- max_phi d ;;
            phi_0 <- rd (phi d) 0 ;;
            rows <- Write_ts d ;;
            Ok (output s ++
                [mkDiag ts (m - phi_0) (Time s) (ComputeKE sp_i)
                   (ComputeKE sp_e) rows])
          else Ok (output s)) ;;
  Ok (mkSim d sp_i sp_e (Time s + DT) out).

(** The simulation after [n] iterations of the main loop. *)
Definition run (n : nat) : res Sim :=
  s <- main_setup ;;
  for_up n 0 main_step s.


End Driver.


(** ** Vocabulary of the statements *)

(** The value of cell [i] of an array whose extent contains [i]. *)
Definition get (a : list Q) (i : Z) : Q := nth (Z.to_nat i) a 0.

(** The domain is laid out as [main] lays it out, with a positive spacing. *)
Definition wf_domain (d : Domain) : Prop :=
  0 < dx d /\
  xl d == inject_Z (ni d - 1) * dx d /\
  xmax d == x0 d + xl d.

(** The position [x] lies in [[x0, xmax)]. *)
Definition inside (d : Domain) (x : Q) : Prop := x0 d <= x /\ x < xmax d.

(** The field after [scatter lc value field], when it returns. *)
Definition scattered (lc value : Q) (field : list Q) : list Q :=
  let i := Qtrunc lc in
  let di := lc - inject_Z i in
  set_at (set_at field (Z.to_nat i) (get field i + value * (1 - di)))
    (Z.to_nat (i + 1)) (get field (i + 1) + value * di).

(** The value [ComputeEF] leaves in node [i], read off the potential. *)
Definition ef_of (d : Domain) (phi : list Q) (i : Z) : Q :=
  if (i =? 0)%Z then - (get phi 1 - get phi 0) / dx d
  else if (i =? ni d - 1)%Z
       then - (get phi (ni d - 1) - get phi (ni d - 2)) / dx d
       else - (get phi (i + 1) - get phi (i - 1)) / (2 * dx d).

(** The field interpolated at the position [x], read off the array. *)
Definition field_at (d : Domain) (ef : list Q) (x : Q) : Q :=
  let lc := XtoL d x in
  let i := Qtrunc lc in
  let di := lc - inject_Z i in
  get ef i * (1 - di) + get ef (i + 1) * di.

(** The particle [part] after one velocity update followed by one position
    update. *)
Definition advanced (d : Domain) (qm : Q) (ef : list Q) (part : Particle)
  : Particle :=
  let vel' := vel part + DT * qm * field_at d ef (pos part) in
  mkParticle (pos part + DT * vel') vel' (id part).

(** The particle is kept by the boundary test. *)
Definition stays (d : Domain) (part : Particle) : bool := negb (leaves d part).

(** The three diagonals of the system solved by [SolvePotentialDirect]. *)
Definition boundary_node (ni i : Z) : bool := ((i =? 0) || (i =? ni - 1))%Z.
Definition a_of (ni i : Z) : Q := if boundary_node ni i then 0 else 1.
Definition b_of (ni i : Z) : Q := if boundary_node ni i then 1 else -2.
Definition c_of (ni i : Z) : Q := if boundary_node ni i then 0 else 1.

(** The generator after [k] draws, and the deviate of draw number [k]. *)
Fixpoint rng_after {rng : Type} (rnd_dist : rng -> Q * rng) (g : rng)
  (k : nat) : rng :=
  match k with
  | O => g
  | S k' => rng_after rnd_dist (snd (rnd_dist g)) k'
  end.

Definition draw {rng : Type} (rnd_dist : rng -> Q * rng) (g : rng) (k : nat)
  : Q :=
  fst (rnd_dist (rng_after rnd_dist g k)).

(** Two generators, maybe of different implementations, that deliver the
    same sequence of deviates. *)
Definition same_stream {rng1 rng2 : Type} (rnd1 : rng1 -> Q * rng1)
  (g1 : rng1) (rnd2 : rng2 -> Q * rng2) (g2 : rng2) : Prop :=
  forall k, draw rnd1 g1 k = draw rnd2 g2 k.

(** The deposition rule in the words of the specification: a particle at
    [x] carrying [w] has the logical coordinate [lc = (x - x0)/dx]; with
    [i = floor(lc)] and [di = lc - i] it adds [w*(1-di)] to node [i] and
    [w*di] to node [i+1].  [deposit] is what it adds to node [j]. *)
Definition deposit (d : Domain) (w x : Q) (j : Z) : Q :=
  let lc := (x - x0 d) / dx d in
  let i := Qfloor lc in
  let di := lc - inject_Z i in
  (if (j =? i)%Z then w * (1 - di) else 0)
  + (if (j =? i + 1)%Z then w * di else 0).

(** The sum over the particles of what each adds to node [j], the particle
    [p] carrying [w p]. *)
Definition accumulated (d : Domain) (w : Particle -> Q)
  (parts : list Particle) (j : Z) : Q :=
  fold_right (fun p acc => deposit d (w p) (pos p) j + acc) 0 parts.

(** The snapshot of the specification at node [j]: the accumulated sum
    divided by [dx], doubled at the nodes [0] and [ni-1]. *)
Definition snapshot (d : Domain) (w : Particle -> Q) (parts : list Particle)
  (j : Z) : Q :=
  let v := accumulated d w parts j / dx d in
  if ((j =? 0) || (j =? ni d - 1))%Z then v * 2 else v.

(** [k] sweeps of the relaxation solver in a row. *)
Fixpoint sweeps (k : nat) (d : Domain) (dx2 : Q) (rho phi : list Q)
  : res (list Q) :=
  match k with
  | O => Ok phi
  | S k' => phi <- sor_sweep d dx2 rho phi ;; sweeps k' d dx2 rho phi
  end.

(** The potential after one sweep and after [k] sweeps, and the residual
    norm of a potential, as plain values (the array is left as it is, the
    norm is 0, should the computation fault). *)
Definition sweep_total (d : Domain) (dx2 : Q) (rho phi : list Q) : list Q :=
  match sor_sweep d dx2 rho phi with
  | Ok l => l
  | Fail _ => phi
  end.

Fixpoint after_sweeps (k : nat) (d : Domain) (dx2 : Q) (rho phi : list Q)
  : list Q :=
  match k with
  | O => phi
  | S k' => after_sweeps k' d dx2 rho (sweep_total d dx2 rho phi)
  end.

Definition norm_total (sqrt : Q -> Q) (d : Domain) (dx2 : Q)
  (rho phi : list Q) : Q :=
  match L2_norm sqrt d dx2 rho phi with
  | Ok v => v
  | Fail _ => 0
  end.

(** The right-hand side built by [SolvePotentialDirect]. *)
Definition rhs_of (d : Domain) (rho : list Q) (i : Z) : Q :=
  if boundary_node (ni d) i then 0
  else - get rho i * (dx d * dx d) / EPS.

(** The two nodes addressed from the logical coordinate [lc] exist in the
    array [field]. *)
Definition addressable (field : list Q) (lc : Q) : Prop :=
  (0 <= Qtrunc lc)%Z /\ (Qtrunc lc + 1 < len field)%Z.

(** The sum of [g j] over the nodes [j = 0, ..., n-1]. *)
Fixpoint sum_nodes (n : nat) (g : Z -> Q) : Q :=
  match n with
  | O => 0
  | S n' => sum_nodes n' g + g (Z.of_nat n')
  end.

(** The integral of a node field over the domain by the trapezoid rule:
    every node stands for a cell of width [dx], the two boundary nodes for
    half a cell. *)
Definition trapezoid (d : Domain) (field : list Q) : Q :=
  sum_nodes (Z.to_nat (ni d))
    (fun j => get field j * dx d
              * (if boundary_node (ni d) j then 1 # 2 else 1)).

(** The sum of the weights carried by the particles. *)
Definition total_weight (w : Particle -> Q) (parts : list Particle) : Q :=
  fold_right (fun p acc => w p + acc) 0 parts.

(** The grid is laid out as [main] lays it out, it has at least one cell,
    and its seven node arrays have [ni] nodes. *)
Definition grid_ok (d : Domain) : Prop :=
  wf_domain d /\ (2 <= ni d)%Z /\
  len (phi d) = ni d /\ len (ef d) = ni d /\ len (rho d) = ni d /\
  len (nde d) = ni d /\ len (ndi d) = ni d /\
  len (veli d) = ni d /\ len (vele d) = ni d.

(** The state of the simulation is sound: the grid is, and every particle
    of the two populations lies in [[x0, xmax)]. *)
Definition sim_ok (s : Sim) : Prop :=
  grid_ok (domain s) /\
  Forall (fun p => inside (domain s) (pos p)) (part_list (ions s)) /\
  Forall (fun p => inside (domain s) (pos p)) (part_list (electrons s)).

(** The steps among [0, ..., n-1] at which the diagnostics are written. *)
Definition diagnostic_steps (n : nat) : list Z :=
  filter (fun ts => (Z.rem ts 200 =? 0)%Z) (map Z.of_nat (seq 0 n)).

(** The residual of the discrete Poisson equation at node [i], in the
    words of the specification:
    [R[i] = -rho[i]/EPS - (phi[i-1] - 2*phi[i] + phi[i+1])/dx^2]. *)
Definition residual (d : Domain) (rho phi : list Q) (i : Z) : Q :=
  - get rho i / EPS
  - (get phi (i - 1) - 2 * get phi i + get phi (i + 1)) / (dx d * dx d).

(** The normalized residual norm of the specification: the square root of
    the sum of [R[i]^2] over the interior nodes [0 < i < ni-1], divided by
    [ni]. *)
Definition residual_norm (sqrt : Q -> Q) (d : Domain) (rho phi : list Q)
  : Q :=
  sqrt (sum_nodes (Z.to_nat (ni d - 2))
          (fun k => residual d rho phi (k + 1) * residual d rho phi (k + 1)))
  / inject_Z (ni d).

(** One successive over-relaxation sweep with relaxation factor 1.4, in
    the words of the specification: the two boundary nodes keep their
    value; every interior node, from left to right, moves from its old
    value toward [g = (left + right + dx^2*rho/EPS)/2] by 1.4 times the
    distance, the left neighbour being already updated and the right one
    not yet. *)
Definition sor_step (d : Domain) (rho old new : list Q) : Prop :=
  len new = len old /\
  forall i, (0 <= i < ni d)%Z ->
            get new i
            = if boundary_node (ni d) i then get old i
              else
                let g := 0.5 * (get new (i - 1) + get old (i + 1)
                                + dx d * dx d * get rho i / EPS) in
                get old i + 1.4 * (g - get old i).

(** * Verification *)

(** ** The error monad *)

Lemma bind_Ok {A B : Type} (m : res A) (k : A -> res B) (b : B) :
  bind m k = Ok b -> exists a, m = Ok a /\ k a = Ok b.
Proof.
  destruct m as [a|f]; simpl; intros H; [eauto | discriminate].
Qed.

(** ** Arrays *)

Lemma set_at_length {A : Type} (l : list A) (n : nat) (v : A) :
  length (set_at l n v) = length l.
Proof.
  revert n; induction l as [|h t IH]; intros [|n]; simpl; auto.
Qed.

Lemma nth_set_at_eq {A : Type} (l : list A) (n : nat) (v dflt : A) :
  (n < length l)%nat -> nth n (set_at l n v) dflt = v.
Proof.
  revert n; induction l as [|h t IH]; intros [|n]; simpl; intros H;
    try lia; auto.
  apply IH; lia.
Qed.

Lemma nth_set_at_ne {A : Type} (l : list A) (n m : nat) (v dflt : A) :
  n <> m -> nth m (set_at l n v) dflt = nth m l dflt.
Proof.
  revert n m; induction l as [|h t IH]; intros [|n] [|m]; simpl; intros H;
    try congruence; auto.
Qed.

Lemma len_nonneg (a : list Q) : (0 <= len a)%Z.
Proof. unfold len; lia. Qed.

Lemma rd_get (a : list Q) (i : Z) :
  (0 <= i < len a)%Z -> rd a i = Ok (get a i).
Proof.
  unfold rd, get, len; intros H.
  destruct (Z.ltb_spec i 0); [lia|].
  destruct (nth_error a (Z.to_nat i)) as [v|] eqn:E.
  - now rewrite (nth_error_nth _ _ _ E).
  - apply nth_error_None in E; lia.
Qed.

Lemma rd_Ok (a : list Q) (i : Z) (v : Q) :
  rd a i = Ok v -> (0 <= i < len a)%Z /\ v = get a i.
Proof.
  unfold rd, get, len; intros H.
  destruct (Z.ltb_spec i 0); [discriminate|].
  destruct (nth_error a (Z.to_nat i)) as [w|] eqn:E; [|discriminate].
  injection H as <-. split.
  - assert (Z.to_nat i < length a)%nat by (apply nth_error_Some; congruence).
    lia.
  - now rewrite (nth_error_nth _ _ _ E).
Qed.

Lemma rd_fault (a : list Q) (i : Z) :
  ~ (0 <= i < len a)%Z -> rd a i = Fail OutOfBounds.
Proof.
  intros H. destruct (rd a i) as [v|[|]] eqn:E; auto.
  - apply rd_Ok in E; tauto.
  - unfold rd in E. destruct (i <? 0)%Z; [discriminate|].
    destruct (nth_error a (Z.to_nat i)); discriminate.
Qed.

Lemma wr_set (a : list Q) (i : Z) (v : Q) :
  (0 <= i < len a)%Z -> wr a i v = Ok (set_at a (Z.to_nat i) v).
Proof.
  unfold wr; intros H.
  destruct (Z.leb_spec 0 i); [|lia].
  destruct (Z.ltb_spec i (len a)); [|lia]. reflexivity.
Qed.

Lemma wr_Ok (a : list Q) (i : Z) (v : Q) (a' : list Q) :
  wr a i v = Ok a' -> (0 <= i < len a)%Z /\ a' = set_at a (Z.to_nat i) v.
Proof.
  unfold wr; intros H.
  destruct (Z.leb_spec 0 i); simpl in H; [|discriminate].
  destruct (Z.ltb_spec i (len a)); [|discriminate].
  injection H as <-. split; [lia | reflexivity].
Qed.

Lemma wr_fault (a : list Q) (i : Z) (v : Q) :
  ~ (0 <= i < len a)%Z -> wr a i v = Fail OutOfBounds.
Proof.
  intros H. unfold wr.
  destruct (Z.leb_spec 0 i); simpl; auto.
  destruct (Z.ltb_spec i (len a)); auto. lia.
Qed.

Lemma len_set_at (a : list Q) (n : nat) (v : Q) : len (set_at a n v) = len a.
Proof. unfold len; now rewrite set_at_length. Qed.

Lemma get_set_at_eq (a : list Q) (i : Z) (v : Q) :
  (0 <= i < len a)%Z -> get (set_at a (Z.to_nat i) v) i = v.
Proof.
  unfold get, len; intros H. apply nth_set_at_eq; lia.
Qed.

Lemma get_set_at_ne (a : list Q) (i j : Z) (v : Q) :
  (0 <= i)%Z -> (0 <= j)%Z -> i <> j ->
  get (set_at a (Z.to_nat i) v) j = get a j.
Proof.
  unfold get; intros Hi Hj H. apply nth_set_at_ne; lia.
Qed.

Lemma len_repeat (v : Q) (n : Z) :
  (0 <= n)%Z -> len (repeat v (Z.to_nat n)) = n.
Proof. unfold len; rewrite repeat_length; lia. Qed.

Lemma get_repeat (v : Q) (n : nat) (j : Z) :
  (0 <= j < Z.of_nat n)%Z -> get (repeat v n) j = v.
Proof.
  unfold get; intros H. apply nth_repeat_lt. lia.
Qed.

(** Runs the array accesses at the head of a monadic computation whose
    indices are in range. *)
Ltac arr_lia := rewrite ?len_set_at; lia.
Ltac mstep :=
  repeat (first [ rewrite rd_get by arr_lia | rewrite wr_set by arr_lia ];
          cbn [bind]).

(** ** Counted loops: invariant rules *)

Lemma for_up_inv {T : Type} (I : Z -> T -> Prop) (body : Z -> T -> res T) :
  forall (n : nat) (i : Z) (s : T),
    I i s ->
    (forall j t, (i <= j < i + Z.of_nat n)%Z -> I j t ->
                 exists t', body j t = Ok t' /\ I (j + 1)%Z t') ->
    exists s', for_up n i body s = Ok s' /\ I (i + Z.of_nat n)%Z s'.
Proof.
  induction n as [|n IH]; intros i s H0 Hstep.
  - exists s; split; [reflexivity|]. now replace (i + Z.of_nat 0)%Z with i by lia.
  - destruct (Hstep i s) as (t & Hb & Ht); [lia | assumption |].
    destruct (IH (i + 1)%Z t Ht) as (s' & Hs' & HI).
    + intros j u Hj Hu. apply Hstep; [lia | assumption].
    + exists s'; split.
      * simpl. rewrite Hb. exact Hs'.
      * now replace (i + Z.of_nat (S n))%Z with (i + 1 + Z.of_nat n)%Z by lia.
Qed.

Lemma for_range_inv {T : Type} (I : Z -> T -> Prop) (body : Z -> T -> res T)
  (lo hi : Z) (s : T) :
  (lo <= hi)%Z ->
  I lo s ->
  (forall j t, (lo <= j < hi)%Z -> I j t ->
               exists t', body j t = Ok t' /\ I (j + 1)%Z t') ->
  exists s', for_range lo hi body s = Ok s' /\ I hi s'.
Proof.
  intros Hle H0 Hstep. unfold for_range.
  destruct (for_up_inv I body (Z.to_nat (hi - lo)) lo s H0) as (s' & E & HI).
  - intros j t Hj. apply Hstep; lia.
  - exists s'; split; [exact E|].
    replace (lo + Z.of_nat (Z.to_nat (hi - lo)))%Z with hi in HI by lia.
    exact HI.
Qed.

Lemma for_range_empty {T : Type} (body : Z -> T -> res T) (lo hi : Z) (s : T) :
  (hi <= lo)%Z -> for_range lo hi body s = Ok s.
Proof.
  intros H. unfold for_range.
  replace (Z.to_nat (hi - lo)) with 0%nat by lia. reflexivity.
Qed.

Lemma for_down_inv {T : Type} (I : Z -> T -> Prop) (body : Z -> T -> res T) :
  forall (n : nat) (i : Z) (s : T),
    I i s ->
    (forall j t, (i - Z.of_nat n < j <= i)%Z -> I j t ->
                 exists t', body j t = Ok t' /\ I (j - 1)%Z t') ->
    exists s', for_down n i body s = Ok s' /\ I (i - Z.of_nat n)%Z s'.
Proof.
  induction n as [|n IH]; intros i s H0 Hstep.
  - exists s; split; [reflexivity|]. now replace (i - Z.of_nat 0)%Z with i by lia.
  - destruct (Hstep i s) as (t & Hb & Ht); [lia | assumption |].
    destruct (IH (i - 1)%Z t Ht) as (s' & Hs' & HI).
    + intros j u Hj Hu. apply Hstep; [lia | assumption].
    + exists s'; split.
      * simpl. rewrite Hb. exact Hs'.
      * now replace (i - Z.of_nat (S n))%Z with (i - 1 - Z.of_nat n)%Z by lia.
Qed.

Lemma for_range_down_inv {T : Type} (I : Z -> T -> Prop)
  (body : Z -> T -> res T) (hi lo : Z) (s : T) :
  (lo - 1 <= hi)%Z ->
  I hi s ->
  (forall j t, (lo <= j <= hi)%Z -> I j t ->
               exists t', body j t = Ok t' /\ I (j - 1)%Z t') ->
  exists s', for_range_down hi lo body s = Ok s' /\ I (lo - 1)%Z s'.
Proof.
  intros Hle H0 Hstep. unfold for_range_down.
  destruct (for_down_inv I body (Z.to_nat (hi - lo + 1)) hi s H0)
    as (s' & E & HI).
  - intros j t Hj. apply Hstep; lia.
  - exists s'; split; [exact E|].
    replace (hi - Z.of_nat (Z.to_nat (hi - lo + 1)))%Z with (lo - 1)%Z in HI
      by lia.
    exact HI.
Qed.

(** Partial correctness: what a loop that returned has established. *)
Lemma for_up_post {T : Type} (I : Z -> T -> Prop) (body : Z -> T -> res T) :
  forall (n : nat) (i : Z) (s s' : T),
    I i s ->
    (forall j t t', (i <= j < i + Z.of_nat n)%Z -> I j t ->
                    body j t = Ok t' -> I (j + 1)%Z t') ->
    for_up n i body s = Ok s' -> I (i + Z.of_nat n)%Z s'.
Proof.
  induction n as [|n IH]; intros i s s' H0 Hstep E; simpl in E.
  - injection E as <-. now replace (i + Z.of_nat 0)%Z with i by lia.
  - apply bind_Ok in E. destruct E as (t & Hb & E).
    replace (i + Z.of_nat (S n))%Z with (i + 1 + Z.of_nat n)%Z by lia.
    apply (IH (i + 1)%Z t s'); auto.
    + apply (Hstep i s t); auto; lia.
    + intros j u u' Hj. apply Hstep; lia.
Qed.

(** ** Truncation *)

Lemma Qtrunc_floor (q : Q) : 0 <= q -> Qtrunc q = Qfloor q.
Proof.
  destruct q as [n dn]. unfold Qle, Qtrunc, Qfloor; simpl. intros H.
  apply Z.quot_div_nonneg; lia.
Qed.

Lemma Qtrunc_bounds (q : Q) :
  0 <= q -> inject_Z (Qtrunc q) <= q /\ q < inject_Z (Qtrunc q + 1).
Proof.
  intros H. rewrite (Qtrunc_floor q H). split.
  - apply Qfloor_le.
  - apply Qlt_floor.
Qed.

Lemma Qtrunc_nonneg (q : Q) : 0 <= q -> (0 <= Qtrunc q)%Z.
Proof.
  intros H. rewrite (Qtrunc_floor q H).
  change 0%Z with (Qfloor 0). now apply Qfloor_resp_le.
Qed.

Lemma Qtrunc_below (q : Q) (n : Z) :
  0 <= q -> q < inject_Z n -> (Qtrunc q < n)%Z.
Proof.
  intros H0 Hn. destruct (Qtrunc_bounds q H0) as [Hlo _].
  assert (Hlt : inject_Z (Qtrunc q) < inject_Z n)
    by (eapply Qle_lt_trans; eassumption).
  now rewrite <- Zlt_Qlt in Hlt.
Qed.

Lemma Qtrunc_split (i : Z) (di : Q) :
  (0 <= i)%Z -> 0 <= di -> di < 1 -> Qtrunc (inject_Z i + di) = i.
Proof.
  intros Hi H0 H1.
  assert (Hi' : 0 <= inject_Z i) by (unfold Qle; simpl; lia).
  assert (Hq : 0 <= inject_Z i + di) by lra.
  destruct (Qtrunc_bounds _ Hq) as [Hlo Hhi].
  set (k := Qtrunc (inject_Z i + di)) in *.
  rewrite inject_Z_plus in Hhi. change (inject_Z 1) with 1 in Hhi.
  assert (A : inject_Z k < inject_Z (i + 1)).
  { rewrite inject_Z_plus. change (inject_Z 1) with 1. lra. }
  assert (B : inject_Z i < inject_Z (k + 1)).
  { rewrite inject_Z_plus. change (inject_Z 1) with 1. lra. }
  rewrite <- Zlt_Qlt in A, B. lia.
Qed.

(** ** Scatter and gather *)

Lemma scatter_ok (lc value : Q) (field : list Q) :
  (0 <= Qtrunc lc)%Z -> (Qtrunc lc + 1 < len field)%Z ->
  scatter lc value field = Ok (scattered lc value field).
Proof.
  intros Hlo Hhi. unfold scatter, scattered.
  rewrite rd_get by lia. simpl.
  rewrite wr_set by lia. simpl.
  rewrite rd_get by (rewrite len_set_at; lia). simpl.
  rewrite wr_set by (rewrite len_set_at; lia).
  rewrite get_set_at_ne by lia. reflexivity.
Qed.

Lemma scatter_Ok (lc value : Q) (field f' : list Q) :
  scatter lc value field = Ok f' ->
  (0 <= Qtrunc lc)%Z /\ (Qtrunc lc + 1 < len field)%Z.
Proof.
  unfold scatter. intros H.
  apply bind_Ok in H. destruct H as (v & Hr & H).
  apply rd_Ok in Hr.
  apply bind_Ok in H. destruct H as (f1 & Hw & H).
  apply wr_Ok in Hw. destruct Hw as [_ ->].
  apply bind_Ok in H. destruct H as (v1 & Hr1 & H).
  apply rd_Ok in Hr1. rewrite len_set_at in Hr1. lia.
Qed.

Lemma len_scattered (lc value : Q) (field : list Q) :
  len (scattered lc value field) = len field.
Proof. unfold scattered. now rewrite !len_set_at. Qed.

Lemma get_scattered (lc value : Q) (field : list Q) (j : Z) :
  (0 <= Qtrunc lc)%Z -> (Qtrunc lc + 1 < len field)%Z -> (0 <= j)%Z ->
  get (scattered lc value field) j =
  if (j =? Qtrunc lc)%Z
  then get field j + value * (1 - (lc - inject_Z (Qtrunc lc)))
  else if (j =? Qtrunc lc + 1)%Z
       then get field j + value * (lc - inject_Z (Qtrunc lc))
       else get field j.
Proof.
  intros Hlo Hhi Hj. unfold scattered.
  destruct (Z.eqb_spec j (Qtrunc lc)) as [->|N1].
  - rewrite get_set_at_ne by lia. now rewrite get_set_at_eq by lia.
  - destruct (Z.eqb_spec j (Qtrunc lc + 1)) as [->|N2].
    + now rewrite get_set_at_eq by (rewrite len_set_at; lia).
    + rewrite get_set_at_ne by lia. now rewrite get_set_at_ne by lia.
Qed.

Lemma gather_ok (lc : Q) (field : list Q) :
  (0 <= Qtrunc lc)%Z -> (Qtrunc lc + 1 < len field)%Z ->
  gather lc field =
  Ok (get field (Qtrunc lc) * (1 - (lc - inject_Z (Qtrunc lc)))
      + get field (Qtrunc lc + 1) * (lc - inject_Z (Qtrunc lc))).
Proof.
  intros Hlo Hhi. unfold gather.
  rewrite rd_get by lia. simpl. rewrite rd_get by lia. reflexivity.
Qed.

Lemma gather_Ok (lc : Q) (field : list Q) (v : Q) :
  gather lc field = Ok v ->
  (0 <= Qtrunc lc)%Z /\ (Qtrunc lc + 1 < len field)%Z.
Proof.
  unfold gather. intros H.
  apply bind_Ok in H. destruct H as (a & Hr & H). apply rd_Ok in Hr.
  apply bind_Ok in H. destruct H as (b & Hr1 & H). apply rd_Ok in Hr1.
  lia.
Qed.

(** A position of the domain has its logical coordinate in [[0, ni-1)]. *)
Lemma XtoL_range (d : Domain) (x : Q) :
  wf_domain d -> inside d x ->
  0 <= XtoL d x /\ XtoL d x < inject_Z (ni d - 1).
Proof.
  intros (Hdx & Hxl & Hmax) [Hlo Hhi]. unfold XtoL.
  rewrite Hmax, Hxl in Hhi.
  split.
  - apply Qle_shift_div_l; [exact Hdx | lra].
  - apply Qlt_shift_div_r; [exact Hdx | lra].
Qed.

Lemma XtoL_index (d : Domain) (x : Q) :
  wf_domain d -> inside d x ->
  (0 <= Qtrunc (XtoL d x))%Z /\ (Qtrunc (XtoL d x) + 1 <= ni d - 1)%Z.
Proof.
  intros Hwf Hin. destruct (XtoL_range d x Hwf Hin) as [H0 H1]. split.
  - now apply Qtrunc_nonneg.
  - pose proof (Qtrunc_below _ _ H0 H1). lia.
Qed.

(** C6. Charge conservation of deposition: scattering the weight [w] at
    the logical coordinate [i + di], with [0 <= di < 1] and [i + 1 < n],
    into a zeroed field of [n] nodes puts [w*(1-di)] on node [i], [w*di] on
    node [i+1], nothing elsewhere, and the two deposits add up to [w]
    whatever [di] is. *)
Theorem scatter_conserves_weight (w : Q) (i : Z) (di : Q) (n : Z) :
  (0 <= i)%Z -> 0 <= di -> di < 1 -> (i + 1 < n)%Z ->
  exists f,
    scatter (inject_Z i + di) w (repeat 0 (Z.to_nat n)) = Ok f /\
    len f = n /\
    get f i == w * (1 - di) /\
    get f (i + 1) == w * di /\
    (forall j, (0 <= j < n)%Z -> j <> i -> j <> (i + 1)%Z -> get f j = 0) /\
    get f i + get f (i + 1) == w.
Proof.
  intros Hi H0 H1 Hn.
  pose proof (Qtrunc_split i di Hi H0 H1) as Ht.
  set (lc := inject_Z i + di) in *.
  set (z := repeat 0 (Z.to_nat n)).
  assert (Hlen : len z = n) by (apply len_repeat; lia).
  assert (Hz : forall j, (0 <= j < n)%Z -> get z j = 0).
  { intros j Hj. apply get_repeat. lia. }
  assert (Hd : lc - inject_Z (Qtrunc lc) == di) by (rewrite Ht; unfold lc; ring).
  exists (scattered lc w z).
  assert (Ga : get (scattered lc w z) i == w * (1 - di)).
  { rewrite get_scattered by lia. rewrite Ht, Z.eqb_refl.
    rewrite Hz by lia. rewrite <- Ht at 1. rewrite Hd. ring. }
  assert (Gb : get (scattered lc w z) (i + 1) == w * di).
  { rewrite get_scattered by lia. rewrite Ht.
    destruct (Z.eqb_spec (i + 1) i); [lia|]. rewrite Z.eqb_refl.
    rewrite Hz by lia. rewrite <- Ht at 1. rewrite Hd. ring. }
  repeat split.
  - apply scatter_ok; lia.
  - now rewrite len_scattered.
  - exact Ga.
  - exact Gb.
  - intros j Hj N1 N2. rewrite get_scattered by lia. rewrite Ht.
    destruct (Z.eqb_spec j i); [lia|].
    destruct (Z.eqb_spec j (i + 1)); [lia|]. apply Hz; lia.
  - rewrite Ga, Gb. ring.
Qed.

Lemma scatter_conserves_weight_witness :
  exists f,
    scatter (inject_Z 2 + 0.25) 3 (repeat 0 (Z.to_nat 5)) = Ok f /\
    len f = 5%Z /\
    get f 2 == 3 * (1 - 0.25) /\
    get f (2 + 1) == 3 * 0.25 /\
    (forall j, (0 <= j < 5)%Z -> j <> 2%Z -> j <> (2 + 1)%Z -> get f j = 0) /\
    get f 2 + get f (2 + 1) == 3.
Proof.
  apply (scatter_conserves_weight 3 2 0.25 5); [lia | lra | lra | lia].
Defined.

(** C9. A position in [[x0, xmax)] has a logical coordinate in
    [[0, ni-1)], so the node indices [i = floor(lc)] and [i+1] used by
    [scatter] and [gather] lie in [[0, ni-1]]: on an array of [ni] nodes
    both operations return, none of their accesses is out of bounds. *)
Theorem scatter_gather_in_bounds (d : Domain) (x value : Q) (field : list Q) :
  wf_domain d -> len field = ni d -> x0 d <= x -> x < xmax d ->
  let lc := XtoL d x in
  let i := Qtrunc lc in
  0 <= lc /\ lc < inject_Z (ni d - 1) /\
  i = Qfloor lc /\ (0 <= i)%Z /\ (i + 1 <= ni d - 1)%Z /\
  (exists v, gather lc field = Ok v) /\
  (exists f, scatter lc value field = Ok f /\ len f = ni d).
Proof.
  intros Hwf Hlen Hlo Hhi lc i.
  assert (Hin : inside d x) by (split; assumption).
  destruct (XtoL_range d x Hwf Hin) as [H0 H1].
  destruct (XtoL_index d x Hwf Hin) as [I0 I1].
  fold lc in H0, H1, I0, I1. fold i in I0, I1.
  repeat split; try assumption.
  - now apply Qtrunc_floor.
  - eexists. apply gather_ok; fold lc i; lia.
  - exists (scattered lc value field). split.
    + apply scatter_ok; fold lc i; lia.
    + now rewrite len_scattered.
Qed.

Lemma scatter_gather_in_bounds_witness :
  let d := make_domain 5 1 0 in
  let lc := XtoL d 3.5 in
  let i := Qtrunc lc in
  0 <= lc /\ lc < inject_Z (ni d - 1) /\
  i = Qfloor lc /\ (0 <= i)%Z /\ (i + 1 <= ni d - 1)%Z /\
  (exists v, gather lc [1; 2; 3; 4; 5] = Ok v) /\
  (exists f, scatter lc 7 [1; 2; 3; 4; 5] = Ok f /\ len f = ni d).
Proof.
  apply (scatter_gather_in_bounds (make_domain 5 1 0) 3.5 7 [1; 2; 3; 4; 5]).
  - unfold wf_domain; simpl. repeat split; reflexivity.
  - reflexivity.
  - vm_compute; discriminate.
  - vm_compute; reflexivity.
Defined.

(** ** Electric field *)

Lemma array_ext (a b : list Q) :
  len a = len b ->
  (forall i, (0 <= i < len a)%Z -> get a i = get b i) ->
  a = b.
Proof.
  unfold len, get. intros Hl H.
  apply (nth_ext a b 0 0); [lia|].
  intros n Hn. specialize (H (Z.of_nat n)).
  rewrite Nat2Z.id in H. apply H. lia.
Qed.

Lemma ComputeEF_ok (d : Domain) (phi ef : list Q) :
  (2 <= ni d)%Z -> len phi = ni d -> len ef = ni d ->
  exists ef',
    ComputeEF d phi ef = Ok ef' /\ len ef' = ni d /\
    forall i, (0 <= i < ni d)%Z -> get ef' i = ef_of d phi i.
Proof.
  intros Hni Hphi Hef. unfold ComputeEF.
  destruct (for_range_inv
              (fun j (e : list Q) =>
                 len e = ni d /\
                 forall i, (1 <= i < j)%Z ->
                           get e i
                           = - (get phi (i + 1) - get phi (i - 1)) / (2 * dx d))
              (fun i ef =>
                 phi_r <- rd phi (i + 1)%Z ;;
                 phi_l <- rd phi (i - 1)%Z ;;
                 wr ef i (- (phi_r - phi_l) / (2 * dx d)))
              1 (ni d - 1) ef) as (e1 & E1 & L1 & G1).
  - lia.
  - split; [assumption | intros; lia].
  - intros j e Hj [Le Ge]. cbv beta. mstep.
    eexists; split; [reflexivity|]. split.
    + now rewrite len_set_at.
    + intros i Hi. destruct (Z.eq_dec i j) as [->|N].
      * now rewrite get_set_at_eq by lia.
      * rewrite get_set_at_ne by lia. apply Ge; lia.
  - rewrite E1. cbn [bind]. mstep.
    eexists; split; [reflexivity|]. split.
    + now rewrite !len_set_at.
    + intros i Hi. unfold ef_of.
      destruct (Z.eqb_spec i 0) as [->|N0].
      * rewrite get_set_at_ne by lia. now rewrite get_set_at_eq by lia.
      * destruct (Z.eqb_spec i (ni d - 1)) as [->|N1].
        -- now rewrite get_set_at_eq by (rewrite len_set_at; lia).
        -- rewrite !get_set_at_ne by lia. apply G1; lia.
Qed.

(** C8. [ComputeEF] stores the central difference of the potential at the
    interior nodes and the one-sided differences at the two boundary
    nodes; the result does not depend on the previous content of [ef];
    for a linear ramp [phi[i] = c*i] every node gets [-c/dx]. *)
Theorem ComputeEF_differences (d : Domain) (phi ef : list Q) :
  (2 <= ni d)%Z -> len phi = ni d -> len ef = ni d ->
  exists ef',
    ComputeEF d phi ef = Ok ef' /\ len ef' = ni d /\
    (forall i, (0 < i < ni d - 1)%Z ->
               get ef' i = - (get phi (i + 1) - get phi (i - 1)) / (2 * dx d)) /\
    get ef' 0 = - (get phi 1 - get phi 0) / dx d /\
    get ef' (ni d - 1) = - (get phi (ni d - 1) - get phi (ni d - 2)) / dx d /\
    (forall ef2, len ef2 = ni d -> ComputeEF d phi ef2 = Ok ef') /\
    (forall c, (forall i, (0 <= i < ni d)%Z -> get phi i == c * inject_Z i) ->
               forall i, (0 <= i < ni d)%Z -> get ef' i == - c / dx d).
Proof.
  intros Hni Hphi Hef.
  destruct (ComputeEF_ok d phi ef Hni Hphi Hef) as (ef' & E & L & G).
  exists ef'. split; [exact E|]. split; [exact L|].
  split; [|split; [|split; [|split]]].
  - intros i Hi. rewrite G by lia. unfold ef_of.
    destruct (Z.eqb_spec i 0); [lia|].
    destruct (Z.eqb_spec i (ni d - 1)); [lia|]. reflexivity.
  - rewrite G by lia. reflexivity.
  - rewrite G by lia. unfold ef_of.
    destruct (Z.eqb_spec (ni d - 1) 0); [lia|].
    now rewrite Z.eqb_refl.
  - intros ef2 L2.
    destruct (ComputeEF_ok d phi ef2 Hni Hphi L2) as (e2 & E2 & Le2 & G2).
    rewrite E2. f_equal. apply array_ext; [congruence|].
    intros i Hi. rewrite G2, G by lia. reflexivity.
  - intros c Hramp i Hi. rewrite G by lia. unfold ef_of.
    set (k := / dx d).
    destruct (Z.eqb_spec i 0) as [->|N0].
    + rewrite (Hramp 1%Z), (Hramp 0%Z) by lia.
      unfold Qdiv. fold k. change (inject_Z 1) with 1. change (inject_Z 0) with 0.
      ring.
    + destruct (Z.eqb_spec i (ni d - 1)) as [->|N1].
      * rewrite (Hramp (ni d - 1)%Z), (Hramp (ni d - 2)%Z) by lia.
        replace (ni d - 1)%Z with (ni d - 2 + 1)%Z at 1 by lia.
        rewrite inject_Z_plus. change (inject_Z 1) with 1.
        unfold Qdiv. fold k. ring.
      * rewrite (Hramp (i + 1)%Z), (Hramp (i - 1)%Z) by lia.
        unfold Zminus. rewrite !inject_Z_plus.
        change (inject_Z 1) with 1. change (inject_Z (Z.opp 1)) with (Qopp 1).
        unfold Qdiv. rewrite Qinv_mult_distr. fold k. field.
Qed.

Lemma ComputeEF_differences_witness :
  let d := make_domain 5 1 0 in
  let phi := [0; 3; 6; 9; 12] in
  exists ef',
    ComputeEF d phi [1; 1; 1; 1; 1] = Ok ef' /\ len ef' = ni d /\
    (forall i, (0 < i < ni d - 1)%Z ->
               get ef' i = - (get phi (i + 1) - get phi (i - 1)) / (2 * dx d)) /\
    get ef' 0 = - (get phi 1 - get phi 0) / dx d /\
    get ef' (ni d - 1) = - (get phi (ni d - 1) - get phi (ni d - 2)) / dx d /\
    (forall ef2, len ef2 = ni d -> ComputeEF d phi ef2 = Ok ef') /\
    (forall c, (forall i, (0 <= i < ni d)%Z -> get phi i == c * inject_Z i) ->
               forall i, (0 <= i < ni d)%Z -> get ef' i == - c / dx d).
Proof.
  apply (ComputeEF_differences (make_domain 5 1 0) [0; 3; 6; 9; 12]
           [1; 1; 1; 1; 1]); [simpl; lia | reflexivity | reflexivity].
Defined.

(** ** Particle integrator *)

Lemma Qltb_lt (x y : Q) : Qltb x y = true <-> x < y.
Proof.
  unfold Qltb. rewrite negb_true_iff. split; intros H.
  - apply Qnot_le_lt. intros C. apply Qle_bool_iff in C. congruence.
  - destruct (Qle_bool y x) eqn:E; auto.
    apply Qle_bool_iff in E. apply Qle_not_lt in E. contradiction.
Qed.

Lemma Qgeb_ge (x y : Q) : Qgeb x y = true <-> y <= x.
Proof. unfold Qgeb. apply Qle_bool_iff. Qed.

Lemma leaves_spec (d : Domain) (p : Particle) :
  leaves d p = true <-> pos p < x0 d \/ xmax d <= pos p.
Proof.
  unfold leaves. rewrite orb_true_iff, Qltb_lt, Qgeb_ge. tauto.
Qed.

Lemma stays_spec (d : Domain) (p : Particle) :
  stays d p = true <-> inside d (pos p).
Proof.
  unfold stays, inside. rewrite negb_true_iff. split.
  - intros H. split.
    + apply Qnot_lt_le. intros C.
      assert (leaves d p = true) by (apply leaves_spec; auto). congruence.
    + apply Qnot_le_lt. intros C.
      assert (leaves d p = true) by (apply leaves_spec; auto). congruence.
  - intros [H1 H2]. destruct (leaves d p) eqn:E; auto.
    apply leaves_spec in E. destruct E as [E|E].
    + apply Qle_not_lt in H1. contradiction.
    + apply Qle_not_lt in E. contradiction.
Qed.

Lemma advance_ok (d : Domain) (qm : Q) (ef : list Q) (p : Particle) :
  (0 <= Qtrunc (XtoL d (pos p)))%Z ->
  (Qtrunc (XtoL d (pos p)) + 1 < len ef)%Z ->
  advance d qm ef p = Ok (advanced d qm ef p).
Proof.
  intros H0 H1. unfold advance, advanced, field_at.
  rewrite gather_ok by assumption. reflexivity.
Qed.

Lemma advance_Ok (d : Domain) (qm : Q) (ef : list Q) (p p' : Particle) :
  advance d qm ef p = Ok p' ->
  p' = advanced d qm ef p /\
  gather (XtoL d (pos p)) ef = Ok (field_at d ef (pos p)).
Proof.
  intros H. unfold advance in H.
  apply bind_Ok in H. destruct H as (e & Hg & H).
  pose proof (gather_Ok _ _ _ Hg) as [H0 H1].
  rewrite gather_ok in Hg by assumption. injection Hg as <-.
  injection H as <-. split; [reflexivity|].
  now apply gather_ok.
Qed.

Lemma advance_inside (d : Domain) (qm : Q) (ef : list Q) (p : Particle) :
  wf_domain d -> len ef = ni d -> inside d (pos p) ->
  advance d qm ef p = Ok (advanced d qm ef p).
Proof.
  intros Hwf Hlen Hin.
  destruct (XtoL_index d (pos p) Hwf Hin) as [H0 H1].
  apply advance_ok; lia.
Qed.

Lemma nth_error_middle {A : Type} (pre rest : list A) (p : A) :
  nth_error (pre ++ p :: rest) (length pre) = Some p.
Proof. induction pre; simpl; auto. Qed.

Lemma set_at_middle {A : Type} (pre rest : list A) (p q : A) :
  set_at (pre ++ p :: rest) (length pre) q = pre ++ q :: rest.
Proof. induction pre; simpl; congruence. Qed.

Lemma erase_middle {A : Type} (pre rest : list A) (p : A) :
  erase (pre ++ p :: rest) (length pre) = pre ++ rest.
Proof. induction pre; simpl; congruence. Qed.

(** The iterator loop with [erase] against a plain pass: when the iterator
    stands behind the already processed particles [pre], the loop advances
    every particle of [rest] once, in order, and keeps those that stay. *)
Lemma push_loop_pass (d : Domain) (qm : Q) (ef : list Q) :
  forall (rest pre : list Particle) (fuel : nat),
    (length rest <= fuel)%nat ->
    push_loop fuel d qm ef (pre ++ rest) (length pre) =
    (ps <- foreach_mut rest (advance d qm ef) ;;
     Ok (pre ++ filter (stays d) ps)).
Proof.
  induction rest as [|p rest IH]; intros pre fuel Hf.
  - simpl. rewrite app_nil_r.
    assert (E : nth_error pre (length pre) = None)
      by (apply nth_error_None; lia).
    destruct fuel; simpl; rewrite E; reflexivity.
  - destruct fuel as [|fuel]; [simpl in Hf; lia|].
    simpl push_loop. rewrite nth_error_middle.
    simpl foreach_mut.
    destruct (advance d qm ef p) as [p'|f]; [|reflexivity].
    cbn [bind]. rewrite set_at_middle.
    unfold stays at 1. simpl filter. fold (stays d).
    destruct (leaves d p') eqn:El.
    + rewrite erase_middle. rewrite IH by (simpl in Hf; lia).
      destruct (foreach_mut rest (advance d qm ef)); [|reflexivity].
      cbn [bind]. simpl. unfold stays at 2. now rewrite El.
    + replace (pre ++ p' :: rest) with ((pre ++ [p']) ++ rest)
        by (now rewrite <- app_assoc).
      replace (S (length pre)) with (length (pre ++ [p']))
        by (rewrite length_app; simpl; lia).
      rewrite IH by (simpl in Hf; lia).
      destruct (foreach_mut rest (advance d qm ef)); [|reflexivity].
      cbn [bind]. simpl. unfold stays at 2. rewrite El. simpl.
      now rewrite <- app_assoc.
Qed.

Lemma PushSpecies_pass (d : Domain) (sp : Species) (ef : list Q) :
  PushSpecies d sp ef =
  (ps <- foreach_mut (part_list sp) (advance d (charge sp / mass sp) ef) ;;
   Ok (set_part_list sp (filter (stays d) ps))).
Proof.
  unfold PushSpecies.
  rewrite (push_loop_pass d _ ef (part_list sp) [] (length (part_list sp)))
    by lia.
  destruct (foreach_mut _ _); reflexivity.
Qed.

Lemma foreach_mut_map {A : Type} (body : A -> res A) (f : A -> A)
  (l : list A) :
  Forall (fun p => body p = Ok (f p)) l ->
  foreach_mut l body = Ok (map f l).
Proof.
  induction 1 as [|p l Hp _ IH]; simpl; [reflexivity|].
  rewrite Hp. cbn [bind]. rewrite IH. reflexivity.
Qed.

Lemma foreach_mut_Ok {A : Type} (body : A -> res A) (l l' : list A) :
  foreach_mut l body = Ok l' -> Forall2 (fun p p' => body p = Ok p') l l'.
Proof.
  revert l'. induction l as [|p l IH]; simpl; intros l' H.
  - injection H as <-. constructor.
  - apply bind_Ok in H. destruct H as (p' & Hp & H).
    apply bind_Ok in H. destruct H as (l'' & Hl & H).
    injection H as <-. constructor; auto.
Qed.

Lemma PushSpecies_inside (d : Domain) (sp : Species) (ef : list Q) :
  wf_domain d -> len ef = ni d ->
  Forall (fun p => inside d (pos p)) (part_list sp) ->
  PushSpecies d sp ef =
  Ok (set_part_list sp
        (filter (stays d)
           (map (advanced d (charge sp / mass sp) ef) (part_list sp)))).
Proof.
  intros Hwf Hlen Hin. rewrite PushSpecies_pass.
  rewrite (foreach_mut_map _ (advanced d (charge sp / mass sp) ef)).
  - reflexivity.
  - eapply Forall_impl; [|exact Hin].
    intros p Hp. now apply advance_inside.
Qed.

Lemma filter_complement_length {A : Type} (f : A -> bool) (l : list A) :
  (length (filter f l) + length (filter (fun x => negb (f x)) l))%nat
  = length l.
Proof.
  induction l as [|a l IH]; simpl; [reflexivity|].
  destruct (f a); simpl; lia.
Qed.

(** C2. One call of [PushSpecies] advances every particle once and keeps,
    in order, exactly those whose updated position is in [[x0, xmax)]: a
    particle is removed if and only if its updated position is [< x0] or
    [>= xmax], none is added, and the count after the call is the count
    before minus the number of particles that left; the count never
    grows. *)
Theorem PushSpecies_absorbs (d : Domain) (sp : Species) (ef : list Q) :
  wf_domain d -> len ef = ni d ->
  Forall (fun p => inside d (pos p)) (part_list sp) ->
  let moved := map (advanced d (charge sp / mass sp) ef) (part_list sp) in
  exists sp',
    PushSpecies d sp ef = Ok sp' /\
    part_list sp' = filter (stays d) moved /\
    (forall p, In p moved ->
               (~ In p (part_list sp') <-> pos p < x0 d \/ xmax d <= pos p)) /\
    length (part_list sp')
    = (length (part_list sp) - length (filter (leaves d) moved))%nat /\
    (length (part_list sp') <= length (part_list sp))%nat.
Proof.
  intros Hwf Hlen Hin moved.
  exists (set_part_list sp (filter (stays d) moved)).
  split; [now apply PushSpecies_inside|].
  split; [reflexivity|].
  assert (Hcount :
            (length (filter (leaves d) moved)
             + length (filter (stays d) moved))%nat
            = length (part_list sp)).
  { unfold stays. rewrite filter_complement_length.
    unfold moved. apply length_map. }
  split; [|split].
  - intros p Hp. simpl. rewrite filter_In, <- leaves_spec. unfold stays.
    destruct (leaves d p); simpl.
    + split; [reflexivity | intros _ [_ C]; discriminate].
    + split; [intros H; exfalso; apply H; auto | discriminate].
  - simpl. lia.
  - simpl. lia.
Qed.

Lemma PushSpecies_absorbs_witness :
  let d := make_domain 5 1 0 in
  let sp := mkSpecies [mkParticle 0.25 1 0; mkParticle 3.5 (-1) 1;
                       mkParticle 3.9 1e11 2] 2 1 3 "t" 3 1 3 in
  let ef := [0; 0; 0; 0; 0] in
  let moved := map (advanced d (charge sp / mass sp) ef) (part_list sp) in
  exists sp',
    PushSpecies d sp ef = Ok sp' /\
    part_list sp' = filter (stays d) moved /\
    (forall p, In p moved ->
               (~ In p (part_list sp') <-> pos p < x0 d \/ xmax d <= pos p)) /\
    length (part_list sp')
    = (length (part_list sp) - length (filter (leaves d) moved))%nat /\
    (length (part_list sp') <= length (part_list sp))%nat.
Proof.
  apply (PushSpecies_absorbs (make_domain 5 1 0)
           (mkSpecies [mkParticle 0.25 1 0; mkParticle 3.5 (-1) 1;
                       mkParticle 3.9 1e11 2] 2 1 3 "t" 3 1 3)
           [0; 0; 0; 0; 0]).
  - unfold wf_domain; simpl. repeat split; reflexivity.
  - reflexivity.
  - repeat constructor; vm_compute; congruence.
Defined.

Lemma Forall2_map_right {A B : Type} (R : A -> B -> Prop) (f : A -> B)
  (l : list A) :
  Forall (fun x => R x (f x)) l -> Forall2 R l (map f l).
Proof. induction 1; simpl; constructor; auto. Qed.

(** C7. [PushSpecies] updates the velocity first and moves the particle
    with the updated velocity: with [E] the field gathered at the position
    before the update, [v' = v + DT*qm*E] and [x' = x + DT*v']; this holds
    for every particle of the list, the boundary test being applied to the
    updated particles [ps].  [E] is the linear interpolation of the field:
    with [lc = (x - x0)/dx], [i = floor(lc)] and [di = lc - i] in
    [[0, 1)], [E = ef[i]*(1-di) + ef[i+1]*di]. *)
Theorem PushSpecies_velocity_first (d : Domain) (sp : Species) (ef : list Q) :
  wf_domain d -> len ef = ni d ->
  Forall (fun p => inside d (pos p)) (part_list sp) ->
  exists sp' ps,
    PushSpecies d sp ef = Ok sp' /\
    part_list sp' = filter (stays d) ps /\
    Forall2
      (fun p p' =>
         exists E,
           gather (XtoL d (pos p)) ef = Ok E /\
           E = field_at d ef (pos p) /\
           (let lc := (pos p - x0 d) / dx d in
            let i := Qtrunc lc in
            let di := lc - inject_Z i in
            i = Qfloor lc /\ (0 <= i)%Z /\ (i + 1 <= ni d - 1)%Z /\
            0 <= di /\ di < 1 /\
            E = get ef i * (1 - di) + get ef (i + 1) * di) /\
           vel p' = vel p + DT * (charge sp / mass sp) * E /\
           pos p' = pos p + DT * vel p' /\
           pos p' == pos p + DT * vel p + DT * DT * (charge sp / mass sp) * E /\
           id p' = id p)
      (part_list sp) ps.
Proof.
  intros Hwf Hlen Hin.
  set (qm := charge sp / mass sp).
  exists (set_part_list sp (filter (stays d) (map (advanced d qm ef)
                                                 (part_list sp)))).
  exists (map (advanced d qm ef) (part_list sp)).
  split; [now apply PushSpecies_inside|].
  split; [reflexivity|].
  apply Forall2_map_right.
  eapply Forall_impl; [|exact Hin].
  intros p Hp. exists (field_at d ef (pos p)).
  destruct (XtoL_index d (pos p) Hwf Hp) as [H0 H1].
  destruct (XtoL_range d (pos p) Hwf Hp) as [R0 R1].
  destruct (Qtrunc_bounds _ R0) as [Blo Bhi].
  rewrite inject_Z_plus in Bhi. change (inject_Z 1) with 1 in Bhi.
  split; [apply gather_ok; lia|].
  split; [reflexivity|].
  split.
  { unfold XtoL in H0, H1, R0, Blo, Bhi. cbv zeta.
    split; [now apply Qtrunc_floor|].
    split; [exact H0|]. split; [exact H1|].
    split; [lra|]. split; [lra | reflexivity]. }
  unfold advanced. cbn [pos vel id]. fold qm.
  split; [reflexivity|]. split; [reflexivity|].
  split; [ring | reflexivity].
Qed.

Lemma PushSpecies_velocity_first_witness :
  let d := make_domain 5 1 0 in
  let sp := mkSpecies [mkParticle 0.25 1 0; mkParticle 3.5 (-1) 1] 2 1 3 "t"
              2 1 2 in
  let ef := [1; 2; 3; 4; 5] in
  exists sp' ps,
    PushSpecies d sp ef = Ok sp' /\
    part_list sp' = filter (stays d) ps /\
    Forall2
      (fun p p' =>
         exists E,
           gather (XtoL d (pos p)) ef = Ok E /\
           E = field_at d ef (pos p) /\
           (let lc := (pos p - x0 d) / dx d in
            let i := Qtrunc lc in
            let di := lc - inject_Z i in
            i = Qfloor lc /\ (0 <= i)%Z /\ (i + 1 <= ni d - 1)%Z /\
            0 <= di /\ di < 1 /\
            E = get ef i * (1 - di) + get ef (i + 1) * di) /\
           vel p' = vel p + DT * (charge sp / mass sp) * E /\
           pos p' = pos p + DT * vel p' /\
           pos p' == pos p + DT * vel p + DT * DT * (charge sp / mass sp) * E /\
           id p' = id p)
      (part_list sp) ps.
Proof.
  apply (PushSpecies_velocity_first (make_domain 5 1 0)
           (mkSpecies [mkParticle 0.25 1 0; mkParticle 3.5 (-1) 1] 2 1 3 "t"
              2 1 2)
           [1; 2; 3; 4; 5]).
  - unfold wf_domain; simpl. repeat split; reflexivity.
  - reflexivity.
  - repeat constructor; vm_compute; congruence.
Defined.

(** ** Direct solver: the coefficient arrays *)

Lemma len_new_array (init : Z -> Q) (n : Z) :
  (0 <= n)%Z -> len (new_array init n) = n.
Proof.
  intros H. unfold len, new_array. rewrite length_map, length_seq. lia.
Qed.

Lemma set_coefficients_ok (ua ub uc : Z -> Q) (n : Z) :
  (1 <= n)%Z ->
  exists a b c,
    set_coefficients ua ub uc n = Ok (a, b, c) /\
    len a = n /\ len b = n /\ len c = n /\
    forall i, (0 <= i < n)%Z ->
              get a i = a_of n i /\ get b i = b_of n i /\ get c i = c_of n i.
Proof.
  intros Hn. unfold set_coefficients.
  set (body := fun (i : Z) '(a, b, c) =>
                 a <- wr a i 1 ;; b <- wr b i (-2) ;; c <- wr c i 1 ;;
                 Ok (a, b, c)).
  set (I := fun (j : Z) (t : list Q * list Q * list Q) =>
              let '(a, b, c) := t in
              len a = n /\ len b = n /\ len c = n /\
              forall i, (1 <= i < j)%Z ->
                        get a i = 1 /\ get b i = -2 /\ get c i = 1).
  assert (Hloop : exists t,
             for_range 1 (n - 1) body
               (new_array ua n, new_array ub n, new_array uc n) = Ok t /\
             I (Z.max 1 (n - 1)) t).
  { destruct (Z.le_gt_cases 1 (n - 1)) as [Hle|Hgt].
    - replace (Z.max 1 (n - 1)) with (n - 1)%Z by lia.
      apply for_range_inv; [exact Hle | |].
      + unfold I. rewrite !len_new_array by lia.
        repeat split; intros; lia.
      + intros j [[a b] c] Hj (La & Lb & Lc & G). unfold body.
        mstep. eexists; split; [reflexivity|]. unfold I.
        rewrite !len_set_at. repeat split; try assumption;
          destruct (Z.eq_dec i j) as [->|N];
          try (rewrite get_set_at_eq by lia; reflexivity);
          rewrite get_set_at_ne by lia; apply G; lia.
    - rewrite for_range_empty by lia. eexists; split; [reflexivity|].
      unfold I. rewrite !len_new_array by lia.
      repeat split; intros; lia. }
  destruct Hloop as ([[a b] c] & E & La & Lb & Lc & G).
  rewrite E. cbn [bind]. mstep.
  do 3 eexists. split; [reflexivity|].
  rewrite !len_set_at. repeat split; try assumption;
    unfold a_of, b_of, c_of, boundary_node;
    destruct (Z.eqb_spec i (n - 1)) as [->|N1];
    try (rewrite get_set_at_eq by arr_lia; now rewrite orb_true_r);
    rewrite (get_set_at_ne _ (n - 1)) by lia;
    (destruct (Z.eqb_spec i 0) as [->|N0];
     [ now rewrite get_set_at_eq by arr_lia
     | rewrite get_set_at_ne by lia; simpl; apply G; lia ]).
Qed.

Lemma set_coefficients_fault (ua ub uc : Z -> Q) (n : Z) :
  (n < 1)%Z -> set_coefficients ua ub uc n = Fail OutOfBounds.
Proof.
  intros Hn. unfold set_coefficients.
  rewrite for_range_empty by lia. cbn [bind].
  rewrite wr_fault; [reflexivity|].
  unfold len, new_array. rewrite length_map, length_seq. lia.
Qed.

(** The content of the freshly allocated arrays never reaches the result:
    every cell is assigned before the block ends. *)
Lemma set_coefficients_uninit (ua ub uc ua' ub' uc' : Z -> Q) (n : Z) :
  set_coefficients ua ub uc n = set_coefficients ua' ub' uc' n.
Proof.
  destruct (Z.le_gt_cases 1 n) as [Hn|Hn].
  - destruct (set_coefficients_ok ua ub uc n Hn)
      as (a & b & c & E & La & Lb & Lc & G).
    destruct (set_coefficients_ok ua' ub' uc' n Hn)
      as (a' & b' & c' & E' & La' & Lb' & Lc' & G').
    rewrite E, E'.
    assert (a = a') as ->.
    { apply array_ext; [congruence|]. intros i Hi.
      rewrite La in Hi. destruct (G i Hi) as (-> & _).
      now destruct (G' i Hi) as (-> & _). }
    assert (b = b') as ->.
    { apply array_ext; [congruence|]. intros i Hi.
      rewrite Lb in Hi. destruct (G i Hi) as (_ & -> & _).
      now destruct (G' i Hi) as (_ & -> & _). }
    assert (c = c') as ->.
    { apply array_ext; [congruence|]. intros i Hi.
      rewrite Lc in Hi. destruct (G i Hi) as (_ & _ & ->).
      now destruct (G' i Hi) as (_ & _ & ->). }
    reflexivity.
  - rewrite !set_coefficients_fault by lia. reflexivity.
Qed.

Lemma SolvePotentialDirect_uninit (ua ub uc ua' ub' uc' : Z -> Q)
  (d : Domain) (x rho : list Q) :
  SolvePotentialDirect ua ub uc d x rho
  = SolvePotentialDirect ua' ub' uc' d x rho.
Proof.
  unfold SolvePotentialDirect.
  now rewrite (set_coefficients_uninit ua ub uc ua' ub' uc').
Qed.

(** ** Sampler *)

Lemma iter_up_inv {T : Type} (I : Z -> T -> Prop) (body : Z -> T -> T) :
  forall (n : nat) (i : Z) (s : T),
    I i s ->
    (forall j t, (i <= j < i + Z.of_nat n)%Z -> I j t -> I (j + 1)%Z (body j t)) ->
    I (i + Z.of_nat n)%Z (iter_up n i body s).
Proof.
  induction n as [|n IH]; intros i s H0 Hstep.
  - cbn [iter_up]. now replace (i + Z.of_nat 0)%Z with i by lia.
  - cbn [iter_up].
    replace (i + Z.of_nat (S n))%Z with (i + 1 + Z.of_nat n)%Z by lia.
    apply IH.
    + apply Hstep; [lia | assumption].
    + intros j t Hj. apply Hstep; lia.
Qed.

Lemma iter_up_rel {T1 T2 : Type} (R : T1 -> T2 -> Prop)
  (body1 : Z -> T1 -> T1) (body2 : Z -> T2 -> T2) :
  (forall j t1 t2, R t1 t2 -> R (body1 j t1) (body2 j t2)) ->
  forall (n : nat) (i : Z) (s1 : T1) (s2 : T2),
    R s1 s2 -> R (iter_up n i body1 s1) (iter_up n i body2 s2).
Proof.
  intros Hstep. induction n as [|n IH]; intros i s1 s2 H; simpl; auto.
Qed.

Lemma Init_body_effect (rng : Type) (rnd_dist : rng -> Q * rng)
  (sqrt : Q -> Q) (d : Domain) (st : Species * rng) :
  let sp := fst st in
  let sp' := fst (Init_body rng rnd_dist sqrt d st) in
  exists x v,
    part_list sp' = part_list sp ++ [mkParticle x v (part_id sp)] /\
    part_id sp' = (part_id sp + 1)%Z /\
    mass sp' = mass sp /\ charge sp' = charge sp /\ spwt sp' = spwt sp /\
    name sp' = name sp /\ NUM sp' = NUM sp /\ Temp sp' = Temp sp.
Proof.
  destruct st as [s h]. unfold Init_body, SampleVel, rnd.
  destruct (rnd_dist h) as [r h1].
  destruct (rnd_dist h1) as [r1 h2].
  destruct (rnd_dist h2) as [r2 h3].
  destruct (rnd_dist h3) as [r3 h4]. cbn [fst add part_list part_id mass
    charge spwt name NUM Temp].
  do 2 eexists. repeat split.
Qed.

(** What [Init] does to a species: [NUM_IONS] particles are appended,
    whatever [NUM] says; the constants of the species are untouched. *)
Lemma Init_effect (rng : Type) (rnd_dist : rng -> Q * rng) (sqrt : Q -> Q)
  (d : Domain) (sp : Species) (g : rng) :
  let sp' := fst (Init rng rnd_dist sqrt d sp g) in
  Z.of_nat (length (part_list sp'))
  = (Z.of_nat (length (part_list sp)) + NUM_IONS)%Z /\
  part_id sp' = (part_id sp + NUM_IONS)%Z /\
  mass sp' = mass sp /\ charge sp' = charge sp /\ spwt sp' = spwt sp /\
  name sp' = name sp /\ NUM sp' = NUM sp /\ Temp sp' = Temp sp.
Proof.
  unfold Init, iter_range.
  assert (Hn : (0 + Z.of_nat (Z.to_nat (NUM_IONS - 0)))%Z = NUM_IONS)
    by (unfold NUM_IONS; lia).
  revert Hn. generalize (Z.to_nat (NUM_IONS - 0)). intros n Hn.
  rewrite <- Hn. cbv zeta.
  apply (iter_up_inv
           (fun j (t : Species * rng) =>
              Z.of_nat (length (part_list (fst t)))
              = (Z.of_nat (length (part_list sp)) + j)%Z /\
              part_id (fst t) = (part_id sp + j)%Z /\
              mass (fst t) = mass sp /\
              charge (fst t) = charge sp /\
              spwt (fst t) = spwt sp /\ name (fst t) = name sp /\
              NUM (fst t) = NUM sp /\ Temp (fst t) = Temp sp)).
  - cbn [fst]. repeat split; lia.
  - intros j t _ (H1 & H2 & H3 & H4 & H5 & H6 & H7 & H8).
    destruct (Init_body_effect rng rnd_dist sqrt d t)
      as (x & v & E1 & E2 & E3 & E4 & E5 & E6 & E7 & E8).
    rewrite E1, E2, E3, E4, E5, E6, E7, E8, length_app.
    cbn [length]. repeat split; try assumption; lia.
Qed.

(** C1 (the code departs from it). [Init] runs its loop [NUM_IONS] times for
    every species: the electron population, configured with
    [NUM = NUM_ELECTRONS = 80000], holds 30000 particles after [Init], not
    80000. *)
Theorem Init_electrons_count (rng : Type) (rnd_dist : rng -> Q * rng)
  (sqrt : Q -> Q) (d : Domain) (electron_spwt : Q) (g : rng) :
  let electrons := new_Species "Electrons" ME (- QE) electron_spwt
                     NUM_ELECTRONS ELECTRON_TEMP in
  let electrons' := fst (Init rng rnd_dist sqrt d electrons g) in
  NUM electrons' = 80000%Z /\
  Z.of_nat (length (part_list electrons')) = 30000%Z /\
  Z.of_nat (length (part_list electrons')) <> NUM electrons'.
Proof.
  intros electrons electrons'.
  destruct (Init_effect rng rnd_dist sqrt d electrons g)
    as (Hlen & _ & _ & _ & _ & _ & HNUM & _).
  fold electrons' in Hlen, HNUM.
  cbn [electrons new_Species part_list NUM length Z.of_nat] in Hlen, HNUM.
  unfold electrons in Hlen, HNUM.
  cbn [new_Species part_list NUM length Z.of_nat] in Hlen, HNUM.
  unfold NUM_IONS in Hlen. unfold NUM_ELECTRONS in HNUM.
  rewrite HNUM, Hlen. repeat split; lia.
Qed.

(** ** Determinism *)

Lemma same_stream_step {rng1 rng2 : Type} (rnd1 : rng1 -> Q * rng1)
  (g1 : rng1) (rnd2 : rng2 -> Q * rng2) (g2 : rng2) :
  same_stream rnd1 g1 rnd2 g2 ->
  fst (rnd1 g1) = fst (rnd2 g2) /\
  same_stream rnd1 (snd (rnd1 g1)) rnd2 (snd (rnd2 g2)).
Proof.
  intros H. split.
  - exact (H 0%nat).
  - intros k. exact (H (S k)).
Qed.

Lemma SampleVel_same {rng1 rng2 : Type} (rnd1 : rng1 -> Q * rng1)
  (g1 : rng1) (rnd2 : rng2 -> Q * rng2) (g2 : rng2) (sqrt : Q -> Q)
  (T m : Q) :
  same_stream rnd1 g1 rnd2 g2 ->
  fst (SampleVel rng1 rnd1 sqrt T m g1) = fst (SampleVel rng2 rnd2 sqrt T m g2)
  /\ same_stream rnd1 (snd (SampleVel rng1 rnd1 sqrt T m g1))
       rnd2 (snd (SampleVel rng2 rnd2 sqrt T m g2)).
Proof.
  intros H. unfold SampleVel, rnd.
  destruct (same_stream_step _ _ _ _ H) as [E1 H1].
  destruct (rnd1 g1) as [r1 h1], (rnd2 g2) as [s1 k1]. simpl in E1, H1.
  destruct (same_stream_step _ _ _ _ H1) as [E2 H2].
  destruct (rnd1 h1) as [r2 h2], (rnd2 k1) as [s2 k2]. simpl in E2, H2.
  destruct (same_stream_step _ _ _ _ H2) as [E3 H3].
  destruct (rnd1 h2) as [r3 h3], (rnd2 k2) as [s3 k3]. simpl in E3, H3.
  simpl. subst. split; [reflexivity | assumption].
Qed.

Lemma Init_same {rng1 rng2 : Type} (rnd1 : rng1 -> Q * rng1)
  (g1 : rng1) (rnd2 : rng2 -> Q * rng2) (g2 : rng2) (sqrt : Q -> Q)
  (d : Domain) (sp : Species) :
  same_stream rnd1 g1 rnd2 g2 ->
  fst (Init rng1 rnd1 sqrt d sp g1) = fst (Init rng2 rnd2 sqrt d sp g2) /\
  same_stream rnd1 (snd (Init rng1 rnd1 sqrt d sp g1))
    rnd2 (snd (Init rng2 rnd2 sqrt d sp g2)).
Proof.
  intros H. unfold Init, iter_range.
  apply (iter_up_rel
           (fun (t1 : Species * rng1) (t2 : Species * rng2) =>
              fst t1 = fst t2 /\ same_stream rnd1 (snd t1) rnd2 (snd t2))).
  - intros _ [s1 h1] [s2 h2] [E S]. cbn [fst snd] in E, S. subst s2.
    unfold Init_body, rnd.
    destruct (same_stream_step _ _ _ _ S) as [E1 S1].
    destruct (rnd1 h1) as [r1 h1'], (rnd2 h2) as [r2 h2'].
    cbn [fst snd] in E1, S1. subst r2.
    destruct (SampleVel_same rnd1 h1' rnd2 h2' sqrt
                (Temp s1 * EV_TO_K) (mass s1) S1) as [E2 S2].
    destruct (SampleVel rng1 rnd1 sqrt (Temp s1 * EV_TO_K) (mass s1) h1')
      as [v1 h1''].
    destruct (SampleVel rng2 rnd2 sqrt (Temp s1 * EV_TO_K) (mass s1) h2')
      as [v2 h2''].
    cbn [fst snd] in E2, S2. subst v2. cbn [fst snd].
    split; [reflexivity | assumption].
  - cbn [fst snd]. split; [reflexivity | assumption].
Qed.

Lemma bind_ext {A B : Type} (m : res A) (k k' : A -> res B) :
  (forall a, k a = k' a) -> bind m k = bind m k'.
Proof.
  intros H. destruct m; simpl; auto. Qed.

Lemma for_up_ext {T : Type} (body body' : Z -> T -> res T) :
  (forall i s, body i s = body' i s) ->
  forall n i s, for_up n i body s = for_up n i body' s.
Proof.
  intros H. induction n as [|n IH]; intros i s; simpl; [reflexivity|].
  rewrite H. apply bind_ext. intros a. apply IH.
Qed.

Lemma main_step_uninit (ua ub uc ua' ub' uc' : Z -> Q) (ts : Z) (s : Sim) :
  main_step ua ub uc ts s = main_step ua' ub' uc' ts s.
Proof.
  unfold main_step.
  repeat (apply bind_ext; intros ?).
  now rewrite (SolvePotentialDirect_uninit ua ub uc ua' ub' uc').
Qed.

Lemma main_setup_same {rng1 rng2 : Type} (mt1 : Z -> rng1) (mt2 : Z -> rng2)
  (rnd1 : rng1 -> Q * rng1) (rnd2 : rng2 -> Q * rng2) (sqrt : Q -> Q) :
  same_stream rnd1 (mt1 0%Z) rnd2 (mt2 0%Z) ->
  main_setup rng1 mt1 rnd1 sqrt = main_setup rng2 mt2 rnd2 sqrt.
Proof.
  intros H. unfold main_setup, mt_gen.
  match goal with
  | |- context [Init rng1 rnd1 sqrt ?d ?sp (mt1 0%Z)] =>
      destruct (Init_same rnd1 (mt1 0%Z) rnd2 (mt2 0%Z) sqrt d sp H)
      as [E1 S1];
      destruct (Init rng1 rnd1 sqrt d sp (mt1 0%Z)) as [i1 h1];
      destruct (Init rng2 rnd2 sqrt d sp (mt2 0%Z)) as [i2 h2]
  end.
  cbn [fst snd] in E1, S1. subst i2.
  match goal with
  | |- context [Init rng1 rnd1 sqrt ?d ?sp h1] =>
      destruct (Init_same rnd1 h1 rnd2 h2 sqrt d sp S1) as [E2 S2];
      destruct (Init rng1 rnd1 sqrt d sp h1) as [e1 h1'];
      destruct (Init rng2 rnd2 sqrt d sp h2) as [e2 h2']
  end.
  cbn [fst snd] in E2. subst e2. reflexivity.
Qed.

(** C10. The run is a function of the deviates delivered by the generator
    seeded with 0 and of nothing else: two runs whose generators deliver
    the same sequence, whatever the content of the memory they allocate,
    have the same particles, the same grid fields and the same diagnostics
    after every number of time steps. *)
Theorem simulation_deterministic (rng1 rng2 : Type)
  (mt1 : Z -> rng1) (mt2 : Z -> rng2)
  (rnd1 : rng1 -> Q * rng1) (rnd2 : rng2 -> Q * rng2) (sqrt : Q -> Q)
  (ua ub uc ua' ub' uc' : Z -> Q) :
  same_stream rnd1 (mt1 0%Z) rnd2 (mt2 0%Z) ->
  forall n : nat,
    run rng1 mt1 rnd1 sqrt ua ub uc n = run rng2 mt2 rnd2 sqrt ua' ub' uc' n.
Proof.
  intros H n. unfold run.
  rewrite (main_setup_same mt1 mt2 rnd1 rnd2 sqrt H).
  apply bind_ext. intros s.
  apply for_up_ext. intros i t. apply main_step_uninit.
Qed.

(** ** Deposition of a population *)

Lemma memset0_full (a : list Q) (n : Z) :
  (0 <= n)%Z -> len a = n -> memset0 a n = Ok (repeat 0 (Z.to_nat n)).
Proof.
  intros Hn Hl. unfold memset0.
  destruct (Z.leb_spec 0 n); [|lia].
  destruct (Z.leb_spec n (len a)); [|lia]. cbn [andb].
  rewrite skipn_all2 by (unfold len in Hl; lia).
  now rewrite app_nil_r.
Qed.

Lemma deposit_scattered (d : Domain) (w x : Q) (f : list Q) (j : Z) :
  0 <= XtoL d x ->
  (Qtrunc (XtoL d x) + 1 < len f)%Z -> (0 <= j)%Z ->
  get (scattered (XtoL d x) w f) j == get f j + deposit d w x j.
Proof.
  intros H0 H1 Hj.
  pose proof (Qtrunc_nonneg _ H0) as Hi.
  rewrite get_scattered by assumption.
  unfold deposit. fold (XtoL d x). rewrite <- (Qtrunc_floor _ H0).
  destruct (Z.eqb_spec j (Qtrunc (XtoL d x))) as [E|N].
  - destruct (Z.eqb_spec j (Qtrunc (XtoL d x) + 1)); [lia|]. ring.
  - destruct (Z.eqb_spec j (Qtrunc (XtoL d x) + 1)); ring.
Qed.

(** The accumulation loop shared by the two scatter routines. *)
Lemma scatter_all (d : Domain) (w : Particle -> Q) :
  wf_domain d ->
  forall (parts : list Particle) (f : list Q),
    len f = ni d ->
    Forall (fun p => inside d (pos p)) parts ->
    exists f',
      foreach parts (fun p f => scatter (XtoL d (pos p)) (w p) f) f = Ok f' /\
      len f' = ni d /\
      forall j, (0 <= j < ni d)%Z ->
                get f' j == get f j + accumulated d w parts j.
Proof.
  intros Hwf. induction parts as [|p parts IH]; intros f Hlen Hin.
  - exists f. split; [reflexivity|]. split; [assumption|].
    intros j Hj. simpl. ring.
  - inversion Hin as [|? ? Hp Hrest]; subst.
    destruct (XtoL_range d (pos p) Hwf Hp) as [R0 R1].
    destruct (XtoL_index d (pos p) Hwf Hp) as [I0 I1].
    cbn [foreach]. rewrite scatter_ok by lia. cbn [bind].
    destruct (IH (scattered (XtoL d (pos p)) (w p) f)) as (f' & E & L & G).
    + now rewrite len_scattered.
    + assumption.
    + exists f'. split; [exact E|]. split; [exact L|].
      intros j Hj. rewrite G by assumption.
      rewrite (deposit_scattered d (w p) (pos p) f j R0) by lia.
      cbn [accumulated fold_right]. fold (accumulated d w parts j). ring.
Qed.

(** The tail shared by the two scatter routines. *)
Lemma divide_by_cell_volume_ok (d : Domain) (f : list Q) :
  (1 <= ni d)%Z -> len f = ni d ->
  exists f',
    divide_by_cell_volume d f = Ok f' /\ len f' = ni d /\
    forall j, (0 <= j < ni d)%Z ->
              get f' j ==
              get f j / dx d
              * (if (j =? 0)%Z then 2 else 1)
              * (if (j =? ni d - 1)%Z then 2 else 1).
Proof.
  intros Hni Hlen. unfold divide_by_cell_volume.
  destruct (for_range_inv
              (fun k (g : list Q) =>
                 len g = ni d /\
                 forall j, (0 <= j < ni d)%Z ->
                           get g j = if (j <? k)%Z then get f j / dx d
                                     else get f j)
              (fun i g => f_i <- rd g i ;; wr g i (f_i / dx d))
              0 (ni d) f) as (g & E & Lg & Gg).
  - lia.
  - split; [assumption|]. intros j Hj.
    destruct (Z.ltb_spec j 0); [lia | reflexivity].
  - intros k g Hk [Lg Gg]. cbv beta. mstep.
    eexists; split; [reflexivity|]. split; [now rewrite len_set_at|].
    intros j Hj. destruct (Z.eq_dec j k) as [->|N].
    + rewrite get_set_at_eq by lia. rewrite Gg by lia.
      destruct (Z.ltb_spec k k); [lia|].
      destruct (Z.ltb_spec k (k + 1)); [reflexivity | lia].
    + rewrite get_set_at_ne by lia. rewrite Gg by lia.
      destruct (Z.ltb_spec j k), (Z.ltb_spec j (k + 1)); try lia; reflexivity.
  - rewrite E. cbn [bind]. mstep.
    eexists; split; [reflexivity|]. split; [now rewrite !len_set_at|].
    intros j Hj.
    assert (Gj : forall i, (0 <= i < ni d)%Z -> get g i = get f i / dx d).
    { intros i Hi. rewrite Gg by lia.
      destruct (Z.ltb_spec i (ni d)); [reflexivity | lia]. }
    destruct (Z.eqb_spec j (ni d - 1)) as [->|N1].
    + rewrite get_set_at_eq by arr_lia.
      destruct (Z.eqb_spec (ni d - 1) 0) as [E0|N0].
      * rewrite E0. rewrite get_set_at_eq by arr_lia.
        rewrite Gj by lia. setoid_replace 2.0 with 2 by reflexivity. ring.
      * rewrite get_set_at_ne by lia. rewrite Gj by lia.
        setoid_replace 2.0 with 2 by reflexivity. ring.
    + rewrite get_set_at_ne by lia.
      destruct (Z.eqb_spec j 0) as [->|N0].
      * rewrite get_set_at_eq by arr_lia. rewrite Gj by lia.
        setoid_replace 2.0 with 2 by reflexivity. ring.
      * rewrite get_set_at_ne by lia. rewrite Gj by lia. ring.
Qed.

Lemma inside_nonempty (d : Domain) (x : Q) :
  wf_domain d -> inside d x -> (2 <= ni d)%Z.
Proof.
  intros Hwf Hin. destruct (XtoL_index d x Hwf Hin). lia.
Qed.

Lemma scatter_pipeline (d : Domain) (w : Particle -> Q)
  (parts : list Particle) (field : list Q) :
  wf_domain d -> (1 <= ni d)%Z -> len field = ni d ->
  Forall (fun p => inside d (pos p)) parts ->
  exists f',
    (field <- memset0 field (ni d) ;;
     field <- foreach parts
                (fun p f => scatter (XtoL d (pos p)) (w p) f) field ;;
     divide_by_cell_volume d field) = Ok f' /\
    len f' = ni d /\
    forall j, (0 <= j < ni d)%Z -> get f' j == snapshot d w parts j.
Proof.
  intros Hwf Hni Hlen Hin.
  rewrite memset0_full by lia. cbn [bind].
  destruct (scatter_all d w Hwf parts (repeat 0 (Z.to_nat (ni d))))
    as (f1 & E1 & L1 & G1); [apply len_repeat; lia | assumption |].
  rewrite E1. cbn [bind].
  destruct (divide_by_cell_volume_ok d f1 Hni L1) as (f2 & E2 & L2 & G2).
  exists f2. split; [exact E2|]. split; [exact L2|].
  intros j Hj. rewrite G2 by assumption. rewrite G1 by assumption.
  rewrite get_repeat by lia. unfold snapshot.
  destruct (Z.eqb_spec j 0) as [E0|N0];
    destruct (Z.eqb_spec j (ni d - 1)) as [E1'|N1]; cbn [orb];
    try (unfold Qdiv; ring).
  (* a grid of one node holds no particle *)
  destruct parts as [|p parts]; [simpl; unfold Qdiv; ring|].
  inversion Hin as [|? ? Hp _]; subst.
  pose proof (inside_nonempty d (pos p) Hwf Hp). lia.
Qed.

Lemma accumulated_perm (d : Domain) (w : Particle -> Q)
  (l1 l2 : list Particle) (j : Z) :
  Permutation l1 l2 -> accumulated d w l1 j == accumulated d w l2 j.
Proof.
  unfold accumulated.
  induction 1 as [|p l l' _ IH|p q l|l l' l'' _ IH1 _ IH2]; simpl.
  - reflexivity.
  - now rewrite IH.
  - ring.
  - now rewrite IH1.
Qed.

Lemma snapshot_perm (d : Domain) (w : Particle -> Q)
  (l1 l2 : list Particle) (j : Z) :
  Permutation l1 l2 -> snapshot d w l1 j == snapshot d w l2 j.
Proof.
  intros H. unfold snapshot. cbv zeta.
  destruct ((j =? 0) || (j =? ni d - 1))%Z;
    rewrite (accumulated_perm d w l1 l2 j H); reflexivity.
Qed.

(** C5. For a population inside the domain, [ScatterSpecies] returns the
    snapshot of the specification: the array is zeroed, every particle
    adds [spwt*(1-di)] to node [i] and [spwt*di] to node [i+1], every node
    is divided by [dx], and nodes [0] and [ni-1] are doubled.  The result
    does not depend on what the array held before the call, nor on the
    order of the particles. *)
Theorem ScatterSpecies_snapshot (d : Domain) (sp : Species) (field : list Q) :
  wf_domain d -> (1 <= ni d)%Z -> len field = ni d ->
  Forall (fun p => inside d (pos p)) (part_list sp) ->
  exists f',
    ScatterSpecies d sp field = Ok f' /\
    len f' = ni d /\
    (forall j, (0 <= j < ni d)%Z ->
               get f' j == snapshot d (fun _ => spwt sp) (part_list sp) j) /\
    (forall field2, len field2 = ni d -> ScatterSpecies d sp field2 = Ok f') /\
    (forall sp2, spwt sp2 = spwt sp ->
                 Permutation (part_list sp) (part_list sp2) ->
                 exists f2, ScatterSpecies d sp2 field = Ok f2 /\
                            forall j, (0 <= j < ni d)%Z ->
                                      get f2 j == get f' j).
Proof.
  intros Hwf Hni Hlen Hin.
  destruct (scatter_pipeline d (fun _ => spwt sp) (part_list sp) field
              Hwf Hni Hlen Hin) as (f' & E & L & G).
  exists f'. split; [exact E|]. split; [exact L|]. split; [exact G|]. split.
  - intros field2 L2. unfold ScatterSpecies in *.
    rewrite memset0_full in * by lia. exact E.
  - intros sp2 Hw Hperm.
    assert (Hin2 : Forall (fun p => inside d (pos p)) (part_list sp2)).
    { rewrite Forall_forall in *. intros p Hp. apply Hin.
      eapply Permutation_in; [apply Permutation_sym; exact Hperm | exact Hp]. }
    destruct (scatter_pipeline d (fun _ => spwt sp2) (part_list sp2) field
                Hwf Hni Hlen Hin2) as (f2 & E2 & L2 & G2).
    exists f2. split; [exact E2|].
    intros j Hj. rewrite G2, G by assumption. rewrite Hw.
    apply snapshot_perm. now apply Permutation_sym.
Qed.

Lemma ScatterSpecies_snapshot_witness :
  let d := make_domain 5 1 0 in
  let sp := mkSpecies [mkParticle 0.25 1 0; mkParticle 3.5 (-1) 1;
                       mkParticle 3.9 1e11 2] 2 1 3 "t" 3 1 3 in
  let field := [7; 7; 7; 7; 7] in
  exists f',
    ScatterSpecies d sp field = Ok f' /\
    len f' = ni d /\
    (forall j, (0 <= j < ni d)%Z ->
               get f' j == snapshot d (fun _ => spwt sp) (part_list sp) j) /\
    (forall field2, len field2 = ni d -> ScatterSpecies d sp field2 = Ok f') /\
    (forall sp2, spwt sp2 = spwt sp ->
                 Permutation (part_list sp) (part_list sp2) ->
                 exists f2, ScatterSpecies d sp2 field = Ok f2 /\
                            forall j, (0 <= j < ni d)%Z ->
                                      get f2 j == get f' j).
Proof.
  apply (ScatterSpecies_snapshot (make_domain 5 1 0)
           (mkSpecies [mkParticle 0.25 1 0; mkParticle 3.5 (-1) 1;
                       mkParticle 3.9 1e11 2] 2 1 3 "t" 3 1 3)
           [7; 7; 7; 7; 7]).
  - unfold wf_domain; simpl. repeat split; reflexivity.
  - simpl; lia.
  - reflexivity.
  - repeat constructor; vm_compute; congruence.
Defined.

(** ** Relaxation solver *)

Lemma sor_sweep_ok (d : Domain) (dx2 : Q) (rho phi : list Q) :
  len phi = ni d -> len rho = ni d ->
  exists phi', sor_sweep d dx2 rho phi = Ok phi' /\ len phi' = ni d.
Proof.
  intros Lp Lr. unfold sor_sweep.
  destruct (Z.le_gt_cases 1 (ni d - 1)) as [Hle|Hgt].
  - apply (for_range_inv (fun _ (p : list Q) => len p = ni d));
      [exact Hle | exact Lp |].
    intros j p Hj Lq. cbv beta. mstep.
    eexists; split; [reflexivity | now rewrite len_set_at].
  - rewrite for_range_empty by lia. eauto.
Qed.

Lemma residual_sum_ok (d : Domain) (dx2 : Q) (rho phi : list Q) :
  len phi = ni d -> len rho = ni d ->
  exists sum, residual_sum d dx2 rho phi = Ok sum.
Proof.
  intros Lp Lr. unfold residual_sum.
  destruct (Z.le_gt_cases 1 (ni d - 1)) as [Hle|Hgt].
  - destruct (for_range_inv (fun _ (_ : Q) => True)
                (fun i sum =>
                   rho_i <- rd rho i ;;
                   phi_l <- rd phi (i - 1)%Z ;;
                   phi_i <- rd phi i ;;
                   phi_r <- rd phi (i + 1)%Z ;;
                   let R := - rho_i / EPS - (phi_l - 2 * phi_i + phi_r) / dx2 in
                   Ok (sum + R * R))
                1 (ni d - 1) 0 Hle I) as (s & E & _).
    + intros j t Hj _. cbv beta. mstep. eauto.
    + eauto.
  - rewrite for_range_empty by lia. eauto.
Qed.

Lemma sweep_total_ok (d : Domain) (dx2 : Q) (rho phi : list Q) :
  len phi = ni d -> len rho = ni d ->
  sor_sweep d dx2 rho phi = Ok (sweep_total d dx2 rho phi) /\
  len (sweep_total d dx2 rho phi) = ni d.
Proof.
  intros Lp Lr. destruct (sor_sweep_ok d dx2 rho phi Lp Lr) as (p & E & L).
  unfold sweep_total. rewrite E. auto.
Qed.

Lemma after_sweeps_ok (d : Domain) (dx2 : Q) (rho : list Q) :
  len rho = ni d ->
  forall (k : nat) (phi : list Q),
    len phi = ni d ->
    sweeps k d dx2 rho phi = Ok (after_sweeps k d dx2 rho phi) /\
    len (after_sweeps k d dx2 rho phi) = ni d.
Proof.
  intros Lr. induction k as [|k IH]; intros phi Lp.
  - simpl. auto.
  - destruct (sweep_total_ok d dx2 rho phi Lp Lr) as [E L].
    cbn [sweeps after_sweeps]. rewrite E. cbn [bind]. apply IH. exact L.
Qed.

Lemma norm_total_ok (sqrt : Q -> Q) (d : Domain) (dx2 : Q)
  (rho phi : list Q) :
  len phi = ni d -> len rho = ni d ->
  L2_norm sqrt d dx2 rho phi = Ok (norm_total sqrt d dx2 rho phi).
Proof.
  intros Lp Lr. unfold norm_total, L2_norm.
  destruct (residual_sum_ok d dx2 rho phi Lp Lr) as (s & E).
  rewrite E. reflexivity.
Qed.

(** The main loop of [SolvePotential], [n] iterations being left and the
    counter being at [it]: it stops at the first sweep whose counter is a
    multiple of 25 and whose residual norm is below the threshold. *)
Lemma sor_loop_spec (sqrt : Q -> Q) (d : Domain) (dx2 : Q) (rho : list Q) :
  len rho = ni d ->
  forall (n : nat) (it : Z) (phi : list Q),
    len phi = ni d ->
    exists b phi',
      sor_loop sqrt n it d dx2 rho phi = Ok (b, phi') /\
      (b = true ->
       exists j, (j < n)%nat /\
         Z.rem (it + Z.of_nat j) 25 = 0%Z /\
         norm_total sqrt d dx2 rho (after_sweeps (S j) d dx2 rho phi) < 1e-4 /\
         (forall j', (j' < j)%nat ->
                     Z.rem (it + Z.of_nat j') 25 = 0%Z ->
                     ~ norm_total sqrt d dx2 rho
                         (after_sweeps (S j') d dx2 rho phi) < 1e-4) /\
         phi' = after_sweeps (S j) d dx2 rho phi) /\
      (b = false ->
       phi' = after_sweeps n d dx2 rho phi /\
       forall j, (j < n)%nat ->
                 Z.rem (it + Z.of_nat j) 25 = 0%Z ->
                 ~ norm_total sqrt d dx2 rho
                     (after_sweeps (S j) d dx2 rho phi) < 1e-4).
Proof.
  intros Lr. induction n as [|n IH]; intros it phi Lp.
  - exists false, phi. split; [reflexivity|]. split; [discriminate|].
    intros _. split; [reflexivity | intros; lia].
  - destruct (sweep_total_ok d dx2 rho phi Lp Lr) as [E L].
    set (phi1 := sweep_total d dx2 rho phi) in *.
    cbn [sor_loop]. rewrite E. cbn [bind].
    assert (Hrec :
              forall b phi',
                sor_loop sqrt n (it + 1) d dx2 rho phi1 = Ok (b, phi') ->
                (Z.rem it 25 = 0%Z ->
                 ~ norm_total sqrt d dx2 rho phi1 < 1e-4) ->
                (b = true ->
                 exists j, (j < n)%nat /\
                   Z.rem (it + 1 + Z.of_nat j) 25 = 0%Z /\
                   norm_total sqrt d dx2 rho
                     (after_sweeps (S j) d dx2 rho phi1) < 1e-4 /\
                   (forall j', (j' < j)%nat ->
                               Z.rem (it + 1 + Z.of_nat j') 25 = 0%Z ->
                               ~ norm_total sqrt d dx2 rho
                                   (after_sweeps (S j') d dx2 rho phi1)
                                 < 1e-4) /\
                   phi' = after_sweeps (S j) d dx2 rho phi1) ->
                (b = false ->
                 phi' = after_sweeps n d dx2 rho phi1 /\
                 forall j, (j < n)%nat ->
                           Z.rem (it + 1 + Z.of_nat j) 25 = 0%Z ->
                           ~ norm_total sqrt d dx2 rho
                               (after_sweeps (S j) d dx2 rho phi1) < 1e-4) ->
                (b = true ->
                 exists j, (j < S n)%nat /\
                   Z.rem (it + Z.of_nat j) 25 = 0%Z /\
                   norm_total sqrt d dx2 rho
                     (after_sweeps (S j) d dx2 rho phi) < 1e-4 /\
                   (forall j', (j' < j)%nat ->
                               Z.rem (it + Z.of_nat j') 25 = 0%Z ->
                               ~ norm_total sqrt d dx2 rho
                                   (after_sweeps (S j') d dx2 rho phi)
                                 < 1e-4) /\
                   phi' = after_sweeps (S j) d dx2 rho phi) /\
                (b = false ->
                 phi' = after_sweeps (S n) d dx2 rho phi /\
                 forall j, (j < S n)%nat ->
                           Z.rem (it + Z.of_nat j) 25 = 0%Z ->
                           ~ norm_total sqrt d dx2 rho
                               (after_sweeps (S j) d dx2 rho phi) < 1e-4)).
    { intros b phi' _ Hfirst Ht Hf. split.
      - intros Hb. destruct (Ht Hb) as (j & Hj & Hr & Hc & Hmin & Hphi).
        exists (S j). split; [lia|]. split.
        { now replace (it + Z.of_nat (S j))%Z with (it + 1 + Z.of_nat j)%Z
            by lia. }
        split; [exact Hc|]. split; [|exact Hphi].
        intros [|j'] Hj' Hr'.
        + replace (it + Z.of_nat 0)%Z with it in Hr' by lia.
          now apply Hfirst.
        + apply Hmin; [lia|].
          now replace (it + 1 + Z.of_nat j')%Z with (it + Z.of_nat (S j'))%Z
            by lia.
      - intros Hb. destruct (Hf Hb) as [Hphi Hnone]. split; [exact Hphi|].
        intros [|j] Hj Hr.
        + replace (it + Z.of_nat 0)%Z with it in Hr by lia.
          now apply Hfirst.
        + apply Hnone; [lia|].
          now replace (it + 1 + Z.of_nat j)%Z with (it + Z.of_nat (S j))%Z
            by lia. }
    destruct (Z.eqb_spec (Z.rem it 25) 0) as [Hrem|Hrem].
    + rewrite (norm_total_ok sqrt d dx2 rho phi1 L Lr). cbn [bind].
      destruct (Qltb (norm_total sqrt d dx2 rho phi1) 1e-4) eqn:Hc.
      * apply Qltb_lt in Hc.
        exists true, phi1. split; [reflexivity|]. split; [|discriminate].
        intros _. exists 0%nat. split; [lia|]. split.
        { now replace (it + Z.of_nat 0)%Z with it by lia. }
        split; [exact Hc|]. split; [intros; lia | reflexivity].
      * assert (Hn : ~ norm_total sqrt d dx2 rho phi1 < 1e-4).
        { intros C. apply Qltb_lt in C. congruence. }
        destruct (IH (it + 1)%Z phi1 L) as (b & phi' & Es & Ht & Hf).
        exists b, phi'. split; [exact Es|].
        apply (Hrec b phi' Es); auto.
    + destruct (IH (it + 1)%Z phi1 L) as (b & phi' & Es & Ht & Hf).
      exists b, phi'. split; [exact Es|].
      apply (Hrec b phi' Es); auto.
Qed.

(** The sum accumulated by the convergence check is the sum of the
    squared residuals over the interior nodes. *)
Lemma residual_sum_spec (d : Domain) (rho phi : list Q) :
  len phi = ni d -> len rho = ni d ->
  residual_sum d (dx d * dx d) rho phi
  = Ok (sum_nodes (Z.to_nat (ni d - 2))
          (fun k => residual d rho phi (k + 1) * residual d rho phi (k + 1))).
Proof.
  intros Lp Lr. unfold residual_sum.
  set (g := fun k => residual d rho phi (k + 1) * residual d rho phi (k + 1)).
  destruct (Z.le_gt_cases 1 (ni d - 1)) as [Hle|Hgt].
  - match goal with
    | |- for_range 1 (ni d - 1) ?body 0 = _ =>
        destruct (for_range_inv
                    (fun j (s : Q) => s = sum_nodes (Z.to_nat (j - 1)) g)
                    body 1 (ni d - 1) 0 Hle) as (s & E & Hs)
    end.
    + reflexivity.
    + intros j s Hj Hs. cbv beta. mstep.
      eexists; split; [reflexivity|]. cbv zeta.
      replace (Z.to_nat (j + 1 - 1)) with (S (Z.to_nat (j - 1))) by lia.
      cbn [sum_nodes]. rewrite <- Hs. unfold g, residual.
      replace (Z.of_nat (Z.to_nat (j - 1)) + 1)%Z with j by lia.
      reflexivity.
    + rewrite E, Hs. do 2 f_equal. lia.
  - rewrite for_range_empty by lia.
    replace (Z.to_nat (ni d - 2)) with 0%nat by lia. reflexivity.
Qed.

Lemma norm_total_spec (sqrt : Q -> Q) (d : Domain) (rho phi : list Q) :
  len phi = ni d -> len rho = ni d ->
  norm_total sqrt d (dx d * dx d) rho phi = residual_norm sqrt d rho phi.
Proof.
  intros Lp Lr. unfold norm_total, L2_norm, residual_norm.
  rewrite (residual_sum_spec d rho phi Lp Lr). reflexivity.
Qed.

(** One sweep of the code is one sweep of the specification. *)
Lemma sor_sweep_spec (d : Domain) (rho phi : list Q) :
  len phi = ni d -> len rho = ni d ->
  sor_step d rho phi (sweep_total d (dx d * dx d) rho phi).
Proof.
  intros Lp Lr. unfold sweep_total, sor_sweep, sor_step.
  destruct (Z.le_gt_cases 1 (ni d - 1)) as [Hle|Hgt].
  - match goal with
    | |- context [for_range 1 (ni d - 1) ?body phi] =>
        destruct (for_range_inv
                    (fun j (p : list Q) =>
                       len p = ni d /\
                       (forall i, (j <= i < ni d)%Z -> get p i = get phi i) /\
                       get p 0 = get phi 0 /\
                       forall i, (1 <= i < j)%Z ->
                                 get p i
                                 = get phi i
                                   + 1.4 * (0.5 * (get p (i - 1)
                                                   + get phi (i + 1)
                                                   + dx d * dx d * get rho i
                                                     / EPS)
                                            - get phi i))
                    body 1 (ni d - 1) phi Hle)
        as (p & E & L & Hrest & H0 & Hdone)
    end.
    + repeat split; auto. intros; lia.
    + intros j p Hj (L & Hrest & H0 & Hdone). cbv beta. mstep.
      eexists; split; [reflexivity|]. rewrite len_set_at.
      split; [exact L|]. split; [|split].
      * intros i Hi. rewrite get_set_at_ne by lia. apply Hrest; lia.
      * rewrite get_set_at_ne by lia. exact H0.
      * intros i Hi. destruct (Z.eq_dec i j) as [->|N].
        -- rewrite get_set_at_eq by lia. rewrite get_set_at_ne by lia.
           rewrite (Hrest j), (Hrest (j + 1)%Z) by lia. reflexivity.
        -- rewrite !get_set_at_ne by lia. apply Hdone; lia.
    + rewrite E. split; [congruence|].
      intros i Hi. unfold boundary_node.
      destruct (Z.eqb_spec i 0) as [->|N0]; [exact H0|].
      destruct (Z.eqb_spec i (ni d - 1)) as [->|N1];
        [apply Hrest; lia|].
      cbn [orb]. cbv zeta. apply Hdone; lia.
  - rewrite for_range_empty by lia. split; [reflexivity|].
    intros i Hi. unfold boundary_node.
    destruct (Z.eqb_spec i 0) as [->|N0]; [reflexivity|].
    destruct (Z.eqb_spec i (ni d - 1)) as [->|N1]; [reflexivity | lia].
Qed.

Lemma after_sweeps_S (d : Domain) (dx2 : Q) (rho : list Q) :
  forall (k : nat) (phi : list Q),
    after_sweeps (S k) d dx2 rho phi
    = sweep_total d dx2 rho (after_sweeps k d dx2 rho phi).
Proof.
  induction k as [|k IH]; intros phi; [reflexivity|].
  cbn [after_sweeps] in *. apply IH.
Qed.

(** C4. [SolvePotential] returns [true] if and only if, at one of the
    checks made after the sweeps whose counter [it] is a multiple of 25,
    [0 <= it < 200000], the normalized residual norm is below [1e-4]; it
    then returns at the first such check, with the potential of that
    moment.  Otherwise it returns [false], without any fault, and the
    potential is the one left by the 200000 sweeps.  Here [state k] is the
    potential after [k] sweeps: [state 0] is the input with its two
    boundary nodes set to 0, each [state (k+1)] comes from [state k] by one
    over-relaxation sweep ([sor_step]), and [norm k] is
    [sqrt(sum of R[i]^2 over the interior nodes)/ni] with
    [R[i] = -rho[i]/EPS - (phi[i-1] - 2*phi[i] + phi[i+1])/dx^2]
    ([residual_norm]) taken at [state k]. *)
Theorem SolvePotential_result (sqrt : Q -> Q) (d : Domain) (phi rho : list Q) :
  (1 <= ni d)%Z -> len phi = ni d -> len rho = ni d ->
  let dx2 := dx d * dx d in
  let phi0 := set_at (set_at phi (Z.to_nat (ni d - 1)) 0) (Z.to_nat 0) 0 in
  let state := fun k => after_sweeps k d dx2 rho phi0 in
  let norm := fun k => norm_total sqrt d dx2 rho (state k) in
  (forall i, (0 <= i < ni d)%Z ->
             get (state 0%nat) i
             = if boundary_node (ni d) i then 0 else get phi i) /\
  (forall k, sweeps k d dx2 rho phi0 = Ok (state k) /\
             L2_norm sqrt d dx2 rho (state k) = Ok (norm k) /\
             len (state k) = ni d /\
             sor_step d rho (state k) (state (S k)) /\
             norm k = residual_norm sqrt d rho (state k)) /\
  exists b phi',
    SolvePotential sqrt d phi rho = Ok (b, phi') /\
    (b = true <->
     exists it, (0 <= it < 200000)%Z /\ Z.rem it 25 = 0%Z /\
                norm (Z.to_nat (it + 1)) < 1e-4) /\
    (b = true ->
     exists it, (0 <= it < 200000)%Z /\ Z.rem it 25 = 0%Z /\
                norm (Z.to_nat (it + 1)) < 1e-4 /\
                (forall it', (0 <= it' < it)%Z -> Z.rem it' 25 = 0%Z ->
                             ~ norm (Z.to_nat (it' + 1)) < 1e-4) /\
                phi' = state (Z.to_nat (it + 1))) /\
    (b = false -> phi' = state (Z.to_nat 200000)).
Proof.
  intros Hni Lp Lr dx2 phi0 state norm.
  assert (L0 : len phi0 = ni d) by (unfold phi0; now rewrite !len_set_at).
  split; [|split].
  - intros i Hi. unfold state. cbn [after_sweeps].
    unfold phi0, boundary_node.
    destruct (Z.eqb_spec i 0) as [->|N0].
    + now rewrite get_set_at_eq by arr_lia.
    + rewrite get_set_at_ne by lia.
      destruct (Z.eqb_spec i (ni d - 1)) as [->|N1].
      * now rewrite get_set_at_eq by lia.
      * rewrite get_set_at_ne by lia. reflexivity.
  - intros k. destruct (after_sweeps_ok d dx2 rho Lr k phi0 L0) as [E L].
    split; [exact E|]. split; [now apply norm_total_ok|].
    split; [exact L|]. split.
    + unfold state. rewrite after_sweeps_S. now apply sor_sweep_spec.
    + now apply norm_total_spec.
  - unfold SolvePotential. fold dx2. mstep. fold phi0.
    assert (HN : Z.of_nat (Z.to_nat 200000) = 200000%Z) by lia.
    revert HN. generalize (Z.to_nat 200000). intros N HN.
    destruct (sor_loop_spec sqrt d dx2 rho Lr N 0%Z phi0 L0)
      as (b & phi' & E & Ht & Hf).
    assert (Hfirst :
              b = true ->
              exists it, (0 <= it < 200000)%Z /\ Z.rem it 25 = 0%Z /\
                norm (Z.to_nat (it + 1)) < 1e-4 /\
                (forall it', (0 <= it' < it)%Z -> Z.rem it' 25 = 0%Z ->
                             ~ norm (Z.to_nat (it' + 1)) < 1e-4) /\
                phi' = state (Z.to_nat (it + 1))).
    { intros Hb. destruct (Ht Hb) as (j & Hj & Hr & Hc & Hmin & Hphi).
      exists (Z.of_nat j).
      replace (Z.to_nat (Z.of_nat j + 1)) with (S j) by lia.
      split; [lia|]. split; [exact Hr|]. split; [exact Hc|].
      split; [|exact Hphi].
      intros it' Hit' Hr'.
      replace (Z.to_nat (it' + 1)) with (S (Z.to_nat it')) by lia.
      apply Hmin; [lia|].
      now replace (0 + Z.of_nat (Z.to_nat it'))%Z with it' by lia. }
    exists b, phi'. split; [exact E|]. split; [|split].
    + split.
      * intros Hb. destruct (Hfirst Hb) as (it & H1 & H2 & H3 & _).
        exists it. auto.
      * intros (it & Hit & Hr & Hc).
        destruct b; [reflexivity|]. exfalso.
        destruct (Hf eq_refl) as [_ Hnone].
        apply (Hnone (Z.to_nat it)); [lia | |].
        -- now replace (0 + Z.of_nat (Z.to_nat it))%Z with it by lia.
        -- now replace (S (Z.to_nat it)) with (Z.to_nat (it + 1)) by lia.
    + exact Hfirst.
    + intros Hb. destruct (Hf Hb) as [Hphi _]. exact Hphi.
Qed.

Lemma SolvePotential_result_witness :
  let sqrt := fun x : Q => x in
  let d := make_domain 5 1 0 in
  let phi := [1; 2; 3; 4; 5] in
  let rho := [0; 0; 0; 0; 0] in
  let dx2 := dx d * dx d in
  let phi0 := set_at (set_at phi (Z.to_nat (ni d - 1)) 0) (Z.to_nat 0) 0 in
  let state := fun k => after_sweeps k d dx2 rho phi0 in
  let norm := fun k => norm_total sqrt d dx2 rho (state k) in
  (forall i, (0 <= i < ni d)%Z ->
             get (state 0%nat) i
             = if boundary_node (ni d) i then 0 else get phi i) /\
  (forall k, sweeps k d dx2 rho phi0 = Ok (state k) /\
             L2_norm sqrt d dx2 rho (state k) = Ok (norm k) /\
             len (state k) = ni d /\
             sor_step d rho (state k) (state (S k)) /\
             norm k = residual_norm sqrt d rho (state k)) /\
  exists b phi',
    SolvePotential sqrt d phi rho = Ok (b, phi') /\
    (b = true <->
     exists it, (0 <= it < 200000)%Z /\ Z.rem it 25 = 0%Z /\
                norm (Z.to_nat (it + 1)) < 1e-4) /\
    (b = true ->
     exists it, (0 <= it < 200000)%Z /\ Z.rem it 25 = 0%Z /\
                norm (Z.to_nat (it + 1)) < 1e-4 /\
                (forall it', (0 <= it' < it)%Z -> Z.rem it' 25 = 0%Z ->
                             ~ norm (Z.to_nat (it' + 1)) < 1e-4) /\
                phi' = state (Z.to_nat (it + 1))) /\
    (b = false -> phi' = state (Z.to_nat 200000)).
Proof.
  apply (SolvePotential_result (fun x : Q => x) (make_domain 5 1 0)
           [1; 2; 3; 4; 5] [0; 0; 0; 0; 0]);
    [simpl; lia | reflexivity | reflexivity].
Defined.

Lemma simulation_deterministic_witness :
  run unit (fun _ => tt) (fun g => (0.5, g)) (fun x => x)
    (fun _ => 0) (fun _ => 0) (fun _ => 0) 1
  = run nat (fun _ => 0%nat) (fun g => (0.5, S g)) (fun x => x)
      (fun _ => 1) (fun _ => 2) (fun _ => 3) 1.
Proof.
  apply (simulation_deterministic unit nat (fun _ => tt) (fun _ => 0%nat)
           (fun g => (0.5, g)) (fun g => (0.5, S g)) (fun x => x)
           (fun _ => 0) (fun _ => 0) (fun _ => 0)
           (fun _ => 1) (fun _ => 2) (fun _ => 3)).
  intros k. reflexivity.
Defined.

(** ** Direct solver: the algebra of the elimination *)

Lemma pivot_range (t : Q) :
  -1 < t -> t <= 0 ->
  ~ (-2 - t * 1) == 0 /\ -1 < 1 / (-2 - t * 1) /\ 1 / (-2 - t * 1) <= 0.
Proof.
  intros Hlo Hhi.
  assert (Hm : 0 < 2 + t) by lra.
  assert (Hid : ~ (-2 - t * 1) == 0) by (intros C; lra).
  assert (E : 1 / (-2 - t * 1) == - (1 / (2 + t))).
  { field. split; [intros C; lra | intros C; lra]. }
  assert (P : 0 < 1 / (2 + t)).
  { unfold Qdiv. rewrite Qmult_1_l. now apply Qinv_lt_0_compat. }
  assert (U : 1 / (2 + t) < 1).
  { apply Qlt_shift_div_r; [exact Hm | lra]. }
  split; [exact Hid|]. rewrite E. split; lra.
Qed.

Lemma boundary_first (n : Z) : boundary_node n 0 = true.
Proof. reflexivity. Qed.

Lemma boundary_last (n : Z) : boundary_node n (n - 1) = true.
Proof. unfold boundary_node. rewrite Z.eqb_refl. apply orb_true_r. Qed.

Lemma boundary_interior (n i : Z) :
  (0 < i < n - 1)%Z -> boundary_node n i = false.
Proof.
  intros H. unfold boundary_node.
  destruct (Z.eqb_spec i 0); [lia|].
  destruct (Z.eqb_spec i (n - 1)); [lia | reflexivity].
Qed.

Section Elimination.

(** [r] is the right-hand side, [cf] and [xf] are the super-diagonal and
    the right-hand side after the forward pass, [y] is the result of the
    back substitution; the hypotheses are the assignments of the two
    passes. *)
Variable n : Z.
Variables r cf xf y : Z -> Q.

Hypothesis n_pos : (1 <= n)%Z.
Hypothesis r_first : r 0%Z == 0.
Hypothesis r_last : r (n - 1)%Z == 0.
Hypothesis cf_first : cf 0%Z = c_of n 0 / b_of n 0.
Hypothesis xf_first : xf 0%Z = r 0%Z / b_of n 0.
Hypothesis forward :
  forall i, (1 <= i < n)%Z ->
            cf i = c_of n i / (b_of n i - cf (i - 1)%Z * a_of n i) /\
            xf i = (r i - xf (i - 1)%Z * a_of n i)
                   / (b_of n i - cf (i - 1)%Z * a_of n i).
Hypothesis y_end : y (n - 1)%Z = xf (n - 1)%Z.
Hypothesis backward :
  forall i, (0 <= i <= n - 2)%Z -> y i = xf i - cf i * y (i + 1)%Z.

Lemma forward_interior (i : Z) :
  (0 < i < n - 1)%Z ->
  cf i = 1 / (-2 - cf (i - 1)%Z * 1) /\
  xf i = (r i - xf (i - 1)%Z * 1) / (-2 - cf (i - 1)%Z * 1).
Proof.
  intros Hi. destruct (forward i) as [Ec Ex]; [lia|].
  unfold a_of, b_of, c_of in Ec, Ex.
  rewrite (boundary_interior n i Hi) in Ec, Ex. auto.
Qed.

Lemma cf_range_nat (k : nat) :
  (Z.of_nat k <= n - 2)%Z -> -1 < cf (Z.of_nat k) /\ cf (Z.of_nat k) <= 0.
Proof.
  induction k as [|k IH]; intros Hk.
  - change (Z.of_nat 0) with 0%Z. rewrite cf_first.
    unfold c_of, b_of. rewrite boundary_first.
    split; [reflexivity | discriminate].
  - destruct IH as [Hlo Hhi]; [lia|].
    destruct (forward_interior (Z.of_nat (S k))) as [Ec _]; [lia|].
    replace (Z.of_nat (S k) - 1)%Z with (Z.of_nat k) in Ec by lia.
    rewrite Ec. apply (pivot_range _ Hlo Hhi).
Qed.

Lemma cf_range (i : Z) : (0 <= i <= n - 2)%Z -> -1 < cf i /\ cf i <= 0.
Proof.
  intros Hi. replace i with (Z.of_nat (Z.to_nat i)) by lia.
  apply cf_range_nat. lia.
Qed.

Lemma y_first : y 0%Z == 0.
Proof.
  assert (X0 : xf 0%Z == 0).
  { rewrite xf_first, r_first. unfold b_of. rewrite boundary_first.
    reflexivity. }
  destruct (Z.eq_dec n 1) as [E|N].
  - replace 0%Z with (n - 1)%Z at 1 by lia. rewrite y_end.
    replace (n - 1)%Z with 0%Z by lia. exact X0.
  - rewrite (backward 0%Z) by lia. rewrite X0, cf_first.
    unfold c_of, b_of. rewrite boundary_first. unfold Qdiv. ring.
Qed.

Lemma y_last : y (n - 1)%Z == 0.
Proof.
  rewrite y_end.
  destruct (Z.eq_dec n 1) as [E|N].
  - replace (n - 1)%Z with 0%Z by lia.
    rewrite xf_first, r_first. unfold b_of. rewrite boundary_first.
    reflexivity.
  - destruct (forward (n - 1)%Z) as [_ Ex]; [lia|].
    rewrite Ex, r_last. unfold a_of. rewrite boundary_last.
    unfold Qdiv. ring.
Qed.

(** The interior rows of the system are satisfied. *)
Lemma interior_row (i : Z) :
  (0 < i < n - 1)%Z -> y (i - 1)%Z - 2 * y i + y (i + 1)%Z == r i.
Proof.
  intros Hi.
  destruct (forward_interior i Hi) as [Ec Ex].
  destruct (cf_range (i - 1)%Z) as [Hlo Hhi]; [lia|].
  destruct (pivot_range _ Hlo Hhi) as [Hid _].
  pose proof (backward (i - 1)%Z) as B1. pose proof (backward i) as B2.
  replace (i - 1 + 1)%Z with i in B1 by lia.
  rewrite B1 by lia. rewrite B2 by lia. rewrite Ex, Ec.
  field. intros C. apply Hid. rewrite <- C. ring.
Qed.

Lemma xf_zero_nat :
  (forall i, (0 <= i < n)%Z -> r i == 0) ->
  forall k : nat, (Z.of_nat k < n)%Z -> xf (Z.of_nat k) == 0.
Proof.
  intros Hr. induction k as [|k IH]; intros Hk.
  - change (Z.of_nat 0) with 0%Z. rewrite xf_first, r_first.
    unfold Qdiv. ring.
  - destruct (forward (Z.of_nat (S k))) as [_ Ex]; [lia|].
    replace (Z.of_nat (S k) - 1)%Z with (Z.of_nat k) in Ex by lia.
    rewrite Ex, IH by lia. rewrite (Hr (Z.of_nat (S k))) by lia.
    unfold Qdiv. ring.
Qed.

Lemma y_zero_nat :
  (forall i, (0 <= i < n)%Z -> r i == 0) ->
  forall m : nat, (Z.of_nat m <= n - 1)%Z -> y (n - 1 - Z.of_nat m)%Z == 0.
Proof.
  intros Hr. induction m as [|m IH]; intros Hm.
  - replace (n - 1 - Z.of_nat 0)%Z with (n - 1)%Z by lia. apply y_last.
  - rewrite backward by lia.
    replace (n - 1 - Z.of_nat (S m) + 1)%Z with (n - 1 - Z.of_nat m)%Z by lia.
    rewrite IH by lia.
    replace (n - 1 - Z.of_nat (S m))%Z
      with (Z.of_nat (Z.to_nat (n - 1 - Z.of_nat (S m)))) by lia.
    rewrite (xf_zero_nat Hr) by lia. ring.
Qed.

(** A null right-hand side gives the null solution. *)
Lemma y_zero :
  (forall i, (0 <= i < n)%Z -> r i == 0) ->
  forall i, (0 <= i < n)%Z -> y i == 0.
Proof.
  intros Hr i Hi.
  replace i with (n - 1 - Z.of_nat (Z.to_nat (n - 1 - i)))%Z by lia.
  apply (y_zero_nat Hr). lia.
Qed.

End Elimination.

(** ** Direct solver: the two passes *)

Lemma forward_pass_ok (n : Z) (a b c x : list Q) :
  (1 <= n)%Z -> len a = n -> len b = n -> len c = n -> len x = n ->
  exists cf xf,
    forward_pass n a b c x = Ok (cf, xf) /\
    len cf = n /\ len xf = n /\
    get cf 0 = get c 0 / get b 0 /\
    get xf 0 = get x 0 / get b 0 /\
    forall i, (1 <= i < n)%Z ->
              get cf i = get c i / (get b i - get cf (i - 1) * get a i) /\
              get xf i = (get x i - get xf (i - 1) * get a i)
                         / (get b i - get cf (i - 1) * get a i).
Proof.
  intros Hn La Lb Lc Lx. unfold forward_pass. mstep.
  set (c1 := set_at c (Z.to_nat 0) (get c 0 / get b 0)).
  set (x1 := set_at x (Z.to_nat 0) (get x 0 / get b 0)).
  set (I := fun (k : Z) (t : list Q * list Q) =>
              let '(cc, xx) := t in
              len cc = n /\ len xx = n /\
              (forall i, (k <= i < n)%Z -> (1 <= i)%Z ->
                         get cc i = get c i /\ get xx i = get x i) /\
              get cc 0 = get c 0 / get b 0 /\
              get xx 0 = get x 0 / get b 0 /\
              forall i, (1 <= i < k)%Z ->
                        get cc i
                        = get c i / (get b i - get cc (i - 1) * get a i) /\
                        get xx i
                        = (get x i - get xx (i - 1) * get a i)
                          / (get b i - get cc (i - 1) * get a i)).
  match goal with
  | |- exists cf xf, for_range 1 n ?body _ = _ /\ _ =>
      destruct (for_range_inv I body 1 n (c1, x1)) as ([cf xf] & E & HI)
  end.
  - lia.
  - unfold I, c1, x1. rewrite !len_set_at.
    repeat split; try assumption;
      try (rewrite get_set_at_ne by lia; reflexivity);
      try (rewrite get_set_at_eq by lia; reflexivity); lia.
  - intros k [cc xx] Hk (Lcc & Lxx & Hrest & Hc0 & Hx0 & Hdone). cbv beta iota.
    mstep. eexists; split; [reflexivity|]. unfold I.
    rewrite !len_set_at.
    destruct (Hrest k) as [Eck Exk]; [lia | lia |].
    split; [assumption|]. split; [assumption|].
    split; [|split; [|split]].
    + intros i Hi Hi1. rewrite !get_set_at_ne by lia. apply Hrest; lia.
    + rewrite get_set_at_ne by lia. exact Hc0.
    + rewrite get_set_at_ne by lia. exact Hx0.
    + intros i Hi. destruct (Z.eq_dec i k) as [->|N].
      * rewrite !get_set_at_eq by lia.
        rewrite !(get_set_at_ne _ k (k - 1)) by lia.
        rewrite Eck, Exk. split; reflexivity.
      * rewrite !(get_set_at_ne _ k i) by lia.
        rewrite !(get_set_at_ne _ k (i - 1)) by lia.
        apply Hdone; lia.
  - destruct HI as (Lcf & Lxf & _ & Hc0 & Hx0 & Hdone).
    exists cf, xf. repeat split; try assumption; apply Hdone; assumption.
Qed.

Lemma back_substitute_ok (n : Z) (c x : list Q) :
  (1 <= n)%Z -> len c = n -> len x = n ->
  exists y,
    back_substitute n c x = Ok y /\ len y = n /\
    get y (n - 1) = get x (n - 1) /\
    forall i, (0 <= i <= n - 2)%Z ->
              get y i = get x i - get c i * get y (i + 1).
Proof.
  intros Hn Lc Lx. unfold back_substitute.
  destruct (for_range_down_inv
              (fun (k : Z) (yy : list Q) =>
                 len yy = n /\
                 (forall i, (0 <= i <= k)%Z -> get yy i = get x i) /\
                 get yy (n - 1) = get x (n - 1) /\
                 forall i, (k < i <= n - 2)%Z ->
                           get yy i = get x i - get c i * get yy (i + 1))
              (fun i x =>
                 x_i <- rd x i ;;
                 c_i <- rd c i ;;
                 x_n <- rd x (i + 1)%Z ;;
                 wr x i (x_i - c_i * x_n))
              (n - 2) 0 x) as (y & E & Ly & _ & Hend & Hrel).
  - lia.
  - repeat split; auto. intros; lia.
  - intros j yy Hj (Lyy & Hlow & Hend & Hrel). cbv beta. mstep.
    eexists; split; [reflexivity|]. rewrite len_set_at.
    split; [assumption|]. split; [|split].
    + intros i Hi. rewrite get_set_at_ne by lia. apply Hlow; lia.
    + rewrite get_set_at_ne by lia. exact Hend.
    + intros i Hi. destruct (Z.eq_dec i j) as [->|N].
      * rewrite get_set_at_eq by lia. rewrite get_set_at_ne by lia.
        rewrite (Hlow j) by lia. reflexivity.
      * rewrite !get_set_at_ne by lia. apply Hrel; lia.
  - exists y. repeat split; try assumption.
    intros i Hi. apply Hrel; lia.
Qed.

Lemma rhs_ok (d : Domain) (x rho : list Q) :
  (1 <= ni d)%Z -> len x = ni d -> len rho = ni d ->
  exists x1,
    (x <- for_range 1 (ni d - 1)
            (fun i x => rho_i <- rd rho i ;;
                        wr x i (- rho_i * (dx d * dx d) / EPS)) x ;;
     x <- wr x 0 0 ;;
     wr x (ni d - 1)%Z 0) = Ok x1 /\
    len x1 = ni d /\
    forall i, (0 <= i < ni d)%Z -> get x1 i = rhs_of d rho i.
Proof.
  intros Hn Lx Lr.
  set (I := fun (k : Z) (xx : list Q) =>
              len xx = ni d /\
              forall i, (1 <= i < k)%Z ->
                        get xx i = - get rho i * (dx d * dx d) / EPS).
  assert (Hloop : exists x1,
             for_range 1 (ni d - 1)
               (fun i x => rho_i <- rd rho i ;;
                           wr x i (- rho_i * (dx d * dx d) / EPS)) x = Ok x1
             /\ I (Z.max 1 (ni d - 1)) x1).
  { destruct (Z.le_gt_cases 1 (ni d - 1)) as [Hle|Hgt].
    - replace (Z.max 1 (ni d - 1)) with (ni d - 1)%Z by lia.
      apply for_range_inv; [exact Hle | split; [assumption | intros; lia] |].
      intros j xx Hj [Lxx G]. cbv beta. mstep.
      eexists; split; [reflexivity|]. split; [now rewrite len_set_at|].
      intros i Hi. destruct (Z.eq_dec i j) as [->|N].
      + now rewrite get_set_at_eq by lia.
      + rewrite get_set_at_ne by lia. apply G; lia.
    - rewrite for_range_empty by lia. eexists; split; [reflexivity|].
      split; [assumption | intros; lia]. }
  destruct Hloop as (x1 & E & L1 & G1). rewrite E. cbn [bind]. mstep.
  eexists; split; [reflexivity|]. split; [now rewrite !len_set_at|].
  intros i Hi. unfold rhs_of, boundary_node.
  destruct (Z.eqb_spec i (ni d - 1)) as [->|N1].
  - rewrite get_set_at_eq by arr_lia. now rewrite orb_true_r.
  - rewrite get_set_at_ne by lia.
    destruct (Z.eqb_spec i 0) as [->|N0].
    + now rewrite get_set_at_eq by arr_lia.
    + rewrite get_set_at_ne by lia. cbn [orb]. apply G1; lia.
Qed.

Lemma EPS_nonzero : ~ EPS == 0.
Proof. unfold EPS. intros C. discriminate C. Qed.

(** What [SolvePotentialDirect] returns, in terms of the assignments of
    its two passes. *)
Lemma SolvePotentialDirect_passes (ua ub uc : Z -> Q) (d : Domain)
  (x rho : list Q) :
  (1 <= ni d)%Z -> len x = ni d -> len rho = ni d ->
  exists cf xf y,
    SolvePotentialDirect ua ub uc d x rho = Ok (true, y) /\
    len y = ni d /\
    get cf 0 = c_of (ni d) 0 / b_of (ni d) 0 /\
    get xf 0 = rhs_of d rho 0 / b_of (ni d) 0 /\
    (forall i, (1 <= i < ni d)%Z ->
               get cf i = c_of (ni d) i
                          / (b_of (ni d) i - get cf (i - 1) * a_of (ni d) i) /\
               get xf i = (rhs_of d rho i - get xf (i - 1) * a_of (ni d) i)
                          / (b_of (ni d) i - get cf (i - 1) * a_of (ni d) i)) /\
    get y (ni d - 1) = get xf (ni d - 1) /\
    (forall i, (0 <= i <= ni d - 2)%Z ->
               get y i = get xf i - get cf i * get y (i + 1)).
Proof.
  intros Hn Lx Lr. unfold SolvePotentialDirect.
  destruct (set_coefficients_ok ua ub uc (ni d) Hn)
    as (a & b & c & Ec & La & Lb & Lc & G).
  rewrite Ec. cbn [bind].
  destruct (rhs_ok d x rho Hn Lx Lr) as (x1 & E1 & L1 & G1).
  apply bind_Ok in E1. destruct E1 as (x2 & E2 & E1).
  apply bind_Ok in E1. destruct E1 as (x3 & E3 & E1).
  rewrite E2. cbn [bind]. rewrite E3. cbn [bind]. rewrite E1. cbn [bind].
  destruct (forward_pass_ok (ni d) a b c x1 Hn La Lb Lc L1)
    as (cf & xf & Ef & Lcf & Lxf & Hc0 & Hx0 & Hfw).
  rewrite Ef. cbn [bind].
  destruct (back_substitute_ok (ni d) cf xf Hn Lcf Lxf)
    as (y & Eb & Ly & Hend & Hbw).
  rewrite Eb. cbn [bind].
  exists cf, xf, y. split; [reflexivity|]. split; [exact Ly|].
  destruct (G 0%Z) as (_ & Gb0 & Gc0); [lia|].
  split; [now rewrite Hc0, Gb0, Gc0|].
  split; [now rewrite Hx0, Gb0, G1 by lia|].
  split; [|split; [exact Hend | exact Hbw]].
  intros i Hi. destruct (Hfw i Hi) as [H1 H2].
  destruct (G i) as (Ga & Gb & Gc); [lia|].
  rewrite H1, H2, Ga, Gb, Gc, G1 by lia. split; reflexivity.
Qed.

(** C3. Over exact arithmetic, the potential returned by
    [SolvePotentialDirect] is zero at the two boundary nodes and satisfies
    the discrete Poisson equation at every interior node, whatever [rho]
    is; for a null [rho] it is null everywhere. *)
Theorem SolvePotentialDirect_solves (ua ub uc : Z -> Q) (d : Domain)
  (x rho : list Q) :
  (1 <= ni d)%Z -> ~ dx d == 0 -> len x = ni d -> len rho = ni d ->
  exists phi',
    SolvePotentialDirect ua ub uc d x rho = Ok (true, phi') /\
    len phi' = ni d /\
    get phi' 0 == 0 /\
    get phi' (ni d - 1) == 0 /\
    (forall i, (0 < i < ni d - 1)%Z ->
               - (get phi' (i - 1) - 2 * get phi' i + get phi' (i + 1))
                 / (dx d * dx d)
               == get rho i / EPS) /\
    ((forall i, (0 <= i < ni d)%Z -> get rho i == 0) ->
     forall i, (0 <= i < ni d)%Z -> get phi' i == 0).
Proof.
  intros Hn Hdx Lx Lr.
  destruct (SolvePotentialDirect_passes ua ub uc d x rho Hn Lx Lr)
    as (cf & xf & y & E & Ly & Hc0 & Hx0 & Hfw & Hend & Hbw).
  assert (R0 : rhs_of d rho 0 == 0).
  { unfold rhs_of. rewrite boundary_first. reflexivity. }
  assert (Rn : rhs_of d rho (ni d - 1) == 0).
  { unfold rhs_of. rewrite boundary_last. reflexivity. }
  exists y. split; [exact E|]. split; [exact Ly|].
  split; [|split; [|split]].
  - apply (y_first (ni d) (rhs_of d rho) (get cf) (get xf) (get y));
      assumption.
  - apply (y_last (ni d) (rhs_of d rho) (get cf) (get xf) (get y));
      assumption.
  - intros i Hi.
    assert (Row : get y (i - 1) - 2 * get y i + get y (i + 1)
                  == rhs_of d rho i).
    { apply (interior_row (ni d) (rhs_of d rho) (get cf) (get xf) (get y));
        assumption. }
    rewrite Row. unfold rhs_of. rewrite (boundary_interior _ _ Hi).
    field. split; [exact EPS_nonzero | exact Hdx].
  - intros Hzero.
    apply (y_zero (ni d) (rhs_of d rho) (get cf) (get xf) (get y));
      try assumption.
    intros i Hi. unfold rhs_of.
    destruct (boundary_node (ni d) i); [reflexivity|].
    rewrite (Hzero i Hi). unfold Qdiv. ring.
Qed.

Lemma SolvePotentialDirect_solves_witness :
  let d := make_domain 5 1 0 in
  let rho := [0; 0; EPS; 0; 0] in
  exists phi',
    SolvePotentialDirect (fun _ => 9) (fun _ => 8) (fun _ => 7) d
      [1; 2; 3; 4; 5] rho = Ok (true, phi') /\
    len phi' = ni d /\
    get phi' 0 == 0 /\
    get phi' (ni d - 1) == 0 /\
    (forall i, (0 < i < ni d - 1)%Z ->
               - (get phi' (i - 1) - 2 * get phi' i + get phi' (i + 1))
                 / (dx d * dx d)
               == get rho i / EPS) /\
    ((forall i, (0 <= i < ni d)%Z -> get rho i == 0) ->
     forall i, (0 <= i < ni d)%Z -> get phi' i == 0).
Proof.
  apply (SolvePotentialDirect_solves (fun _ => 9) (fun _ => 8) (fun _ => 7)
           (make_domain 5 1 0) [1; 2; 3; 4; 5] [0; 0; EPS; 0; 0]).
  - simpl; lia.
  - simpl. intros C. discriminate C.
  - reflexivity.
  - reflexivity.
Defined.

(** * Further properties of the code *)

(** ** Faults of scatter and gather *)

Lemma addressable_dec (field : list Q) (lc : Q) :
  {addressable field lc} + {~ addressable field lc}.
Proof.
  unfold addressable.
  destruct (Z_le_dec 0 (Qtrunc lc)); [|right; tauto].
  destruct (Z_lt_dec (Qtrunc lc + 1) (len field)); [left | right]; tauto.
Qed.

Lemma gather_fault (lc : Q) (field : list Q) :
  ~ addressable field lc -> gather lc field = Fail OutOfBounds.
Proof.
  intros H. unfold gather.
  destruct (Z_le_dec 0 (Qtrunc lc)) as [H0|H0].
  - destruct (Z_lt_dec (Qtrunc lc) (len field)) as [H1|H1].
    + rewrite rd_get by lia. cbn [bind].
      rewrite rd_fault; [reflexivity|]. unfold addressable in H. lia.
    + rewrite rd_fault by lia. reflexivity.
  - rewrite rd_fault by lia. reflexivity.
Qed.

Lemma scatter_fault (lc value : Q) (field : list Q) :
  ~ addressable field lc -> scatter lc value field = Fail OutOfBounds.
Proof.
  intros H. unfold scatter.
  destruct (Z_le_dec 0 (Qtrunc lc)) as [H0|H0].
  - destruct (Z_lt_dec (Qtrunc lc) (len field)) as [H1|H1].
    + mstep. rewrite rd_fault; [reflexivity|].
      rewrite len_set_at. unfold addressable in H. lia.
    + rewrite rd_fault by lia. reflexivity.
  - rewrite rd_fault by lia. reflexivity.
Qed.

(** Truncation is toward zero: a coordinate in [(-1, 0)] is sent to node
    0, as a coordinate in [[0, 1)] is. *)
Lemma Qtrunc_neg_iff (q : Q) : (0 <= Qtrunc q)%Z <-> -1 < q.
Proof.
  destruct q as [n dn]. unfold Qtrunc, Qlt. cbn [Qnum Qden].
  destruct (Z_lt_dec n 0) as [Hn|Hn].
  - assert (E : Z.quot n (Z.pos dn) = (- Z.quot (- n) (Z.pos dn))%Z).
    { rewrite <- Z.quot_opp_l by lia. f_equal. lia. }
    assert (P : (0 <= Z.quot (- n) (Z.pos dn))%Z) by (apply Z.quot_pos; lia).
    pose proof (Z.quot_small_iff (- n) (Z.pos dn) ltac:(lia)) as S.
    split; intros H.
    + assert (Z0 : Z.quot (- n) (Z.pos dn) = 0%Z) by lia.
      apply S in Z0. lia.
    + assert (Z0 : Z.quot (- n) (Z.pos dn) = 0%Z) by (apply S; lia).
      lia.
  - split; intros _; [lia | apply Z.quot_pos; lia].
Qed.

(** X1. [scatter] and [gather] return exactly when the two nodes they address
    exist: the coordinate is above -1 (truncation sends [(-1, 0)] to node
    0) and node [(int)lc + 1] is in the array; otherwise they fault with an
    access out of bounds. *)
Theorem scatter_gather_faults (lc value : Q) (field : list Q) :
  ((exists f', scatter lc value field = Ok f') <->
   -1 < lc /\ (Qtrunc lc + 1 < len field)%Z) /\
  ((exists e, gather lc field = Ok e) <->
   -1 < lc /\ (Qtrunc lc + 1 < len field)%Z) /\
  (~ (-1 < lc /\ (Qtrunc lc + 1 < len field)%Z) ->
   scatter lc value field = Fail OutOfBounds /\
   gather lc field = Fail OutOfBounds).
Proof.
  assert (A : addressable field lc <->
              -1 < lc /\ (Qtrunc lc + 1 < len field)%Z).
  { unfold addressable. rewrite Qtrunc_neg_iff. reflexivity. }
  split; [|split].
  - rewrite <- A. split.
    + intros (f' & E). exact (scatter_Ok _ _ _ _ E).
    + intros [H0 H1]. eexists. now apply scatter_ok.
  - rewrite <- A. split.
    + intros (e & E). exact (gather_Ok _ _ _ E).
    + intros [H0 H1]. eexists. now apply gather_ok.
  - rewrite <- A. intros H. split.
    + now apply scatter_fault.
    + now apply gather_fault.
Qed.

(** ** More on the particle integrator *)

Lemma advance_fault (d : Domain) (qm : Q) (ef : list Q) (p : Particle) :
  ~ addressable ef (XtoL d (pos p)) -> advance d qm ef p = Fail OutOfBounds.
Proof.
  intros H. unfold advance. now rewrite gather_fault.
Qed.

Lemma foreach_mut_advance (d : Domain) (qm : Q) (ef : list Q)
  (l : list Particle) :
  match foreach_mut l (advance d qm ef) with
  | Ok ps =>
      ps = map (advanced d qm ef) l /\
      Forall (fun p => addressable ef (XtoL d (pos p))) l
  | Fail f =>
      f = OutOfBounds /\
      Exists (fun p => ~ addressable ef (XtoL d (pos p))) l
  end.
Proof.
  induction l as [|p l IH]; cbn [foreach_mut].
  - split; [reflexivity | constructor].
  - destruct (addressable_dec ef (XtoL d (pos p))) as [Ha|Ha].
    + destruct Ha as [H0 H1]. rewrite advance_ok by assumption. cbn [bind].
      destruct (foreach_mut l (advance d qm ef)) as [ps|f]; cbn [bind].
      * destruct IH as [-> Hall]. split; [reflexivity|].
        constructor; [split; assumption | assumption].
      * destruct IH as [-> Hex]. split; [reflexivity|].
        now apply Exists_cons_tl.
    + rewrite advance_fault by assumption. cbn [bind].
      split; [reflexivity|]. now apply Exists_cons_hd.
Qed.

Lemma PushSpecies_Ok (d : Domain) (sp sp' : Species) (ef : list Q) :
  PushSpecies d sp ef = Ok sp' ->
  sp' = set_part_list sp
          (filter (stays d)
             (map (advanced d (charge sp / mass sp) ef) (part_list sp))) /\
  Forall (fun p => addressable ef (XtoL d (pos p))) (part_list sp).
Proof.
  rewrite PushSpecies_pass. intros H.
  pose proof (foreach_mut_advance d (charge sp / mass sp) ef (part_list sp))
    as F.
  destruct (foreach_mut (part_list sp) (advance d (charge sp / mass sp) ef))
    as [ps|f]; [|discriminate].
  destruct F as [-> Hall]. cbn [bind] in H. injection H as <-. auto.
Qed.

(** X2. Whenever [PushSpecies] returns, every particle left in the population
    lies in [[x0, xmax)]: the precondition of the next deposition and of
    the next field interpolation is re-established. *)
Theorem PushSpecies_keeps_inside (d : Domain) (sp sp' : Species)
  (ef : list Q) :
  PushSpecies d sp ef = Ok sp' ->
  Forall (fun p => inside d (pos p)) (part_list sp').
Proof.
  intros H. apply PushSpecies_Ok in H. destruct H as [-> _].
  cbn [set_part_list part_list]. apply Forall_forall. intros p Hp.
  apply filter_In in Hp. destruct Hp as [_ Hs]. now apply stays_spec.
Qed.

Lemma PushSpecies_keeps_inside_witness :
  exists sp',
    PushSpecies (make_domain 5 1 0)
      (mkSpecies [mkParticle 0.25 1 0; mkParticle 3.9 1e11 1] 2 1 3 "t" 2 1 2)
      [0; 0; 0; 0; 0] = Ok sp' /\
    Forall (fun p => inside (make_domain 5 1 0) (pos p)) (part_list sp').
Proof.
  eexists. split.
  - vm_compute. reflexivity.
  - apply (PushSpecies_keeps_inside (make_domain 5 1 0)
             (mkSpecies [mkParticle 0.25 1 0; mkParticle 3.9 1e11 1] 2 1 3
                "t" 2 1 2) _ [0; 0; 0; 0; 0]).
    vm_compute. reflexivity.
Defined.

(** X3. [PushSpecies] returns exactly when the two field nodes around the
    position each particle has before the update exist; otherwise it faults
    with an access out of bounds.  The bound given to the loop of the model
    is never reached. *)
Theorem PushSpecies_faults (d : Domain) (sp : Species) (ef : list Q) :
  match PushSpecies d sp ef with
  | Ok _ => Forall (fun p => addressable ef (XtoL d (pos p))) (part_list sp)
  | Fail f =>
      f = OutOfBounds /\
      Exists (fun p => ~ addressable ef (XtoL d (pos p))) (part_list sp)
  end.
Proof.
  rewrite PushSpecies_pass.
  pose proof (foreach_mut_advance d (charge sp / mass sp) ef (part_list sp))
    as F.
  destruct (foreach_mut (part_list sp) (advance d (charge sp / mass sp) ef))
    as [ps|f]; cbn [bind].
  - apply F.
  - exact F.
Qed.

Lemma NoDup_map_filter {A B : Type} (g : A -> B) (f : A -> bool)
  (l : list A) :
  NoDup (map g l) -> NoDup (map g (filter f l)).
Proof.
  induction l as [|a l IH]; simpl; intros H; [constructor|].
  inversion H as [|? ? Hnin Hnd]; subst.
  destruct (f a); simpl; [|auto].
  constructor; [|auto].
  intros C. apply Hnin. apply in_map_iff in C.
  destruct C as (x & Ex & Hx). apply filter_In in Hx.
  apply in_map_iff. exists x. tauto.
Qed.

Lemma map_id_advanced (d : Domain) (qm : Q) (ef : list Q)
  (l : list Particle) :
  map id (map (advanced d qm ef) l) = map id l.
Proof.
  rewrite map_map. apply map_ext. reflexivity.
Qed.

(** X4. Whenever [PushSpecies] returns, the constants of the species and its
    identity counter are unchanged, every particle left bears the identity
    of a particle present before the call, and identities that were
    pairwise distinct remain so: no identity is created or reused. *)
Theorem PushSpecies_identities (d : Domain) (sp sp' : Species) (ef : list Q) :
  PushSpecies d sp ef = Ok sp' ->
  mass sp' = mass sp /\ charge sp' = charge sp /\ spwt sp' = spwt sp /\
  name sp' = name sp /\ NUM sp' = NUM sp /\ Temp sp' = Temp sp /\
  part_id sp' = part_id sp /\
  incl (map id (part_list sp')) (map id (part_list sp)) /\
  (NoDup (map id (part_list sp)) -> NoDup (map id (part_list sp'))).
Proof.
  intros H. apply PushSpecies_Ok in H. destruct H as [-> _].
  cbn [set_part_list mass charge spwt name NUM Temp part_id part_list].
  repeat split; try reflexivity.
  - intros i Hi. apply in_map_iff in Hi. destruct Hi as (p & <- & Hp).
    apply filter_In in Hp. destruct Hp as [Hp _].
    rewrite <- (map_id_advanced d (charge sp / mass sp) ef).
    now apply in_map.
  - intros Hnd. apply NoDup_map_filter.
    now rewrite map_id_advanced.
Qed.

Lemma PushSpecies_identities_witness :
  exists sp',
    let sp := mkSpecies [mkParticle 0.25 1 0; mkParticle 3.9 1e11 1] 2 1 3
                "t" 2 1 2 in
    PushSpecies (make_domain 5 1 0) sp [0; 0; 0; 0; 0] = Ok sp' /\
    (mass sp' = mass sp /\ charge sp' = charge sp /\ spwt sp' = spwt sp /\
     name sp' = name sp /\ NUM sp' = NUM sp /\ Temp sp' = Temp sp /\
     part_id sp' = part_id sp /\
     incl (map id (part_list sp')) (map id (part_list sp)) /\
     (NoDup (map id (part_list sp)) -> NoDup (map id (part_list sp')))).
Proof.
  eexists. intros sp. split.
  - vm_compute. reflexivity.
  - apply (PushSpecies_identities (make_domain 5 1 0) sp _ [0; 0; 0; 0; 0]).
    vm_compute. reflexivity.
Defined.

(** ** More on the sampler *)

(** Invariant rule for the loop of [Init]. *)
Lemma Init_invariant (rng : Type) (rnd_dist : rng -> Q * rng) (sqrt : Q -> Q)
  (d : Domain) (I : Z -> Species -> Prop) (sp : Species) (g : rng) :
  I 0%Z sp ->
  (forall j st, (0 <= j < NUM_IONS)%Z -> I j (fst st) ->
                I (j + 1)%Z (fst (Init_body rng rnd_dist sqrt d st))) ->
  I NUM_IONS (fst (Init rng rnd_dist sqrt d sp g)).
Proof.
  intros H0 Hstep. unfold Init, iter_range.
  assert (Hn : (0 + Z.of_nat (Z.to_nat (NUM_IONS - 0)))%Z = NUM_IONS)
    by (unfold NUM_IONS; lia).
  revert Hn. generalize (Z.to_nat (NUM_IONS - 0)). intros n Hn.
  rewrite <- Hn at 1.
  apply (iter_up_inv (fun j (t : Species * rng) => I j (fst t))).
  - exact H0.
  - intros j t Hj. apply Hstep. lia.
Qed.

Lemma sampled_position_inside (d : Domain) (r : Q) :
  wf_domain d -> (2 <= ni d)%Z -> 0 <= r -> r < 1 ->
  inside d (x0 d + r * inject_Z (ni d - 1) * dx d).
Proof.
  intros (Hdx & Hxl & Hmax) Hni Hr0 Hr1. unfold inside.
  rewrite Hmax, Hxl.
  assert (HN : 0 < inject_Z (ni d - 1)).
  { change 0 with (inject_Z 0). rewrite <- Zlt_Qlt. lia. }
  assert (Hm : 0 < inject_Z (ni d - 1) * dx d)
    by (now apply Qmult_lt_0_compat).
  set (m := inject_Z (ni d - 1) * dx d) in *.
  assert (E : r * inject_Z (ni d - 1) * dx d == r * m) by (unfold m; ring).
  rewrite E.
  assert (P0 : 0 <= r * m) by (apply Qmult_le_0_compat; lra).
  assert (P1 : 0 < (1 - r) * m) by (apply Qmult_lt_0_compat; lra).
  split; lra.
Qed.

Lemma Init_keeps_inside (rng : Type) (rnd_dist : rng -> Q * rng) (sqrt : Q -> Q)
  (d : Domain) (sp : Species) (g : rng) :
  (forall h, 0 <= fst (rnd_dist h) /\ fst (rnd_dist h) < 1) ->
  wf_domain d -> (2 <= ni d)%Z ->
  Forall (fun p => inside d (pos p)) (part_list sp) ->
  Forall (fun p => inside d (pos p))
    (part_list (fst (Init rng rnd_dist sqrt d sp g))).
Proof.
  intros Hrnd Hwf Hni Hin.
  apply (Init_invariant rng rnd_dist sqrt d
           (fun _ s => Forall (fun p => inside d (pos p)) (part_list s)));
    [exact Hin|].
  intros j [s h] _ Hs. cbn [fst] in Hs.
  unfold Init_body, SampleVel, rnd.
  pose proof (Hrnd h) as [R0 R1].
  destruct (rnd_dist h) as [r h1]. cbn [fst] in R0, R1.
  destruct (rnd_dist h1) as [r1 h2].
  destruct (rnd_dist h2) as [r2 h3].
  destruct (rnd_dist h3) as [r3 h4].
  cbn [fst add part_list]. apply Forall_app. split; [exact Hs|].
  constructor; [|constructor]. cbn [pos].
  now apply sampled_position_inside.
Qed.



Lemma NoDup_map_injective {A B : Type} (f : A -> B) (l : list A) :
  (forall a b, f a = f b -> a = b) -> NoDup l -> NoDup (map f l).
Proof.
  intros Hinj. induction 1 as [|a l Hnin _ IH]; simpl; constructor; auto.
  intros C. apply in_map_iff in C. destruct C as (b & E & Hb).
  apply Hinj in E. now subst.
Qed.

(** X6. [Init] on a freshly constructed species numbers the particles
    [0, 1, ..., NUM_IONS - 1] in the order of the list: the identities are
    pairwise distinct, and the counter is left at [NUM_IONS]. *)
Theorem Init_identities (rng : Type) (rnd_dist : rng -> Q * rng)
  (sqrt : Q -> Q) (d : Domain) (g : rng) (name : string)
  (mass charge spwt : Q) (NUM : Z) (Temp : Q) :
  let sp' := fst (Init rng rnd_dist sqrt d
                    (new_Species name mass charge spwt NUM Temp) g) in
  map id (part_list sp') = map Z.of_nat (seq 0 (Z.to_nat NUM_IONS)) /\
  NoDup (map id (part_list sp')) /\
  part_id sp' = NUM_IONS.
Proof.
  intros sp'.
  assert (H : map id (part_list sp')
              = map Z.of_nat (seq 0 (Z.to_nat NUM_IONS))
              /\ part_id sp' = NUM_IONS).
  { unfold sp'.
    apply (Init_invariant rng rnd_dist sqrt d
             (fun j s => map id (part_list s)
                         = map Z.of_nat (seq 0 (Z.to_nat j))
                         /\ part_id s = j)).
    - split; reflexivity.
    - intros j st Hj [Hids Hnext].
      destruct (Init_body_effect rng rnd_dist sqrt d st)
        as (x & v & E1 & E2 & _).
      rewrite E1, E2, map_app, Hids, Hnext. cbn [map id]. split; [|lia].
      replace (Z.to_nat (j + 1)) with (S (Z.to_nat j)) by lia.
      rewrite seq_S, map_app. cbn [map Nat.add]. f_equal. f_equal. lia. }
  destruct H as [Hids Hnext]. split; [exact Hids|]. split; [|exact Hnext].
  rewrite Hids. apply NoDup_map_injective.
  - intros a b. lia.
  - apply seq_NoDup.
Qed.

(** ** More on interpolation and deposition *)

(** X7. Linear interpolation is exact on a field that is linear in the node
    index: where the two addressed nodes hold [a + b*i] and [a + b*(i+1)],
    [gather] returns [a + b*lc]. *)
Theorem gather_linear_exact (a b lc : Q) (field : list Q) :
  addressable field lc ->
  get field (Qtrunc lc) == a + b * inject_Z (Qtrunc lc) ->
  get field (Qtrunc lc + 1) == a + b * inject_Z (Qtrunc lc + 1) ->
  exists e, gather lc field = Ok e /\ e == a + b * lc.
Proof.
  intros [H0 H1] E0 E1. eexists. split; [now apply gather_ok|].
  rewrite E0, E1, inject_Z_plus. change (inject_Z 1) with 1. ring.
Qed.

Lemma gather_linear_exact_witness :
  exists e, gather 2.5 [1; 3; 5; 7; 9] = Ok e /\ e == 1 + 2 * 2.5.
Proof.
  apply (gather_linear_exact 1 2 2.5 [1; 3; 5; 7; 9]).
  - unfold addressable. vm_compute. split; [discriminate | reflexivity].
  - vm_compute. reflexivity.
  - vm_compute. reflexivity.
Defined.

(** X8. For a coordinate that is not negative, the value returned by [gather]
    lies between the values of the two addressed nodes. *)
Theorem gather_between (lc : Q) (field : list Q) :
  0 <= lc -> (Qtrunc lc + 1 < len field)%Z ->
  exists e,
    gather lc field = Ok e /\
    Qmin (get field (Qtrunc lc)) (get field (Qtrunc lc + 1)) <= e /\
    e <= Qmax (get field (Qtrunc lc)) (get field (Qtrunc lc + 1)).
Proof.
  intros H0 H1. pose proof (Qtrunc_nonneg _ H0) as Hi.
  destruct (Qtrunc_bounds _ H0) as [Blo Bhi].
  rewrite inject_Z_plus in Bhi. change (inject_Z 1) with 1 in Bhi.
  eexists. split; [now apply gather_ok|].
  set (u := get field (Qtrunc lc)). set (v := get field (Qtrunc lc + 1)).
  set (di := lc - inject_Z (Qtrunc lc)).
  assert (D0 : 0 <= di) by (unfold di; lra).
  assert (D1 : 0 <= 1 - di) by (unfold di; lra).
  destruct (Qlt_le_dec v u) as [Hvu|Huv].
  - assert (P : 0 <= di * (u - v)) by (apply Qmult_le_0_compat; lra).
    assert (P' : 0 <= (1 - di) * (u - v)) by (apply Qmult_le_0_compat; lra).
    rewrite (Q.min_r u v) by lra. rewrite (Q.max_l u v) by lra.
    split; lra.
  - assert (P : 0 <= di * (v - u)) by (apply Qmult_le_0_compat; lra).
    assert (P' : 0 <= (1 - di) * (v - u)) by (apply Qmult_le_0_compat; lra).
    rewrite (Q.min_l u v) by lra. rewrite (Q.max_r u v) by lra.
    split; lra.
Qed.

Lemma gather_between_witness :
  exists e,
    gather 2.5 [1; 3; 5; 7; 9] = Ok e /\
    Qmin (get [1; 3; 5; 7; 9] (Qtrunc 2.5))
      (get [1; 3; 5; 7; 9] (Qtrunc 2.5 + 1)) <= e /\
    e <= Qmax (get [1; 3; 5; 7; 9] (Qtrunc 2.5))
           (get [1; 3; 5; 7; 9] (Qtrunc 2.5 + 1)).
Proof.
  apply (gather_between 2.5 [1; 3; 5; 7; 9]).
  - vm_compute. discriminate.
  - vm_compute. reflexivity.
Defined.

Lemma sum_nodes_ext (n : nat) (g h : Z -> Q) :
  (forall j, (0 <= j < Z.of_nat n)%Z -> g j == h j) ->
  sum_nodes n g == sum_nodes n h.
Proof.
  induction n as [|n IH]; intros H; cbn [sum_nodes]; [reflexivity|].
  rewrite IH by (intros j Hj; apply H; lia).
  rewrite (H (Z.of_nat n)) by lia. reflexivity.
Qed.

Lemma sum_nodes_zero (n : nat) : sum_nodes n (fun _ => 0) == 0.
Proof.
  induction n as [|n IH]; cbn [sum_nodes]; [reflexivity|].
  rewrite IH. ring.
Qed.

Lemma sum_nodes_plus (n : nat) (g h : Z -> Q) :
  sum_nodes n (fun j => g j + h j) == sum_nodes n g + sum_nodes n h.
Proof.
  induction n as [|n IH]; cbn [sum_nodes]; [ring|].
  rewrite IH. ring.
Qed.

Lemma sum_nodes_indicator (n : nat) (i : Z) (v : Q) :
  sum_nodes n (fun j => if (j =? i)%Z then v else 0)
  == if ((0 <=? i) && (i <? Z.of_nat n))%Z then v else 0.
Proof.
  induction n as [|n IH]; cbn [sum_nodes].
  - destruct (Z.leb_spec 0 i), (Z.ltb_spec i (Z.of_nat 0)); cbn [andb];
      try reflexivity; lia.
  - rewrite IH.
    destruct (Z.eqb_spec (Z.of_nat n) i) as [E|N];
      destruct (Z.leb_spec 0 i), (Z.ltb_spec i (Z.of_nat n)),
        (Z.ltb_spec i (Z.of_nat (S n))); cbn [andb]; try lia; ring.
Qed.

Lemma sum_deposit (d : Domain) (w x : Q) (n : nat) :
  wf_domain d -> inside d x -> Z.of_nat n = ni d ->
  sum_nodes n (deposit d w x) == w.
Proof.
  intros Hwf Hin Hn.
  destruct (XtoL_range d x Hwf Hin) as [R0 _].
  destruct (XtoL_index d x Hwf Hin) as [I0 I1].
  rewrite (Qtrunc_floor _ R0) in I0, I1. unfold XtoL in I0, I1.
  unfold deposit. cbv zeta. rewrite sum_nodes_plus, !sum_nodes_indicator.
  set (i := Qfloor ((x - x0 d) / dx d)) in *.
  destruct (Z.leb_spec 0 i), (Z.ltb_spec i (Z.of_nat n)),
    (Z.leb_spec 0 (i + 1)), (Z.ltb_spec (i + 1) (Z.of_nat n));
    cbn [andb]; try lia. ring.
Qed.

Lemma sum_accumulated (d : Domain) (w : Particle -> Q)
  (parts : list Particle) (n : nat) :
  wf_domain d -> Z.of_nat n = ni d ->
  Forall (fun p => inside d (pos p)) parts ->
  sum_nodes n (accumulated d w parts) == total_weight w parts.
Proof.
  intros Hwf Hn. induction 1 as [|p parts Hp _ IH].
  - cbn [total_weight fold_right]. apply sum_nodes_zero.
  - cbn [total_weight fold_right]. fold (total_weight w parts).
    rewrite <- IH, <- (sum_deposit d (w p) (pos p) n Hwf Hp Hn).
    rewrite <- sum_nodes_plus. apply sum_nodes_ext. intros j _.
    reflexivity.
Qed.

Lemma snapshot_integral (d : Domain) (w : Particle -> Q)
  (parts : list Particle) (f : list Q) :
  wf_domain d -> (2 <= ni d)%Z ->
  Forall (fun p => inside d (pos p)) parts ->
  (forall j, (0 <= j < ni d)%Z -> get f j == snapshot d w parts j) ->
  trapezoid d f == total_weight w parts.
Proof.
  intros Hwf Hni Hin Hf. unfold trapezoid.
  rewrite <- (sum_accumulated d w parts (Z.to_nat (ni d)) Hwf) by (lia || auto).
  apply sum_nodes_ext. intros j Hj.
  rewrite Hf by lia. unfold snapshot, boundary_node. cbv zeta.
  destruct Hwf as (Hdx & _).
  destruct ((j =? 0) || (j =? ni d - 1))%Z; field; intros C; lra.
Qed.

Lemma total_weight_const (w : Q) (parts : list Particle) :
  total_weight (fun _ => w) parts
  == w * inject_Z (Z.of_nat (length parts)).
Proof.
  induction parts as [|p parts IH].
  - cbn. ring.
  - cbn [total_weight fold_right length]. fold (total_weight (fun _ => w) parts).
    rewrite IH, Nat2Z.inj_succ. unfold Z.succ. rewrite inject_Z_plus.
    change (inject_Z 1) with 1. ring.
Qed.

(** X9. The density deposited by [ScatterSpecies] integrates, by the trapezoid
    rule over the grid, to the statistical weight times the number of
    particles: deposition, division by the cell volume and boundary
    doubling conserve the number of real particles. *)
Theorem ScatterSpecies_conserves_number (d : Domain) (sp : Species)
  (field : list Q) :
  wf_domain d -> (2 <= ni d)%Z -> len field = ni d ->
  Forall (fun p => inside d (pos p)) (part_list sp) ->
  exists f',
    ScatterSpecies d sp field = Ok f' /\
    trapezoid d f'
    == spwt sp * inject_Z (Z.of_nat (length (part_list sp))).
Proof.
  intros Hwf Hni Hlen Hin.
  destruct (scatter_pipeline d (fun _ => spwt sp) (part_list sp) field
              Hwf ltac:(lia) Hlen Hin) as (f' & E & L & G).
  exists f'. split; [exact E|].
  rewrite (snapshot_integral d (fun _ => spwt sp) (part_list sp) f'
             Hwf Hni Hin G).
  apply total_weight_const.
Qed.

Lemma ScatterSpecies_conserves_number_witness :
  let d := make_domain 5 1 0 in
  let sp := mkSpecies [mkParticle 0.25 1 0; mkParticle 3.5 (-1) 1;
                       mkParticle 3.9 1e11 2] 2 1 3 "t" 3 1 3 in
  exists f',
    ScatterSpecies d sp [7; 7; 7; 7; 7] = Ok f' /\
    trapezoid d f'
    == spwt sp * inject_Z (Z.of_nat (length (part_list sp))).
Proof.
  apply (ScatterSpecies_conserves_number (make_domain 5 1 0)
           (mkSpecies [mkParticle 0.25 1 0; mkParticle 3.5 (-1) 1;
                       mkParticle 3.9 1e11 2] 2 1 3 "t" 3 1 3)
           [7; 7; 7; 7; 7]).
  - unfold wf_domain; simpl. repeat split; reflexivity.
  - simpl; lia.
  - reflexivity.
  - repeat constructor; vm_compute; congruence.
Defined.

(** X10. [ScatterSpeciesVel] is the same snapshot with each particle weighted by
    [spwt * vel]: the array is zeroed, so nothing is carried over from the
    previous call, and the result integrates to [spwt] times the sum of the
    velocities. *)
Theorem ScatterSpeciesVel_snapshot (d : Domain) (sp : Species)
  (field : list Q) :
  wf_domain d -> (2 <= ni d)%Z -> len field = ni d ->
  Forall (fun p => inside d (pos p)) (part_list sp) ->
  exists f',
    ScatterSpeciesVel d sp field = Ok f' /\
    len f' = ni d /\
    (forall j, (0 <= j < ni d)%Z ->
               get f' j
               == snapshot d (fun p => spwt sp * vel p) (part_list sp) j) /\
    (forall field2, len field2 = ni d ->
                    ScatterSpeciesVel d sp field2 = Ok f') /\
    trapezoid d f' == total_weight (fun p => spwt sp * vel p) (part_list sp).
Proof.
  intros Hwf Hni Hlen Hin.
  destruct (scatter_pipeline d (fun p => spwt sp * vel p) (part_list sp) field
              Hwf ltac:(lia) Hlen Hin) as (f' & E & L & G).
  exists f'. split; [exact E|]. split; [exact L|]. split; [exact G|]. split.
  - intros field2 L2. unfold ScatterSpeciesVel in *.
    rewrite memset0_full in * by lia. exact E.
  - now apply snapshot_integral.
Qed.

Lemma ScatterSpeciesVel_snapshot_witness :
  let d := make_domain 5 1 0 in
  let sp := mkSpecies [mkParticle 0.25 1 0; mkParticle 3.5 (-1) 1] 2 1 3 "t"
              2 1 2 in
  exists f',
    ScatterSpeciesVel d sp [7; 7; 7; 7; 7] = Ok f' /\
    len f' = ni d /\
    (forall j, (0 <= j < ni d)%Z ->
               get f' j
               == snapshot d (fun p => spwt sp * vel p) (part_list sp) j) /\
    (forall field2, len field2 = ni d ->
                    ScatterSpeciesVel d sp field2 = Ok f') /\
    trapezoid d f' == total_weight (fun p => spwt sp * vel p) (part_list sp).
Proof.
  apply (ScatterSpeciesVel_snapshot (make_domain 5 1 0)
           (mkSpecies [mkParticle 0.25 1 0; mkParticle 3.5 (-1) 1] 2 1 3 "t"
              2 1 2)
           [7; 7; 7; 7; 7]).
  - unfold wf_domain; simpl. repeat split; reflexivity.
  - simpl; lia.
  - reflexivity.
  - repeat constructor; vm_compute; congruence.
Defined.

(** ** Charge density *)

Lemma ComputeRho_ok (d : Domain) (ions electrons : Species) :
  (0 <= ni d)%Z -> len (rho d) = ni d -> len (ndi d) = ni d ->
  len (nde d) = ni d ->
  exists r,
    ComputeRho d ions electrons = Ok (set_rho d r) /\
    len r = ni d /\
    forall i, (0 <= i < ni d)%Z ->
              get r i = charge ions * get (ndi d) i
                        + charge electrons * get (nde d) i.
Proof.
  intros Hni Lr Li Le. unfold ComputeRho.
  rewrite memset0_full by lia. cbn [bind].
  destruct (for_range_inv
              (fun k (r : list Q) =>
                 len r = ni d /\
                 forall i, (0 <= i < k)%Z ->
                           get r i = charge ions * get (ndi d) i
                                     + charge electrons * get (nde d) i)
              (fun i r =>
                 ndi_i <- rd (ndi d) i ;;
                 nde_i <- rd (nde d) i ;;
                 wr r i (charge ions * ndi_i + charge electrons * nde_i))
              0 (ni d) (repeat 0 (Z.to_nat (ni d)))) as (r & E & L & G).
  - lia.
  - split; [apply len_repeat; lia | intros; lia].
  - intros k r Hk [L G]. cbv beta. mstep.
    eexists; split; [reflexivity|]. split; [now rewrite len_set_at|].
    intros i Hi. destruct (Z.eq_dec i k) as [->|N].
    + now rewrite get_set_at_eq by lia.
    + rewrite get_set_at_ne by lia. apply G; lia.
  - exists r. rewrite E. cbn [bind]. auto.
Qed.

(** X11. [ComputeRho] overwrites [rho] with [q_i * ndi + q_e * nde] node by node
    and touches nothing else of the domain; where the two species carry
    opposite charges and equal densities, the charge density is null. *)
Theorem ComputeRho_charge_density (d : Domain) (ions electrons : Species) :
  (0 <= ni d)%Z -> len (rho d) = ni d -> len (ndi d) = ni d ->
  len (nde d) = ni d ->
  exists r,
    ComputeRho d ions electrons
    = Ok (mkDomain (ni d) (x0 d) (dx d) (xl d) (xmax d) (phi d) (ef d) r
            (nde d) (ndi d) (veli d) (vele d)) /\
    len r = ni d /\
    (forall i, (0 <= i < ni d)%Z ->
               get r i = charge ions * get (ndi d) i
                         + charge electrons * get (nde d) i) /\
    (charge electrons == - charge ions ->
     forall i, (0 <= i < ni d)%Z ->
               get (ndi d) i == get (nde d) i -> get r i == 0).
Proof.
  intros Hni Lr Li Le.
  destruct (ComputeRho_ok d ions electrons Hni Lr Li Le) as (r & E & L & G).
  exists r. split; [exact E|]. split; [exact L|]. split; [exact G|].
  intros Hq i Hi Hn. rewrite G by assumption. rewrite Hq, Hn. ring.
Qed.

Lemma ComputeRho_charge_density_witness :
  let d := mkDomain 3 0 1 2 2 [0; 0; 0] [0; 0; 0] [9; 9; 9] [1; 2; 3]
             [1; 5; 3] [0; 0; 0] [0; 0; 0] in
  let ions := mkSpecies [] 1 2 1 "i" 0 1 0 in
  let electrons := mkSpecies [] 1 (-2) 1 "e" 0 1 0 in
  exists r,
    ComputeRho d ions electrons
    = Ok (mkDomain (ni d) (x0 d) (dx d) (xl d) (xmax d) (phi d) (ef d) r
            (nde d) (ndi d) (veli d) (vele d)) /\
    len r = ni d /\
    (forall i, (0 <= i < ni d)%Z ->
               get r i = charge ions * get (ndi d) i
                         + charge electrons * get (nde d) i) /\
    (charge electrons == - charge ions ->
     forall i, (0 <= i < ni d)%Z ->
               get (ndi d) i == get (nde d) i -> get r i == 0).
Proof.
  apply (ComputeRho_charge_density
           (mkDomain 3 0 1 2 2 [0; 0; 0] [0; 0; 0] [9; 9; 9] [1; 2; 3]
              [1; 5; 3] [0; 0; 0] [0; 0; 0])
           (mkSpecies [] 1 2 1 "i" 0 1 0) (mkSpecies [] 1 (-2) 1 "e" 0 1 0));
    [simpl; lia | reflexivity | reflexivity | reflexivity].
Defined.

(** ** Half-step rewind *)

Lemma foreach_mut_length {A : Type} (body : A -> res A) (l l' : list A) :
  foreach_mut l body = Ok l' -> length l' = length l.
Proof.
  intros H. apply foreach_mut_Ok in H.
  induction H; simpl; congruence.
Qed.

(** X12. [RewindSpecies] moves no particle and removes none: positions,
    identities and the number of particles are unchanged, and each velocity
    is taken back by half a kick, [v - 0.5*DT*qm*E], with [E] the field at
    the particle.  The first velocity update of [PushSpecies] in the same
    field then leaves the velocity half a kick ahead of the initial one. *)
Theorem RewindSpecies_half_step (d : Domain) (sp : Species) (ef : list Q) :
  wf_domain d -> len ef = ni d ->
  Forall (fun p => inside d (pos p)) (part_list sp) ->
  exists sp',
    RewindSpecies d sp ef = Ok sp' /\
    length (part_list sp') = length (part_list sp) /\
    part_id sp' = part_id sp /\
    Forall2
      (fun p p' =>
         pos p' = pos p /\ id p' = id p /\
         vel p' = vel p - 0.5 * DT * (charge sp / mass sp)
                          * field_at d ef (pos p) /\
         vel (advanced d (charge sp / mass sp) ef p')
         == vel p + 0.5 * DT * (charge sp / mass sp) * field_at d ef (pos p))
      (part_list sp) (part_list sp').
Proof.
  intros Hwf Hlen Hin. unfold RewindSpecies.
  set (qm := charge sp / mass sp).
  set (f := fun p => mkParticle (pos p)
                       (vel p - 0.5 * DT * qm * field_at d ef (pos p))
                       (id p)).
  rewrite (foreach_mut_map _ f).
  - cbn [bind].
    exists (set_part_list sp (map f (part_list sp))).
    split; [reflexivity|]. cbn [set_part_list part_list part_id].
    split; [apply length_map|]. split; [reflexivity|].
    apply Forall2_map_right. apply Forall_forall. intros p _.
    unfold f, advanced. cbn [pos vel id].
    repeat split; try reflexivity. ring.
  - eapply Forall_impl; [|exact Hin]. intros p Hp.
    destruct (XtoL_index d (pos p) Hwf Hp) as [H0 H1].
    cbv beta. rewrite gather_ok by lia. reflexivity.
Qed.

Lemma RewindSpecies_half_step_witness :
  let d := make_domain 5 1 0 in
  let sp := mkSpecies [mkParticle 0.25 1 0; mkParticle 3.5 (-1) 1] 2 1 3 "t"
              2 1 2 in
  let ef := [1; 2; 3; 4; 5] in
  exists sp',
    RewindSpecies d sp ef = Ok sp' /\
    length (part_list sp') = length (part_list sp) /\
    part_id sp' = part_id sp /\
    Forall2
      (fun p p' =>
         pos p' = pos p /\ id p' = id p /\
         vel p' = vel p - 0.5 * DT * (charge sp / mass sp)
                          * field_at d ef (pos p) /\
         vel (advanced d (charge sp / mass sp) ef p')
         == vel p + 0.5 * DT * (charge sp / mass sp) * field_at d ef (pos p))
      (part_list sp) (part_list sp').
Proof.
  apply (RewindSpecies_half_step (make_domain 5 1 0)
           (mkSpecies [mkParticle 0.25 1 0; mkParticle 3.5 (-1) 1] 2 1 3 "t"
              2 1 2)
           [1; 2; 3; 4; 5]).
  - unfold wf_domain; simpl. repeat split; reflexivity.
  - reflexivity.
  - repeat constructor; vm_compute; congruence.
Defined.

(** ** More on the relaxation solver *)

Lemma sor_sweep_boundary (d : Domain) (dx2 : Q) (rho phi : list Q) :
  len phi = ni d -> len rho = ni d ->
  get (sweep_total d dx2 rho phi) 0 = get phi 0 /\
  get (sweep_total d dx2 rho phi) (ni d - 1) = get phi (ni d - 1).
Proof.
  intros Lp Lr. unfold sweep_total, sor_sweep.
  destruct (Z.le_gt_cases 1 (ni d - 1)) as [Hle|Hgt].
  - match goal with
    | |- context [for_range 1 (ni d - 1) ?body phi] =>
        destruct (for_range_inv
                    (fun _ (p : list Q) =>
                       len p = ni d /\ get p 0 = get phi 0 /\
                       get p (ni d - 1) = get phi (ni d - 1))
                    body 1 (ni d - 1) phi Hle) as (p & E & _ & H0 & Hn)
    end.
    + auto.
    + intros j p Hj (L & H0 & Hn). cbv beta. mstep.
      eexists; split; [reflexivity|]. rewrite len_set_at.
      rewrite !get_set_at_ne by lia. auto.
    + rewrite E. auto.
  - rewrite for_range_empty by lia. auto.
Qed.

Lemma after_sweeps_boundary (d : Domain) (dx2 : Q) (rho : list Q) :
  len rho = ni d ->
  forall (k : nat) (phi : list Q),
    len phi = ni d ->
    get (after_sweeps k d dx2 rho phi) 0 = get phi 0 /\
    get (after_sweeps k d dx2 rho phi) (ni d - 1) = get phi (ni d - 1).
Proof.
  intros Lr. induction k as [|k IH]; intros phi Lp; cbn [after_sweeps].
  - auto.
  - destruct (sweep_total_ok d dx2 rho phi Lp Lr) as [_ L].
    destruct (sor_sweep_boundary d dx2 rho phi Lp Lr) as [B0 Bn].
    destruct (IH _ L) as [H0 Hn]. rewrite H0, Hn. auto.
Qed.

(** X13. Whether it converges or not, [SolvePotential] returns a potential of
    [ni] nodes that is exactly zero at the two boundary nodes: the sweeps
    never write them. *)
Theorem SolvePotential_dirichlet (sqrt : Q -> Q) (d : Domain)
  (phi rho : list Q) :
  (1 <= ni d)%Z -> len phi = ni d -> len rho = ni d ->
  exists b phi',
    SolvePotential sqrt d phi rho = Ok (b, phi') /\
    len phi' = ni d /\
    get phi' 0 = 0 /\ get phi' (ni d - 1) = 0.
Proof.
  intros Hni Lp Lr. unfold SolvePotential. mstep.
  set (phi0 := set_at (set_at phi (Z.to_nat (ni d - 1)) 0) (Z.to_nat 0) 0).
  assert (L0 : len phi0 = ni d) by (unfold phi0; now rewrite !len_set_at).
  assert (Z0 : get phi0 0 = 0)
    by (unfold phi0; now rewrite get_set_at_eq by arr_lia).
  assert (Zn : get phi0 (ni d - 1) = 0).
  { unfold phi0. destruct (Z.eq_dec (ni d - 1) 0) as [E|N].
    - rewrite E. now rewrite get_set_at_eq by arr_lia.
    - rewrite get_set_at_ne by lia. now rewrite get_set_at_eq by lia. }
  generalize (Z.to_nat 200000). intros N.
  destruct (sor_loop_spec sqrt d (dx d * dx d) rho Lr N 0%Z phi0 L0)
    as (b & phi' & E & Ht & Hf).
  exists b, phi'. split; [exact E|].
  assert (Hk : exists k, phi' = after_sweeps k d (dx d * dx d) rho phi0).
  { destruct b.
    - destruct (Ht eq_refl) as (j & _ & _ & _ & _ & ->). eauto.
    - destruct (Hf eq_refl) as [-> _]. eauto. }
  destruct Hk as (k & ->).
  destruct (after_sweeps_ok d (dx d * dx d) rho Lr k phi0 L0) as [_ L].
  destruct (after_sweeps_boundary d (dx d * dx d) rho Lr k phi0 L0)
    as [B0 Bn].
  rewrite B0, Bn. auto.
Qed.

Lemma SolvePotential_dirichlet_witness :
  exists b phi',
    SolvePotential (fun x => x) (make_domain 5 1 0) [1; 2; 3; 4; 5]
      [0; 0; 0; 0; 0] = Ok (b, phi') /\
    len phi' = ni (make_domain 5 1 0) /\
    get phi' 0 = 0 /\ get phi' (ni (make_domain 5 1 0) - 1) = 0.
Proof.
  apply (SolvePotential_dirichlet (fun x => x) (make_domain 5 1 0)
           [1; 2; 3; 4; 5] [0; 0; 0; 0; 0]);
    [simpl; lia | reflexivity | reflexivity].
Defined.

(** X14. A potential that satisfies the discrete Poisson equation at every
    interior node is a fixed point of the relaxation sweep, and its
    residual sum is null. *)
Theorem poisson_solution_is_fixed_point (d : Domain) (rho phi : list Q) :
  ~ dx d == 0 -> len phi = ni d -> len rho = ni d ->
  (forall i, (0 < i < ni d - 1)%Z ->
             - (get phi (i - 1) - 2 * get phi i + get phi (i + 1))
               / (dx d * dx d)
             == get rho i / EPS) ->
  (exists phi',
     sor_sweep d (dx d * dx d) rho phi = Ok phi' /\ len phi' = ni d /\
     forall i, (0 <= i < ni d)%Z -> get phi' i == get phi i) /\
  (exists sum, residual_sum d (dx d * dx d) rho phi = Ok sum /\ sum == 0).
Proof.
  intros Hdx Lp Lr Hpoisson.
  assert (Hdx2 : ~ dx d * dx d == 0).
  { intros C. apply Qmult_integral in C. tauto. }
  split.
  - unfold sor_sweep.
    destruct (Z.le_gt_cases 1 (ni d - 1)) as [Hle|Hgt].
    + apply (for_range_inv
               (fun _ (p : list Q) =>
                  len p = ni d /\
                  forall i, (0 <= i < ni d)%Z -> get p i == get phi i));
        [exact Hle | split; [exact Lp | reflexivity] |].
      intros j p Hj [L G]. cbv beta. mstep.
      eexists; split; [reflexivity|]. split; [now rewrite len_set_at|].
      intros i Hi. destruct (Z.eq_dec i j) as [->|N].
      * rewrite get_set_at_eq by lia.
        rewrite (G (j - 1)%Z), (G (j + 1)%Z), (G j) by lia.
        assert (E : dx d * dx d * get rho j / EPS
                    == - (get phi (j - 1) - 2 * get phi j + get phi (j + 1))).
        { transitivity (dx d * dx d * (get rho j / EPS)).
          - field. exact EPS_nonzero.
          - rewrite <- (Hpoisson j) by lia. field. exact Hdx. }
        rewrite E. ring.
      * rewrite get_set_at_ne by lia. apply G; lia.
    + rewrite for_range_empty by lia. exists phi. split; [reflexivity|].
      split; [exact Lp | reflexivity].
  - unfold residual_sum.
    destruct (Z.le_gt_cases 1 (ni d - 1)) as [Hle|Hgt].
    + apply (for_range_inv (fun _ (s : Q) => s == 0));
        [exact Hle | reflexivity |].
      intros j s Hj Hs. cbv beta. mstep.
      eexists; split; [reflexivity|]. cbv zeta.
      assert (ER : - get rho j / EPS
                   - (get phi (j - 1) - 2 * get phi j + get phi (j + 1))
                     / (dx d * dx d) == 0).
      { setoid_replace (- get rho j / EPS) with (- (get rho j / EPS))
          by (field; exact EPS_nonzero).
        rewrite <- (Hpoisson j) by lia. field. exact Hdx. }
      rewrite Hs, ER. ring.
    + rewrite for_range_empty by lia. exists 0. split; reflexivity.
Qed.

Lemma poisson_solution_is_fixed_point_witness :
  let d := make_domain 5 1 0 in
  let rho := [0; 0; 0; 0; 0] in
  let phi := [1; 2; 3; 4; 5] in
  (exists phi',
     sor_sweep d (dx d * dx d) rho phi = Ok phi' /\ len phi' = ni d /\
     forall i, (0 <= i < ni d)%Z -> get phi' i == get phi i) /\
  (exists sum, residual_sum d (dx d * dx d) rho phi = Ok sum /\ sum == 0).
Proof.
  apply (poisson_solution_is_fixed_point (make_domain 5 1 0) [0; 0; 0; 0; 0]
           [1; 2; 3; 4; 5]).
  - simpl. intros C. discriminate C.
  - reflexivity.
  - reflexivity.
  - intros i Hi. simpl in Hi.
    assert (C : i = 1%Z \/ i = 2%Z \/ i = 3%Z) by lia.
    destruct C as [-> | [-> | ->]]; vm_compute; reflexivity.
Defined.

(** ** Uniqueness of the discrete solution *)

Lemma linear_from_recurrence (n : Z) (e : Z -> Q) :
  e 0%Z == 0 ->
  (forall i, (0 < i < n - 1)%Z -> e (i - 1)%Z - 2 * e i + e (i + 1)%Z == 0) ->
  forall k : nat,
    ((Z.of_nat k <= n - 1)%Z -> e (Z.of_nat k) == inject_Z (Z.of_nat k) * e 1%Z)
    /\ ((Z.of_nat (S k) <= n - 1)%Z ->
        e (Z.of_nat (S k)) == inject_Z (Z.of_nat (S k)) * e 1%Z).
Proof.
  intros H0 Hrec. induction k as [|k [IH1 IH2]].
  - split; intros _.
    + change (Z.of_nat 0) with 0%Z. rewrite H0. change (inject_Z 0) with 0.
      ring.
    + change (Z.of_nat 1) with 1%Z. change (inject_Z 1) with 1. ring.
  - split; [exact IH2|]. intros Hk.
    pose proof (Hrec (Z.of_nat (S k)) ltac:(lia)) as R.
    replace (Z.of_nat (S k) - 1)%Z with (Z.of_nat k) in R by lia.
    replace (Z.of_nat (S k) + 1)%Z with (Z.of_nat (S (S k))) in R by lia.
    specialize (IH1 ltac:(lia)). specialize (IH2 ltac:(lia)).
    assert (E : e (Z.of_nat (S (S k)))
                == 2 * e (Z.of_nat (S k)) - e (Z.of_nat k)) by lra.
    rewrite E, IH1, IH2.
    rewrite !Nat2Z.inj_succ. unfold Z.succ. rewrite !inject_Z_plus.
    change (inject_Z 1) with 1. ring.
Qed.

Lemma discrete_poisson_unique (n : Z) (u v : Z -> Q) :
  (1 <= n)%Z ->
  u 0%Z == v 0%Z -> u (n - 1)%Z == v (n - 1)%Z ->
  (forall i, (0 < i < n - 1)%Z ->
             u (i - 1)%Z - 2 * u i + u (i + 1)%Z
             == v (i - 1)%Z - 2 * v i + v (i + 1)%Z) ->
  forall i, (0 <= i < n)%Z -> u i == v i.
Proof.
  intros Hn H0 Hlast Hrows i Hi.
  set (e := fun j => u j - v j).
  assert (E0 : e 0%Z == 0) by (unfold e; lra).
  assert (Erec : forall j, (0 < j < n - 1)%Z ->
                           e (j - 1)%Z - 2 * e j + e (j + 1)%Z == 0).
  { intros j Hj. unfold e. pose proof (Hrows j Hj). lra. }
  pose proof (linear_from_recurrence n e E0 Erec) as Hlin.
  assert (Ei : e i == inject_Z i * e 1%Z).
  { destruct (Hlin (Z.to_nat i)) as [P _].
    rewrite Z2Nat.id in P by lia. apply P. lia. }
  assert (E1 : (2 <= n)%Z -> e 1%Z == 0).
  { intros Hn2.
    destruct (Hlin (Z.to_nat (n - 1))) as [P _].
    rewrite Z2Nat.id in P by lia. specialize (P ltac:(lia)).
    assert (Z : inject_Z (n - 1) * e 1%Z == 0).
    { rewrite <- P. unfold e. lra. }
    apply Qmult_integral in Z. destruct Z as [Z|Z]; [|exact Z].
    exfalso. revert Z. change 0 with (inject_Z 0).
    rewrite inject_Z_injective. lia. }
  assert (Zi : e i == 0).
  { destruct (Z.eq_dec n 1) as [N1|N1].
    - replace i with 0%Z by lia. exact E0.
    - rewrite Ei, E1 by lia. ring. }
  unfold e in Zi. lra.
Qed.

Lemma SolvePotentialDirect_rows (ua ub uc : Z -> Q) (d : Domain)
  (x rho : list Q) :
  (1 <= ni d)%Z -> len x = ni d -> len rho = ni d ->
  exists phi',
    SolvePotentialDirect ua ub uc d x rho = Ok (true, phi') /\
    len phi' = ni d /\
    get phi' 0 == 0 /\ get phi' (ni d - 1) == 0 /\
    forall i, (0 < i < ni d - 1)%Z ->
              get phi' (i - 1) - 2 * get phi' i + get phi' (i + 1)
              == - get rho i * (dx d * dx d) / EPS.
Proof.
  intros Hn Lx Lr.
  destruct (SolvePotentialDirect_passes ua ub uc d x rho Hn Lx Lr)
    as (cf & xf & y & E & Ly & Hc0 & Hx0 & Hfw & Hend & Hbw).
  assert (R0 : rhs_of d rho 0 == 0).
  { unfold rhs_of. rewrite boundary_first. reflexivity. }
  assert (Rn : rhs_of d rho (ni d - 1) == 0).
  { unfold rhs_of. rewrite boundary_last. reflexivity. }
  exists y. split; [exact E|]. split; [exact Ly|]. split; [|split].
  - apply (y_first (ni d) (rhs_of d rho) (get cf) (get xf) (get y));
      assumption.
  - apply (y_last (ni d) (rhs_of d rho) (get cf) (get xf) (get y));
      assumption.
  - intros i Hi.
    rewrite (interior_row (ni d) (rhs_of d rho) (get cf) (get xf) (get y))
      by assumption.
    unfold rhs_of. rewrite (boundary_interior _ _ Hi). reflexivity.
Qed.

(** X15. The direct solver returns the only solution of the discrete problem:
    any potential that is null at the two boundary nodes and satisfies the
    discrete Poisson equation at the interior nodes -- the limit of the
    relaxation solver, for one -- coincides with its result. *)
Theorem SolvePotentialDirect_unique (ua ub uc : Z -> Q) (d : Domain)
  (x rho psi : list Q) :
  (1 <= ni d)%Z -> ~ dx d == 0 -> len x = ni d -> len rho = ni d ->
  get psi 0 == 0 -> get psi (ni d - 1) == 0 ->
  (forall i, (0 < i < ni d - 1)%Z ->
             - (get psi (i - 1) - 2 * get psi i + get psi (i + 1))
               / (dx d * dx d)
             == get rho i / EPS) ->
  exists phi',
    SolvePotentialDirect ua ub uc d x rho = Ok (true, phi') /\
    forall i, (0 <= i < ni d)%Z -> get phi' i == get psi i.
Proof.
  intros Hn Hdx Lx Lr P0 Pn Prows.
  destruct (SolvePotentialDirect_rows ua ub uc d x rho Hn Lx Lr)
    as (y & E & Ly & Y0 & Yn & Yrows).
  exists y. split; [exact E|].
  apply (discrete_poisson_unique (ni d) (get y) (get psi) Hn).
  - now rewrite Y0, P0.
  - now rewrite Yn, Pn.
  - intros i Hi. rewrite (Yrows i Hi).
    assert (F : get psi (i - 1) - 2 * get psi i + get psi (i + 1)
                == - (get rho i / EPS) * (dx d * dx d)).
    { rewrite <- (Prows i Hi). field. exact Hdx. }
    rewrite F. field. exact EPS_nonzero.
Qed.

Lemma SolvePotentialDirect_unique_witness :
  let d := make_domain 5 1 0 in
  exists phi',
    SolvePotentialDirect (fun _ => 9) (fun _ => 8) (fun _ => 7) d
      [1; 2; 3; 4; 5] [0; 0; EPS; 0; 0] = Ok (true, phi') /\
    forall i, (0 <= i < ni d)%Z -> get phi' i == get [0; 1 # 2; 1; 1 # 2; 0] i.
Proof.
  apply (SolvePotentialDirect_unique (fun _ => 9) (fun _ => 8) (fun _ => 7)
           (make_domain 5 1 0) [1; 2; 3; 4; 5] [0; 0; EPS; 0; 0]
           [0; 1 # 2; 1; 1 # 2; 0]).
  - simpl; lia.
  - simpl. intros C. discriminate C.
  - reflexivity.
  - reflexivity.
  - reflexivity.
  - reflexivity.
  - intros i Hi. simpl in Hi.
    assert (C : i = 1%Z \/ i = 2%Z \/ i = 3%Z) by lia.
    destruct C as [-> | [-> | ->]]; vm_compute; reflexivity.
Defined.

(** ** Diagnostics *)

Lemma Qgtb_gt (x y : Q) : Qgtb x y = true <-> y < x.
Proof.
  unfold Qgtb. rewrite negb_true_iff. split; intros H.
  - apply Qnot_le_lt. intros C. apply Qle_bool_iff in C. congruence.
  - destruct (Qle_bool x y) eqn:E; auto.
    apply Qle_bool_iff in E. apply Qle_not_lt in E. contradiction.
Qed.

Lemma max_phi_ok (d : Domain) :
  (1 <= ni d)%Z -> len (phi d) = ni d ->
  exists m,
    max_phi d = Ok m /\
    (forall i, (0 <= i < ni d)%Z -> get (phi d) i <= m) /\
    (exists i, (0 <= i < ni d)%Z /\ m = get (phi d) i).
Proof.
  intros Hni L. unfold max_phi. mstep.
  destruct (for_range_inv
              (fun k (m : Q) =>
                 (forall i, (0 <= i < k)%Z -> get (phi d) i <= m) /\
                 (exists i, (0 <= i < ni d)%Z /\ m = get (phi d) i))
              (fun i m => phi_i <- rd (phi d) i ;;
                          Ok (if Qgtb phi_i m then phi_i else m))
              0 (ni d) (get (phi d) 0)) as (m & E & Hmax & Hex).
  - lia.
  - split; [intros; lia|]. exists 0%Z. split; [lia | reflexivity].
  - intros k m Hk [Hmax Hex]. cbv beta. mstep.
    eexists; split; [reflexivity|].
    destruct (Qgtb (get (phi d) k) m) eqn:G.
    + apply Qgtb_gt in G. split.
      * intros i Hi. destruct (Z.eq_dec i k) as [->|N]; [apply Qle_refl|].
        apply Qle_trans with m; [apply Hmax; lia | now apply Qlt_le_weak].
      * exists k. split; [lia | reflexivity].
    + split; [|exact Hex].
      intros i Hi. destruct (Z.eq_dec i k) as [->|N]; [|apply Hmax; lia].
      apply Qnot_lt_le. intros C. apply Qgtb_gt in C. congruence.
  - exists m. split; [exact E|]. split; [|exact Hex].
    intros i Hi. apply Hmax. lia.
Qed.

(** X16. The search of the diagnostic block returns the maximum of the
    potential: a value of the array that no node exceeds. *)
Theorem max_phi_is_maximum (d : Domain) :
  (1 <= ni d)%Z -> len (phi d) = ni d ->
  exists m,
    max_phi d = Ok m /\
    (forall i, (0 <= i < ni d)%Z -> get (phi d) i <= m) /\
    (exists i, (0 <= i < ni d)%Z /\ m = get (phi d) i).
Proof.
  intros Hni L; exact (max_phi_ok d Hni L).
Qed.

Lemma max_phi_is_maximum_witness :
  let d := mkDomain 3 0 1 2 2 [1; 5; 3] [0; 0; 0] [0; 0; 0] [0; 0; 0]
             [0; 0; 0] [0; 0; 0] [0; 0; 0] in
  exists m,
    max_phi d = Ok m /\
    (forall i, (0 <= i < ni d)%Z -> get (phi d) i <= m) /\
    (exists i, (0 <= i < ni d)%Z /\ m = get (phi d) i).
Proof.
  apply (max_phi_is_maximum
           (mkDomain 3 0 1 2 2 [1; 5; 3] [0; 0; 0] [0; 0; 0] [0; 0; 0]
              [0; 0; 0] [0; 0; 0] [0; 0; 0])); [simpl; lia | reflexivity].
Defined.

Lemma Write_ts_ok (d : Domain) :
  (0 <= ni d)%Z ->
  len (phi d) = ni d -> len (ef d) = ni d -> len (rho d) = ni d ->
  len (nde d) = ni d -> len (ndi d) = ni d ->
  len (veli d) = ni d -> len (vele d) = ni d ->
  exists rows, Write_ts d = Ok rows /\ Z.of_nat (length rows) = ni d.
Proof.
  intros Hni L1 L2 L3 L4 L5 L6 L7. unfold Write_ts.
  match goal with
  | |- exists rows, for_range 0 (ni d) ?body [] = _ /\ _ =>
      destruct (for_range_inv
                  (fun k (rows : list (list Q)) => Z.of_nat (length rows) = k)
                  body 0 (ni d) []) as (rows & E & Hl)
  end.
  - lia.
  - reflexivity.
  - intros k rows Hk Hl. cbv beta. mstep.
    eexists; split; [reflexivity|]. rewrite length_app. cbn [length]. lia.
  - eauto.
Qed.

(** ** Memory safety of the time loop *)

Lemma ScatterSpecies_ok (d : Domain) (sp : Species) (field : list Q) :
  wf_domain d -> (1 <= ni d)%Z -> len field = ni d ->
  Forall (fun p => inside d (pos p)) (part_list sp) ->
  exists f', ScatterSpecies d sp field = Ok f' /\ len f' = ni d.
Proof.
  intros Hwf Hni Hlen Hin.
  destruct (scatter_pipeline d (fun _ => spwt sp) (part_list sp) field
              Hwf Hni Hlen Hin) as (f' & E & L & _).
  eauto.
Qed.

Lemma ScatterSpeciesVel_ok (d : Domain) (sp : Species) (field : list Q) :
  wf_domain d -> (1 <= ni d)%Z -> len field = ni d ->
  Forall (fun p => inside d (pos p)) (part_list sp) ->
  exists f', ScatterSpeciesVel d sp field = Ok f' /\ len f' = ni d.
Proof.
  intros Hwf Hni Hlen Hin.
  destruct (scatter_pipeline d (fun p => spwt sp * vel p) (part_list sp)
              field Hwf Hni Hlen Hin) as (f' & E & L & _).
  eauto.
Qed.

Lemma PushSpecies_ok (d : Domain) (sp : Species) (ef : list Q) :
  wf_domain d -> len ef = ni d ->
  Forall (fun p => inside d (pos p)) (part_list sp) ->
  exists sp',
    PushSpecies d sp ef = Ok sp' /\
    Forall (fun p => inside d (pos p)) (part_list sp') /\
    (length (part_list sp') <= length (part_list sp))%nat.
Proof.
  intros Hwf Hlen Hin.
  eexists. split; [now apply PushSpecies_inside|].
  cbn [set_part_list part_list]. split.
  - apply Forall_forall. intros p Hp. apply filter_In in Hp.
    now apply stays_spec.
  - etransitivity; [apply filter_length_le|]. now rewrite length_map.
Qed.

Lemma diagnostics_ok (d : Domain) (ts : Z) (s : Sim) (sp_i sp_e : Species) :
  grid_ok d ->
  exists out,
    (if (Z.rem ts 200 =? 0)%Z
     then
       m <- max_phi d ;;
       phi_0 <- rd (phi d) 0 ;;
       rows <- Write_ts d ;;
       Ok (output s ++
           [mkDiag ts (m - phi_0) (Time s) (ComputeKE sp_i) (ComputeKE sp_e)
              rows])
     else Ok (output s)) = Ok out.
Proof.
  intros (_ & Hni & L1 & L2 & L3 & L4 & L5 & L6 & L7).
  destruct (Z.rem ts 200 =? 0)%Z; [|eauto].
  destruct (max_phi_ok d ltac:(lia) L1) as (m & E & _).
  rewrite E. cbn [bind]. mstep.
  destruct (Write_ts_ok d ltac:(lia) L1 L2 L3 L4 L5 L6 L7) as (rows & Er & _).
  rewrite Er. cbn [bind]. eauto.
Qed.

Lemma main_step_sound (ua ub uc : Z -> Q) (ts : Z) (s : Sim) :
  sim_ok s ->
  exists s',
    main_step ua ub uc ts s = Ok s' /\
    sim_ok s' /\
    (length (part_list (ions s')) <= length (part_list (ions s)))%nat /\
    (length (part_list (electrons s')) <= length (part_list (electrons s)))%nat
    /\ Time s' = Time s + DT.
Proof.
  intros ((Hwf & Hni & L1 & L2 & L3 & L4 & L5 & L6 & L7) & Hi & He).
  unfold main_step. set (d := domain s) in *.
  destruct (ScatterSpecies_ok d (ions s) (ndi d) Hwf ltac:(lia) L5 Hi)
    as (a_ndi & E1 & La1).
  rewrite E1. cbn [bind].
  destruct (ScatterSpecies_ok d (electrons s) (nde d) Hwf ltac:(lia) L4 He)
    as (a_nde & E2 & La2).
  rewrite E2. cbn [bind].
  destruct (ScatterSpeciesVel_ok d (ions s) (veli d) Hwf ltac:(lia) L6 Hi)
    as (a_veli & E3 & La3).
  rewrite E3. cbn [bind].
  destruct (ScatterSpeciesVel_ok d (electrons s) (vele d) Hwf ltac:(lia) L7 He)
    as (a_vele & E4 & La4).
  rewrite E4. cbn [bind].
  set (d1 := set_fields d (phi d) (ef d) a_nde a_ndi a_veli a_vele).
  destruct (ComputeRho_ok d1 (ions s) (electrons s))
    as (r & E5 & Lr & _); try (cbn; lia || assumption).
  rewrite E5. cbn [bind].
  set (d2 := set_rho d1 r).
  destruct (SolvePotentialDirect_passes ua ub uc d2 (phi d2) (rho d2))
    as (_ & _ & a_phi & E6 & Lphi & _); try (cbn; lia || assumption).
  rewrite E6. cbn [bind].
  destruct (ComputeEF_ok d2 a_phi (ef d2))
    as (a_ef & E7 & Lef & _); try (cbn; lia || assumption).
  rewrite E7. cbn [bind].
  set (d3 := set_fields d2 a_phi a_ef (nde d2) (ndi d2) (veli d2) (vele d2)).
  assert (Hwf3 : wf_domain d3) by exact Hwf.
  assert (Hg3 : grid_ok d3).
  { unfold grid_ok. cbn. repeat split; try assumption; apply Hwf. }
  destruct (PushSpecies_ok d3 (ions s) a_ef Hwf3 Lef Hi)
    as (sp_i & E8 & Hi' & Ci).
  rewrite E8. cbn [bind].
  destruct (PushSpecies_ok d3 (electrons s) a_ef Hwf3 Lef He)
    as (sp_e & E9 & He' & Ce).
  rewrite E9. cbn [bind].
  destruct (diagnostics_ok d3 ts s sp_i sp_e Hg3) as (out & E10).
  rewrite E10. cbn [bind].
  eexists. split; [reflexivity|].
  cbn [domain ions electrons Time]. repeat split; try assumption; apply Hg3.
Qed.

(** X17. One time step from a sound state never faults and leaves a sound
    state: every array access of the deposition, of the field solve, of
    the field interpolation and of the diagnostics is in bounds, the
    particles left are inside the domain, no population grows, and the
    clock advances by [DT]. *)
Theorem main_step_safe (ua ub uc : Z -> Q) (ts : Z) (s : Sim) :
  sim_ok s ->
  exists s',
    main_step ua ub uc ts s = Ok s' /\
    sim_ok s' /\
    (length (part_list (ions s')) <= length (part_list (ions s)))%nat /\
    (length (part_list (electrons s')) <= length (part_list (electrons s)))%nat
    /\ Time s' = Time s + DT.
Proof.
  intros Hs; exact (main_step_sound ua ub uc ts s Hs).
Qed.

Lemma main_step_safe_witness :
  let s := mkSim (make_domain 5 1 0)
             (mkSpecies [mkParticle 0.25 1 0] 2 1 3 "i" 1 1 1)
             (mkSpecies [mkParticle 3.5 (-1) 0] 1 (-1) 3 "e" 1 1 1) 0 [] in
  exists s',
    main_step (fun _ => 0) (fun _ => 0) (fun _ => 0) 1 s = Ok s' /\
    sim_ok s' /\
    (length (part_list (ions s')) <= length (part_list (ions s)))%nat /\
    (length (part_list (electrons s')) <= length (part_list (electrons s)))%nat
    /\ Time s' = Time s + DT.
Proof.
  apply (main_step_safe (fun _ => 0) (fun _ => 0) (fun _ => 0) 1
           (mkSim (make_domain 5 1 0)
              (mkSpecies [mkParticle 0.25 1 0] 2 1 3 "i" 1 1 1)
              (mkSpecies [mkParticle 3.5 (-1) 0] 1 (-1) 3 "e" 1 1 1) 0 [])).
  unfold sim_ok, grid_ok, wf_domain. simpl.
  repeat split; try reflexivity; try lia;
    repeat constructor; vm_compute; congruence.
Defined.

Lemma SolvePotential_total (sqrt : Q -> Q) (d : Domain) (phi rho : list Q) :
  (1 <= ni d)%Z -> len phi = ni d -> len rho = ni d ->
  exists b phi',
    SolvePotential sqrt d phi rho = Ok (b, phi') /\ len phi' = ni d.
Proof.
  intros Hni Lp Lr. unfold SolvePotential. mstep.
  set (phi0 := set_at (set_at phi (Z.to_nat (ni d - 1)) 0) (Z.to_nat 0) 0).
  assert (L0 : len phi0 = ni d) by (unfold phi0; now rewrite !len_set_at).
  generalize (Z.to_nat 200000). intros N.
  destruct (sor_loop_spec sqrt d (dx d * dx d) rho Lr N 0%Z phi0 L0)
    as (b & phi' & E & Ht & Hf).
  exists b, phi'. split; [exact E|].
  assert (Hk : exists k, phi' = after_sweeps k d (dx d * dx d) rho phi0).
  { destruct b.
    - destruct (Ht eq_refl) as (j & _ & _ & _ & _ & ->). eauto.
    - destruct (Hf eq_refl) as [-> _]. eauto. }
  destruct Hk as (k & ->).
  now destruct (after_sweeps_ok d (dx d * dx d) rho Lr k phi0 L0).
Qed.

Lemma RewindSpecies_ok (d : Domain) (sp : Species) (ef : list Q) :
  wf_domain d -> len ef = ni d ->
  Forall (fun p => inside d (pos p)) (part_list sp) ->
  exists sp',
    RewindSpecies d sp ef = Ok sp' /\
    Forall (fun p => inside d (pos p)) (part_list sp') /\
    length (part_list sp') = length (part_list sp).
Proof.
  intros Hwf Hlen Hin. unfold RewindSpecies.
  set (qm := charge sp / mass sp).
  set (f := fun p => mkParticle (pos p)
                       (vel p - 0.5 * DT * qm * field_at d ef (pos p))
                       (id p)).
  rewrite (foreach_mut_map _ f).
  - cbn [bind]. eexists. split; [reflexivity|].
    cbn [set_part_list part_list]. split; [|apply length_map].
    apply Forall_map. eapply Forall_impl; [|exact Hin].
    intros p Hp. exact Hp.
  - eapply Forall_impl; [|exact Hin]. intros p Hp.
    destruct (XtoL_index d (pos p) Hwf Hp) as [H0 H1].
    cbv beta. rewrite gather_ok by lia. reflexivity.
Qed.

Lemma make_domain_ok (n : Z) (h o : Q) :
  (2 <= n)%Z -> 0 < h -> grid_ok (make_domain n h o).
Proof.
  intros Hn Hh. unfold grid_ok, wf_domain, make_domain.
  cbn [ni x0 dx xl xmax phi ef rho nde ndi veli vele].
  rewrite len_repeat by lia.
  repeat split; try reflexivity; assumption.
Qed.

Lemma main_setup_safe (rng : Type) (mt19937 : Z -> rng)
  (rnd_dist : rng -> Q * rng) (sqrt : Q -> Q) :
  (forall h, 0 <= fst (rnd_dist h) /\ fst (rnd_dist h) < 1) ->
  exists s,
    main_setup rng mt19937 rnd_dist sqrt = Ok s /\
    sim_ok s /\
    Z.of_nat (length (part_list (ions s))) = NUM_IONS /\
    Z.of_nat (length (part_list (electrons s))) = NUM_IONS.
Proof.
  intros Hrnd. unfold main_setup.
  assert (Hg : grid_ok (make_domain (NC + 1) DX 0)).
  { apply make_domain_ok; [unfold NC; lia | reflexivity]. }
  set (d := make_domain (NC + 1) DX 0) in *.
  destruct Hg as (Hwf & Hni & L1 & L2 & L3 & L4 & L5 & L6 & L7).
  match goal with
  | |- context [Init rng rnd_dist sqrt d ?sp ?g] =>
      pose proof (Init_keeps_inside rng rnd_dist sqrt d sp g Hrnd Hwf Hni
                    (Forall_nil _)) as Hi;
      destruct (Init_effect rng rnd_dist sqrt d sp g) as (Ci & _);
      destruct (Init rng rnd_dist sqrt d sp g) as [ions1 g1]
  end.
  cbn [fst new_Species part_list length Z.of_nat Z.add] in Hi, Ci.
  cbv beta iota.
  match goal with
  | |- context [Init rng rnd_dist sqrt d ?sp g1] =>
      pose proof (Init_keeps_inside rng rnd_dist sqrt d sp g1 Hrnd Hwf Hni
                    (Forall_nil _)) as He;
      destruct (Init_effect rng rnd_dist sqrt d sp g1) as (Ce & _);
      destruct (Init rng rnd_dist sqrt d sp g1) as [electrons1 g2]
  end.
  cbn [fst new_Species part_list length Z.of_nat Z.add] in He, Ce.
  cbv beta iota.
  destruct (ScatterSpecies_ok d ions1 (ndi d) Hwf ltac:(lia) L5 Hi)
    as (a_ndi & E1 & La1).
  rewrite E1. cbn [bind].
  destruct (ScatterSpecies_ok d electrons1 (nde d) Hwf ltac:(lia) L4 He)
    as (a_nde & E2 & La2).
  rewrite E2. cbn [bind].
  set (d1 := set_fields d (phi d) (ef d) a_nde a_ndi (veli d) (vele d)).
  destruct (ComputeRho_ok d1 ions1 electrons1)
    as (r & E5 & Lr & _); try (cbn; lia || assumption).
  rewrite E5. cbn [bind].
  set (d2 := set_rho d1 r).
  destruct (SolvePotential_total sqrt d2 (phi d2) (rho d2))
    as (b & a_phi & E6 & Lphi); try (cbn; lia || assumption).
  rewrite E6. cbn [bind].
  destruct (ComputeEF_ok d2 a_phi (ef d2))
    as (a_ef & E7 & Lef & _); try (cbn; lia || assumption).
  rewrite E7. cbn [bind].
  set (d3 := set_fields d2 a_phi a_ef (nde d2) (ndi d2) (veli d2) (vele d2)).
  assert (Hwf3 : wf_domain d3) by exact Hwf.
  destruct (RewindSpecies_ok d3 ions1 a_ef Hwf3 Lef Hi)
    as (sp_i & E8 & Hi' & Li).
  rewrite E8. cbn [bind].
  destruct (RewindSpecies_ok d3 electrons1 a_ef Hwf3 Lef He)
    as (sp_e & E9 & He' & Le).
  rewrite E9. cbn [bind].
  eexists. split; [reflexivity|].
  cbn [domain ions electrons]. rewrite Li, Le.
  split; [|split; assumption].
  split; [|split; assumption].
  unfold grid_ok. cbn. repeat split; try assumption; apply Hwf.
Qed.

Lemma loop_sound (ua ub uc : Z -> Q) :
  forall (n : nat) (i : Z) (s0 : Sim),
    sim_ok s0 ->
    exists s,
      for_up n i (main_step ua ub uc) s0 = Ok s /\
      sim_ok s /\
      (length (part_list (ions s)) <= length (part_list (ions s0)))%nat /\
      (length (part_list (electrons s))
       <= length (part_list (electrons s0)))%nat.
Proof.
  intros n i s0 Hs0.
  destruct (for_up_inv
              (fun _ (s : Sim) =>
                 sim_ok s /\
                 (length (part_list (ions s))
                  <= length (part_list (ions s0)))%nat /\
                 (length (part_list (electrons s))
                  <= length (part_list (electrons s0)))%nat)
              (main_step ua ub uc) n i s0) as (s & E & H).
  - split; [exact Hs0 | lia].
  - intros j t _ (Ht & Ti & Te).
    destruct (main_step_sound ua ub uc j t Ht)
      as (t' & Et & Ht' & Li & Le & _).
    exists t'. split; [exact Et|]. split; [exact Ht' | lia].
  - exists s. split; [exact E | exact H].
Qed.




(** ** The direct solver keeps no state *)

Lemma rhs_overwrites (d : Domain) (x x2 rho : list Q) :
  (1 <= ni d)%Z -> len x = ni d -> len x2 = ni d -> len rho = ni d ->
  (x <- for_range 1 (ni d - 1)
          (fun i x => rho_i <- rd rho i ;;
                      wr x i (- rho_i * (dx d * dx d) / EPS)) x ;;
   x <- wr x 0 0 ;;
   wr x (ni d - 1)%Z 0)
  = (x <- for_range 1 (ni d - 1)
            (fun i x => rho_i <- rd rho i ;;
                        wr x i (- rho_i * (dx d * dx d) / EPS)) x2 ;;
     x <- wr x 0 0 ;;
     wr x (ni d - 1)%Z 0).
Proof.
  intros Hn Lx Lx2 Lr.
  destruct (rhs_ok d x rho Hn Lx Lr) as (y & E & L & G).
  destruct (rhs_ok d x2 rho Hn Lx2 Lr) as (y2 & E2 & L2 & G2).
  rewrite E, E2. f_equal. apply array_ext; [congruence|].
  intros i Hi. rewrite L in Hi. now rewrite G, G2.
Qed.

Lemma bind_assoc {A B C : Type} (m : res A) (k : A -> res B)
  (h : B -> res C) :
  bind (bind m k) h = bind m (fun a => bind (k a) h).
Proof. destruct m; reflexivity. Qed.

(** X19. [SolvePotentialDirect] is a function of [rho] and of the grid alone:
    neither the previous content of the potential array nor the content of
    the coefficient arrays it allocates reaches the result. *)
Theorem SolvePotentialDirect_stateless (ua ub uc ua' ub' uc' : Z -> Q)
  (d : Domain) (x x2 rho : list Q) :
  (1 <= ni d)%Z -> len x = ni d -> len x2 = ni d -> len rho = ni d ->
  SolvePotentialDirect ua ub uc d x rho
  = SolvePotentialDirect ua' ub' uc' d x2 rho.
Proof.
  intros Hn Lx Lx2 Lr.
  rewrite (SolvePotentialDirect_uninit ua ub uc ua' ub' uc').
  unfold SolvePotentialDirect. apply bind_ext. intros [[a b] c].
  pose proof (rhs_overwrites d x x2 rho Hn Lx Lx2 Lr) as H.
  cbv zeta.
  match goal with
  | |- bind ?m1 (fun x => bind (@?w0 x) (fun y => bind (@?w1 y) ?k))
       = bind ?m2 _ =>
      transitivity
        (bind (bind m1 (fun x => bind (w0 x) (fun y => w1 y))) k);
      [ rewrite !bind_assoc; apply bind_ext; intros ?;
        rewrite !bind_assoc; reflexivity
      | rewrite H; rewrite !bind_assoc; apply bind_ext; intros ?;
        rewrite !bind_assoc; reflexivity ]
  end.
Qed.

Lemma SolvePotentialDirect_stateless_witness :
  SolvePotentialDirect (fun _ => 9) (fun _ => 8) (fun _ => 7)
    (make_domain 5 1 0) [1; 2; 3; 4; 5] [0; 0; EPS; 0; 0]
  = SolvePotentialDirect (fun _ => 0) (fun _ => 1) (fun _ => 2)
      (make_domain 5 1 0) [5; 5; 5; 5; 5] [0; 0; EPS; 0; 0].
Proof.
  apply (SolvePotentialDirect_stateless (fun _ => 9) (fun _ => 8)
           (fun _ => 7) (fun _ => 0) (fun _ => 1) (fun _ => 2)
           (make_domain 5 1 0) [1; 2; 3; 4; 5] [5; 5; 5; 5; 5]
           [0; 0; EPS; 0; 0]);
    [simpl; lia | reflexivity | reflexivity | reflexivity].
Defined.

(** ** Free streaming *)

Lemma Qsquare_nonneg (v : Q) : 0 <= v * v.
Proof.
  destruct (Qlt_le_dec v 0) as [H|H].
  - setoid_replace (v * v) with ((- v) * (- v)) by ring.
    apply Qmult_le_0_compat; lra.
  - now apply Qmult_le_0_compat.
Qed.

Lemma sumsq_mono (l : list Particle) (a b : Q) :
  a <= b ->
  fold_left (fun ke p => ke + vel p * vel p) l a
  <= fold_left (fun ke p => ke + vel p * vel p) l b.
Proof.
  revert a b. induction l as [|p l IH]; intros a b H; simpl; [exact H|].
  apply IH. lra.
Qed.

Lemma sumsq_filter (f : Particle -> bool) (l : list Particle) (a : Q) :
  fold_left (fun ke p => ke + vel p * vel p) (filter f l) a
  <= fold_left (fun ke p => ke + vel p * vel p) l a.
Proof.
  revert a. induction l as [|p l IH]; intros a; simpl; [apply Qle_refl|].
  destruct (f p); simpl.
  - apply IH.
  - eapply Qle_trans; [apply IH|]. apply sumsq_mono.
    pose proof (Qsquare_nonneg (vel p)). lra.
Qed.

Lemma sumsq_equiv (l l' : list Particle) :
  Forall2 (fun p p' => vel p' == vel p) l l' ->
  forall a b, a == b ->
    fold_left (fun ke p => ke + vel p * vel p) l' a
    == fold_left (fun ke p => ke + vel p * vel p) l b.
Proof.
  induction 1 as [|p p' l l' Hv _ IH]; intros a b H; simpl; [exact H|].
  apply IH. rewrite H, Hv. reflexivity.
Qed.

Lemma field_at_null (d : Domain) (ef : list Q) (x : Q) :
  wf_domain d -> len ef = ni d -> inside d x ->
  (forall i, (0 <= i < ni d)%Z -> get ef i == 0) ->
  field_at d ef x == 0.
Proof.
  intros Hwf Hlen Hin Hz. destruct (XtoL_index d x Hwf Hin) as [H0 H1].
  unfold field_at. cbv zeta. rewrite !Hz by lia. ring.
Qed.

(** X20. In a null field [PushSpecies] lets the particles stream freely: every
    velocity is unchanged and every particle moves by [DT] times its
    velocity before the boundary test; as particles can only leave, the
    energy diagnostic [ComputeKE] does not increase. *)
Theorem PushSpecies_free_streaming (d : Domain) (sp : Species) (ef : list Q) :
  wf_domain d -> len ef = ni d ->
  (forall i, (0 <= i < ni d)%Z -> get ef i == 0) ->
  Forall (fun p => inside d (pos p)) (part_list sp) ->
  exists sp' ps,
    PushSpecies d sp ef = Ok sp' /\
    part_list sp' = filter (stays d) ps /\
    Forall2 (fun p p' => vel p' == vel p /\
                         pos p' == pos p + DT * vel p /\
                         id p' = id p)
      (part_list sp) ps /\
    ComputeKE sp' <= ComputeKE sp.
Proof.
  intros Hwf Hlen Hz Hin.
  set (qm := charge sp / mass sp).
  set (ps := map (advanced d qm ef) (part_list sp)).
  exists (set_part_list sp (filter (stays d) ps)), ps.
  split; [now apply PushSpecies_inside|]. split; [reflexivity|].
  assert (Hrel : Forall2 (fun p p' => vel p' == vel p /\
                                      pos p' == pos p + DT * vel p /\
                                      id p' = id p)
                   (part_list sp) ps).
  { apply Forall2_map_right. eapply Forall_impl; [|exact Hin].
    intros p Hp. unfold advanced. cbn [pos vel id].
    rewrite (field_at_null d ef (pos p) Hwf Hlen Hp Hz).
    repeat split; try reflexivity; ring. }
  split; [exact Hrel|].
  unfold ComputeKE. cbn [set_part_list part_list spwt mass]. cbv zeta.
  assert (Hsum : fold_left (fun ke p => ke + vel p * vel p)
                   (filter (stays d) ps) 0
                 <= fold_left (fun ke p => ke + vel p * vel p)
                      (part_list sp) 0).
  { eapply Qle_trans; [apply sumsq_filter|].
    rewrite (sumsq_equiv (part_list sp) ps) with (b := 0);
      [apply Qle_refl | | reflexivity].
    eapply Forall2_impl; [|exact Hrel]. intros p p' (Hv & _). exact Hv. }
  unfold Qdiv. apply Qmult_le_compat_r; [lra|].
  apply Qinv_le_0_compat. unfold QE. discriminate.
Qed.

Lemma PushSpecies_free_streaming_witness :
  let d := make_domain 5 1 0 in
  let sp := mkSpecies [mkParticle 0.25 1 0; mkParticle 3.5 (-1) 1;
                       mkParticle 3.9 1e11 2] 2 1 3 "t" 3 1 3 in
  let ef := [0; 0; 0; 0; 0] in
  exists sp' ps,
    PushSpecies d sp ef = Ok sp' /\
    part_list sp' = filter (stays d) ps /\
    Forall2 (fun p p' => vel p' == vel p /\
                         pos p' == pos p + DT * vel p /\
                         id p' = id p)
      (part_list sp) ps /\
    ComputeKE sp' <= ComputeKE sp.
Proof.
  apply (PushSpecies_free_streaming (make_domain 5 1 0)
           (mkSpecies [mkParticle 0.25 1 0; mkParticle 3.5 (-1) 1;
                       mkParticle 3.9 1e11 2] 2 1 3 "t" 3 1 3)
           [0; 0; 0; 0; 0]).
  - unfold wf_domain; simpl. repeat split; reflexivity.
  - reflexivity.
  - intros i Hi. simpl in Hi.
    assert (C : i = 0%Z \/ i = 1%Z \/ i = 2%Z \/ i = 3%Z \/ i = 4%Z) by lia.
    destruct C as [-> | [-> | [-> | [-> | ->]]]]; reflexivity.
  - repeat constructor; vm_compute; congruence.
Defined.

(** ** Clock and cadence of the diagnostics *)

Ltac bind_inv H :=
  repeat (apply bind_Ok in H;
          let x := fresh "x" in
          let E := fresh "E" in
          destruct H as (x & E & H);
          try (destruct x as [? ?])).

Lemma main_step_Ok (ua ub uc : Z -> Q) (ts : Z) (s s' : Sim) :
  main_step ua ub uc ts s = Ok s' ->
  Time s' = Time s + DT /\
  ((Z.rem ts 200 =? 0)%Z = true ->
   exists dg, output s' = output s ++ [dg] /\
              diag_ts dg = ts /\ diag_time dg = Time s) /\
  ((Z.rem ts 200 =? 0)%Z = false -> output s' = output s).
Proof.
  unfold main_step. intros H. bind_inv H. injection H as <-.
  cbn [Time output]. split; [reflexivity|].
  match goal with
  | E : (if (Z.rem ts 200 =? 0)%Z then _ else _) = Ok _ |- _ =>
      destruct (Z.rem ts 200 =? 0)%Z;
      [ bind_inv E; injection E as <-
      | injection E as <- ]
  end.
  - split; [|discriminate]. intros _. eexists. split; [reflexivity|].
    split; reflexivity.
  - split; [discriminate | reflexivity].
Qed.

Lemma main_setup_Ok (rng : Type) (mt19937 : Z -> rng)
  (rnd_dist : rng -> Q * rng) (sqrt : Q -> Q) (s : Sim) :
  main_setup rng mt19937 rnd_dist sqrt = Ok s ->
  Time s = 0 /\ output s = [].
Proof.
  unfold main_setup. intros H.
  destruct (Init rng rnd_dist sqrt _ _ _) as [i1 g1] in H.
  destruct (Init rng rnd_dist sqrt _ _ g1) as [e1 g2] in H.
  bind_inv H. injection H as <-. split; reflexivity.
Qed.

(** X21. After [n] time steps the clock shows [n * DT], and the diagnostics
    written are those of the steps [0, 200, 400, ...] below [n], in that
    order, each stamped with the time at the start of its step. *)
Theorem run_diagnostics (rng : Type) (mt19937 : Z -> rng)
  (rnd_dist : rng -> Q * rng) (sqrt : Q -> Q) (ua ub uc : Z -> Q) :
  (forall h, 0 <= fst (rnd_dist h) /\ fst (rnd_dist h) < 1) ->
  forall n : nat,
    exists s,
      run rng mt19937 rnd_dist sqrt ua ub uc n = Ok s /\
      Time s == inject_Z (Z.of_nat n) * DT /\
      map diag_ts (output s) = diagnostic_steps n /\
      Forall (fun dg => diag_time dg == inject_Z (diag_ts dg) * DT)
        (output s).
Proof.
  intros Hrnd n.
  destruct (main_setup_safe rng mt19937 rnd_dist sqrt Hrnd)
    as (s0 & E0 & Hs0 & _).
  destruct (loop_sound ua ub uc n 0%Z s0 Hs0) as (s & E & _).
  exists s. split; [unfold run; rewrite E0; cbn [bind]; exact E|].
  apply main_setup_Ok in E0. destruct E0 as [T0 O0].
  pose proof (for_up_post
                (fun j (t : Sim) =>
                   (0 <= j)%Z /\
                   Time t == inject_Z j * DT /\
                   map diag_ts (output t) = diagnostic_steps (Z.to_nat j) /\
                   Forall (fun dg => diag_time dg == inject_Z (diag_ts dg) * DT)
                     (output t))
                (main_step ua ub uc) n 0%Z s0 s) as P.
  cbv beta in P. replace (0 + Z.of_nat n)%Z with (Z.of_nat n) in P by lia.
  rewrite Nat2Z.id in P.
  destruct P as (_ & HT & HO & HF); [| |exact E|auto].
  - rewrite T0, O0. split; [lia|]. split; [ring|]. split; constructor.
  - intros j t t' Hj (Hj0 & HT & HO & HF) Et.
    apply main_step_Ok in Et. destruct Et as (ET & Eyes & Eno).
    split; [lia|]. split.
    { rewrite ET, HT, inject_Z_plus. change (inject_Z 1) with 1. ring. }
    replace (Z.to_nat (j + 1)) with (S (Z.to_nat j)) by lia.
    unfold diagnostic_steps in *. rewrite seq_S, map_app, filter_app.
    cbn [Nat.add map filter]. rewrite Z2Nat.id by lia.
    destruct (Z.rem j 200 =? 0)%Z.
    + destruct (Eyes eq_refl) as (dg & -> & Dts & Dtime).
      rewrite map_app, HO. cbn [map]. rewrite Dts. split; [reflexivity|].
      apply Forall_app. split; [exact HF|].
      constructor; [|constructor]. now rewrite Dtime, Dts, HT.
    + rewrite (Eno eq_refl), HO, app_nil_r. split; [reflexivity | exact HF].
Qed.

Lemma run_diagnostics_witness :
  exists s,
    run nat (fun _ => 0%nat) (fun h => (1 # Pos.of_nat (h + 2), S h))
      (fun x => x) (fun _ => 0) (fun _ => 0) (fun _ => 0) 3 = Ok s /\
    Time s == inject_Z (Z.of_nat 3) * DT /\
    map diag_ts (output s) = diagnostic_steps 3 /\
    Forall (fun dg => diag_time dg == inject_Z (diag_ts dg) * DT) (output s).
Proof.
  apply (run_diagnostics nat (fun _ => 0%nat)
           (fun h => (1 # Pos.of_nat (h + 2), S h)) (fun x => x)
           (fun _ => 0) (fun _ => 0) (fun _ => 0)).
  intros h. cbn [fst]. unfold Qle, Qlt. cbn [Qnum Qden]. lia.
Defined.
